(* ===== verification/_CoqProject ===== *)
-Q . S2P
Prelude.v
Types.v
Gate.v
Tracker.v
Chain.v
App.v
Invariants.v
Reachable.v
Monotone.v
Banked.v
Spec.v
Refinement.v
Returns.v
AppProofs.v
AppObservers.v
AppDrain.v
AppTotals.v
AppLiveness.v
AppView.v
Scheduler.v
Liveness.v
Scenarios.v
Properties.v
AppProperties.v
