(* ===== verification/Prelude.v ===== *)
(** * A verification development for [AsyncChainQueue] (tearlant/async-chain-demo)

    ** The program

    [src/src/app/queue/asyncChainQueue.ts] defines one class,
    [AsyncChainQueue<TAsyncInput, SAsyncOutput, RKnownArgs>], a FIFO chain
    of asynchronous tasks with a gate that can be closed and reopened.
    Its parts interact through one mutable promise, [pipeline], the tail
    of the chain:
    - the chain: [pushFunctionToQueue] (a synchronous task run after a
      [setTimeout]) and [pushPromiseToQueue] (a task returning a promise)
      each append a step that waits for the old tail, computes the task's
      input from the previous result with [createInputToTask], runs the
      task and calls [registerTaskCompletion];
    - the gate: [closeQueue] (private; called by the constructor and by
      both halting methods) numbers a closure and appends a barrier step;
      when the chain reaches the barrier it passes at once if an opening
      with that number has happened ([closureNumber <= numberOfOpenings])
      and in any case subscribes to [openQueueSignal]; [openQueue] counts
      an opening (guarded by [numberOfOpenings <= numberOfClosures]),
      fires the signal and clears the closed flag;
    - the completion tracker: [registerTaskCompletion] counts a completed
      task and emits [taskComplete]; [queueComplete] filters the emissions
      at which [queueLength === tasksComplete];
      [closeQueueAndGetFinalResult] returns the current tail and closes;
      [getFinalResultAndCloseWhenAllTasksComplete] does the same at once
      if nothing is outstanding, and otherwise at the first [queueComplete]
      emission.
    [src/src/app/app.component.ts] is the Angular component that uses the
    queue (the spec's Task Producer and Result Observer) and
    [src/src/app/app.module.ts] its bootstrap wiring.

    ** How the development models it

    The JavaScript promise machinery is explicit state.  Every promise
    the class appends to [pipeline] is a cell of [Types.pipe]; cell 0 is
    [Promise.resolve(initialValue)] and the last cell is [pipeline]
    ([Types.pipeline]).  A cell holds the step that resolves it
    ([Types.Node]: [NInit], [NFn] for [pushFunctionToQueue], [NAsync] for
    [pushPromiseToQueue], [NBarrier k] for [closeQueue], each with the
    callbacks the caller passed) and the state of its promise
    ([Types.Status]: [Pending], [TimerSet], [Awaiting], [Subscribed],
    [Fulfilled], [Rejected], or [Hung] for a promise whose [resolve] can no
    longer be called).  The rxjs subjects are their subscriber lists
    ([openSubs], [drainSubs]); the promises returned to callers are [rets];
    [setTimeout] is a due time in the cell and a millisecond clock [now].
    Each method is a function [Queue -> Queue] (with the returned promise
    for the halting methods); each promise callback is a partial function
    [Queue -> option Queue], [None] when it is not enabled.  [Chain.step]
    is the relation of all of them ([Chain.Event], [Chain.exec]), so any
    interleaving of user calls with promise and timer callbacks is a
    sequence of steps: this over-approximates the JavaScript event loop
    (which runs promise callbacks as microtasks before the next user
    event), so every property proved of all reachable states
    ([Chain.reachable]) holds of the program.

    Files, in dependency order:
    - [Prelude.v] (this file): sequences of steps [star], the counter
      [countb], shared list lemmas, hint databases [queue] and
      [queue_rw], tactics.
    - [Types.v]: the class's fields as the record [Queue] and the data
      of the chain (lines 4-16 of the class).
    - [Gate.v], Module [Gate]: [IsClosed], [closeQueue],
      [barrier_reached] (the barrier's [then] callback), [openQueue] and
      the signal ([signal_open], [release_all]) (lines 26-28, 82-110).
    - [Tracker.v], Module [Tracker]: [registerTaskCompletion],
      [emit_taskComplete] and [drain_fire] (the [queueComplete]
      subscribers), [closeQueueAndGetFinalResult],
      [getFinalResultAndCloseWhenAllTasksComplete], and [ret_status], how
      a returned promise has settled (lines 10-11, 54-79, 112-116).
    - [Chain.v], Module [Chain]: the constructor [new],
      [pushFunctionToQueue], [pushPromiseToQueue], the callbacks
      [start_step], [timer_step], [settle_step], the clock [tick], the
      events, [step] and [reachable] (lines 18-24, 31-52).
    - [App.v], Module [App]: [app.component.ts] as a client of the queue
      (see below).
    - [Invariants.v]: [step_ok], the local contract between a promise and
      its predecessor, and [inv], the invariant of reachable queues.
    - [Reachable.v]: [inv] and the drain invariant [drain_ok] hold in
      every reachable queue ([reachable_inv], [reachable_drain_ok]).
    - [Monotone.v]: the steps of the chain only grow and the openings
      never decrease ([grows_star]).
    - [Banked.v], Module [Banked]: the balance of closures and openings
      ([gate_ok]: an open queue has no unopened closure), so
      [openQueue()] on an open queue banks an opening
      ([openQueue_open_banks]) and a barrier created then passes at once
      ([banked_barrier_passes]); every barrier reached stays subscribed
      to the open signal ([subs_ok], [subs_ok_star]).
    - [Spec.v], Module [Spec]: the abstract specification, the chain as
      a synchronous left fold [chain_result] (barriers as the identity).
    - [Refinement.v], Module [Refinement]: every promise of a reachable
      queue agrees with the fold ([chain_refines_fold_inv]).
    - [Returns.v], Module [Returns]: a promise returned to a caller,
      once it follows a promise of the chain, keeps following it
      ([rets_stable]); a drain waiter follows the tail at its call or a
      later one ([ret_tracks_star]); a fulfilled returned promise holds
      the fold up to the promise it follows ([ret_status_fold]).
    - [AppProofs.v], Module [AppProofs]: the invariant [app_inv] of the
      component's reachable states ([reachable_app_inv]), the totals of
      its chains, and the termination of the microtask checkpoint.
    - [AppObservers.v], Module [AppObservers]: the halting handlers'
      callbacks of a queue replaced by [reset()] are never selected, and
      the invariant [waiting_ok] of the waiting indicator.
    - [AppDrain.v], Module [AppDrain]: every drain waiter of the live
      queue has the callback of [halt_finishThenClose] pending
      ([drain_observed]); [openQueue()] keeps both
      ([openQueue_keeps_drain]).
    - [AppTotals.v], Module [AppTotals]: the invariant [obs_wf] of the
      states inside a checkpoint ([in_checkpoint]), and the total a
      halting callback displays ([observer_total]).
    - [AppLiveness.v], Module [AppLiveness]: every running task of the
      live queue has its timer pending ([timers_cover]); a queue with an
      incomplete task either has one or waits at a closure
      ([progress]); ticks and timers complete every task
      ([drive_completes]).
    - [AppView.v], Module [AppView]: the component's getters (lines
      60-90) as text, with the JavaScript number formatting they use
      ([toFixed1], [number_toString], [tenths_toString]) and
      [parseFloat]; [elapsedTime] stays a multiple of [tickPeriod]
      ([reachable_elapsed], [checkpoint_elapsed]), so the clock text
      reads back as [App.Clock] ([parseFloat_Clock]), which justifies
      the tenths [App.observer_callback] stores in [lastTimeCheck].
    - [Scheduler.v], Module [Scheduler]: an executable scheduler that runs
      the chain's callbacks in event-loop order, with fuel.
    - [Liveness.v], Module [Liveness]: with fuel [run_bound] the scheduler
      fulfils every promise of a queue whose tasks succeed and whose
      barriers are open ([run_fulfils]).
    - [Scenarios.v], Module [Scenarios]: concrete queues over [nat] and
      runs of the component, the states of the witnesses.
    - [Properties.v]: the properties C1-C19 of the manifest, about the
      queue, and their witnesses; [AppProperties.v]: C20-C28, about the
      component.

    ** The component

    [App.App] holds [AppComponent]'s fields, the queues [reset()] replaced
    ([discarded]: their callbacks are still registered), the pending
    timers of [promiseToPushToQueue] with the [signalValue] they captured,
    and the pending [then] callbacks of the halting handlers.  Its tasks
    are the queue's [NAsync] steps with [createArgumentsForTask] and
    [App.task_promise]; a task's promise is resolved by its timer
    ([App.timer_fires]) only if no reset happened since it started.  The
    component's steps follow the event loop: a macrotask ([App.exec]: a
    user action, a timer, a millisecond) and then all the microtasks it
    queued ([App.quiesce]), which is what makes the reset token work: at
    a reset no [then] callback of the old queue is pending.

    ** What the theorems show

    - Refinement and FIFO (C1-C4, C14): each promise of the chain ends as
      the synchronous fold of the steps up to it; a step starts only after
      all earlier ones have settled, so at most one is in flight; a
      started step was given the previous task's output; completions come
      in submission order.
    - The gate (C5-C11): [openQueue] releases every waiting barrier; a
      barrier waits only while its closure is unopened and while it is
      subscribed (no lost opening); a barrier whose opening was banked
      passes whenever it is reached, whatever the interleaving;
      [numberOfOpenings <= numberOfClosures + 1]; on an open queue
      [openQueue()] banks an opening, so the next close reports closed
      but its barrier passes at once (C9); every barrier reached stays
      subscribed to the open signal for the life of the queue (C10);
      [closeQueue] is idempotent and appends one numbered barrier.
    - The tracker (C12, C13): [queueLength] and [tasksComplete] count the
      submitted and the fulfilled tasks; a drain waiter is subscribed only
      while tasks are outstanding.
    - Errors (C15): after a rejection no later step is fulfilled.
    - Liveness (C16): a queue whose tasks succeed, whose barriers are open
      and with no drain waiter runs to its end within [run_bound]
      callbacks, all tasks counted complete.
    - The returned promises (C17, C18): the promise of
      [closeQueueAndGetFinalResult], once fulfilled, holds the fold of
      exactly the steps submitted before the call; that of
      [getFinalResultAndCloseWhenAllTasksComplete] the fold of a prefix
      of the chain containing every step submitted before the call.
    - The drain subscribers (C19): the loop that fires them equals a
      closed form, [Tracker.drain_all]: one close, the first waiter on
      the tail before it, every later waiter on the closing barrier.
    - The component (C20-C28): the displayed [runningTotal] is the sum
      of the values of the completed tasks of the live queue; a queue
      replaced by [reset()] never changes again and its timers have no
      effect; a timer with the current token targets a running task of
      the live queue; the halting callbacks of a replaced queue never
      run, so the missing token check in them is harmless; a halting
      callback that runs displays, from [runningTotal], exactly the
      value its promise resolved with (the [res] it ignores);
      [waitingToFinish] is set only while a callback of
      [halt_finishThenClose] is pending; [openQueue()] clears it and
      shows the queue open while the drain waiter and its callback stay
      (C27); and liveness: with no closure waiting, ticks and timers
      alone complete every submitted task (C28).

    ** Bounds and fuel

    The counters are [nat]: the class's counters are JavaScript numbers,
    exact up to 2^53, and each grows by one per call, so their precision
    is not modelled.  [setTimeout] delays are [nat] milliseconds (the
    source's [number], where a negative delay acts as 0).  The scheduler's
    fuel bounds the number of callbacks run; the concrete queues of
    [Scenarios.v] use 8 to 40, which run each of them to the end.  No
    property of the queue depends on a fuel bound: the step relation
    itself has none.  C16 gives the fuel that is enough
    for the scheduler: [Liveness.run_bound], the sum over the steps of
    the callbacks each still needs (2 plus the delay for a deferred task
    not started, 2 for an asynchronous one, 1 for a barrier, the
    remaining delay plus 1 for a timer, 1 for a running promise).  The
    component's microtask checkpoint
    [App.quiesce] is given [App.micro_measure] as fuel, the number of
    steps of its chains not yet started plus its pending observers; each
    microtask lowers it, so it is enough
    ([AppProofs.quiesce_quiescent_gen]).  The component's numbers
    are [Z] (JavaScript numbers, exact on the integers the form holds);
    [elapsedTime] and the clock are [nat] milliseconds.  The run of C28
    has, per incomplete task, as many ticks as the task's timer still
    needs and one timer callback; the induction is on the number of
    incomplete tasks, which each timer lowers by one.

    ** Not modelled

    - In [app.component.ts], the form's validators: presentation (spec
      section 1).  Form values are integers.  The getters are modelled
      ([AppView.v]); the floating-point rounding of [0.001 * elapsedTime]
      is not (on multiples of [tickPeriod] it is far below the half tenth
      at which [toFixed(1)] would print another digit).
    - [app.module.ts]: Angular bootstrap, no behaviour.
    - The order of microtasks within one turn of the event loop: the
      model lets any callback run between any two user calls, which
      includes the real order.

    ** Further work

    1. Timing: a deferred task's callback runs no earlier than its delay
       after the previous step settled.
    2. The component's liveness (C28) builds a run by induction on the
       incomplete tasks; an executable driver that computes the run is
       not written. *)

From stdpp Require Import base list.

Declare Scope queue_scope.
Delimit Scope queue_scope with queue.

Create HintDb queue discriminated.
Create Rewrite HintDb queue_rw.

(** ** Definitions *)

(** Zero or more steps of a relation. *)
Inductive star {A : Type} (R : A -> A -> Prop) : A -> A -> Prop :=
| star_refl a : star R a a
| star_step a b c : R a b -> star R b c -> star R a c.
Arguments star_refl {A R} a.

(** The number of elements of a list that pass a test. *)
Fixpoint countb {A} (p : A -> bool) (l : list A) : nat :=
  match l with
  | [] => 0
  | x :: l' => (if p x then 1 else 0) + countb p l'
  end.

(** ** Tactics *)

(** [invc H]: invert a hypothesis, substitute, and clear it. *)
Ltac invc H := inversion H; subst; clear H.

(** Case analysis on the boolean comparisons of [nat] in the goal. *)
Ltac nat_cases :=
  repeat match goal with
  | |- context [?a =? ?b] => destruct (Nat.eqb_spec a b)
  | |- context [?a <=? ?b] => destruct (Nat.leb_spec a b)
  | H : context [?a =? ?b] |- _ => destruct (Nat.eqb_spec a b)
  | H : context [?a <=? ?b] |- _ => destruct (Nat.leb_spec a b)
  end.

(** ** Sequences of steps *)

Section Star.
Context {A : Type} (R : A -> A -> Prop).
Local Abbreviation star := (star R).

Lemma star_one a b : R a b -> star a b.
Proof. intros H. eapply star_step; [exact H | constructor]. Qed.

Lemma star_trans a b c : star a b -> star b c -> star a c.
Proof. induction 1; intros; [done | eapply star_step; eauto]. Qed.

Lemma star_snoc a b c : star a b -> R b c -> star a c.
Proof. intros Hab Hbc. eapply star_trans; [exact Hab | by apply star_one]. Qed.

(** An invariant of the step relation holds along any sequence. *)
Lemma star_inv (P : A -> Prop) :
  (forall a b, P a -> R a b -> P b) -> forall a b, star a b -> P a -> P b.
Proof. intros Hstep a b Hs. induction Hs; eauto. Qed.

(** A monotone measure along a sequence. *)
Lemma star_mono (m : A -> nat) :
  (forall a b, R a b -> m a <= m b) -> forall a b, star a b -> m a <= m b.
Proof. intros Hm a b Hs. induction Hs as [|a b c Hab _ IH]; [lia |]. specialize (Hm a b Hab). lia. Qed.
End Star.

#[export] Hint Resolve star_refl star_one : queue.

(** ** Counting the elements of a list that satisfy a test *)


Section Countb.
Context {A : Type} (p : A -> bool).

Lemma countb_app (l1 l2 : list A) : countb p (l1 ++ l2) = countb p l1 + countb p l2.
Proof. induction l1 as [|x l1 IH]; simpl; [done | rewrite IH; lia]. Qed.

Lemma countb_snoc (l : list A) x :
  countb p (l ++ [x]) = countb p l + (if p x then 1 else 0).
Proof. rewrite countb_app. simpl. lia. Qed.

Lemma countb_le_length (l : list A) : countb p l <= length l.
Proof. induction l as [|x l IH]; simpl; [lia | destruct (p x); lia]. Qed.

(** Overwriting one element changes the count by the tests of the old
    and the new element only. *)
Lemma countb_insert (l : list A) i x y :
  l !! i = Some y ->
  countb p (<[i := x]> l) + (if p y then 1 else 0) = countb p l + (if p x then 1 else 0).
Proof.
  revert i. induction l as [|z l IH]; intros [|i] Hi; simpl in *; try done.
  - injection Hi as ->. lia.
  - specialize (IH i Hi). lia.
Qed.

Lemma countb_insert_same (l : list A) i x y :
  l !! i = Some y -> p x = p y -> countb p (<[i := x]> l) = countb p l.
Proof. intros Hi Hp. pose proof (countb_insert l i x y Hi). rewrite Hp in H. lia. Qed.

Lemma countb_impl (q : A -> bool) (l : list A) :
  (forall x, q x = true -> p x = true) -> countb q l <= countb p l.
Proof.
  intros Himp. induction l as [|x l IH]; simpl; [lia |].
  destruct (q x) eqn:Hq; [rewrite (Himp x Hq); lia | destruct (p x); lia].
Qed.

(** Two lists of the same length whose elements agree on the test
    index by index have the same count. *)
Lemma countb_lookup_ext (l1 l2 : list A) :
  length l1 = length l2 ->
  (forall i x y, l1 !! i = Some x -> l2 !! i = Some y -> p x = p y) ->
  countb p l1 = countb p l2.
Proof.
  revert l2. induction l1 as [|x l1 IH]; intros [|y l2] Hlen Hpt; simpl in *; try done.
  rewrite (Hpt 0 x y) by done. f_equal. apply IH; [lia |].
  intros i. exact (Hpt (S i)).
Qed.

Lemma countb_fmap {B} (f : B -> A) (l : list B) : countb p (f <$> l) = countb (fun x => p (f x)) l.
Proof. induction l as [|x l IH]; [done |]. rewrite fmap_cons. cbn [countb]. by rewrite IH. Qed.

(** A prefix has no more elements that pass the test. *)
Lemma countb_prefix (l1 l2 : list A) : l1 `prefix_of` l2 -> countb p l1 <= countb p l2.
Proof. intros [k ->]. rewrite countb_app. lia. Qed.

Lemma countb_take_mono n m (l1 l2 : list A) :
  n <= m -> l1 `prefix_of` l2 -> countb p (take n l1) <= countb p (take m l2).
Proof.
  intros Hnm [k ->]. apply countb_prefix. rewrite take_app.
  apply prefix_app_r.
  replace (take n l1) with (take n (take m l1)) by (rewrite take_take, Nat.min_l; done). apply prefix_take.
Qed.
End Countb.

#[export] Hint Rewrite @countb_app @countb_snoc : queue_rw.

(** ** Folds *)

(** A property kept by every call of the folded function holds after the
    fold. *)
Lemma fold_left_inv {A B} (f : A -> B -> A) (P : A -> Prop) :
  (forall a b, P a -> P (f a b)) -> forall l a, P a -> P (fold_left f l a).
Proof. intros Hf l. induction l as [|b l IH]; intros a Ha; simpl; auto. Qed.

(** ** Lists grown at the end *)

Lemma lookup_snoc_lt {A} (l : list A) x i : i < length l -> (l ++ [x]) !! i = l !! i.
Proof. intros H. by apply lookup_app_l. Qed.

Lemma lookup_snoc_eq {A} (l : list A) x : (l ++ [x]) !! length l = Some x.
Proof. rewrite lookup_app_r; [| lia]. by rewrite Nat.sub_diag. Qed.

#[export] Hint Rewrite @lookup_snoc_eq : queue_rw.

(** ** Updating one element *)

Lemma sum_list_with_alter {A} (f : A -> nat) (h : A -> A) (l : list A) i x :
  l !! i = Some x -> sum_list_with f (alter h i l) + f x = sum_list_with f l + f (h x).
Proof.
  revert i. induction l as [|y l IH]; intros [|i] Hi; simpl in *; try done.
  - injection Hi as ->. lia.
  - specialize (IH i Hi). change (alter h i l) with (list_alter h i l) in IH. lia.
Qed.

Lemma alter_snoc_eq {A} (h : A -> A) (l : list A) x :
  alter h (length l) (l ++ [x]) = l ++ [h x].
Proof. induction l as [|y l IH]; simpl; [done | f_equal; exact IH]. Qed.

Lemma alter_snoc_ne {A} (h : A -> A) (l : list A) x i :
  i <> length l -> alter h i (l ++ [x]) = alter h i l ++ [x].
Proof.
  revert i. induction l as [|y l IH]; intros [|i] Hi; simpl in *; try done.
  f_equal. apply IH. lia.
Qed.

Lemma countb_zero {A} (p : A -> bool) (l : list A) :
  (forall x, x ∈ l -> p x = false) -> countb p l = 0.
Proof.
  induction l as [|x l IH]; intros H; simpl; [done |].
  rewrite (H x) by constructor. rewrite IH; [done |]. intros y Hy. apply H. by constructor.
Qed.

Lemma countb_ext_in {A} (p p' : A -> bool) (l : list A) :
  (forall x, x ∈ l -> p x = p' x) -> countb p l = countb p' l.
Proof.
  induction l as [|x l IH]; intros H; simpl; [done |].
  rewrite (H x) by constructor. rewrite IH; [done |]. intros y Hy. apply H. by constructor.
Qed.

Lemma sum_list_with_insert {A} (f : A -> nat) (l : list A) i x y :
  l !! i = Some y -> sum_list_with f (<[i := x]> l) + f y = sum_list_with f l + f x.
Proof.
  revert i. induction l as [|z l IH]; intros [|i] Hi; simpl in *; try done.
  - injection Hi as ->. lia.
  - specialize (IH i Hi). lia.
Qed.

Lemma sum_list_with_le {A} (f f' : A -> nat) (l : list A) :
  (forall y, y ∈ l -> f' y <= f y) -> sum_list_with f' l <= sum_list_with f l.
Proof.
  induction l as [|z l IH]; intros Hle; simpl; [lia |].
  pose proof (Hle z ltac:(constructor)). assert (sum_list_with f' l <= sum_list_with f l); [| lia].
  apply IH. intros y Hy. apply Hle. by constructor.
Qed.

(** A sum decreases when no term grows and one term shrinks. *)
Lemma sum_list_with_lt {A} (f f' : A -> nat) (l : list A) i x :
  (forall y, y ∈ l -> f' y <= f y) -> l !! i = Some x -> f' x < f x ->
  sum_list_with f' l < sum_list_with f l.
Proof.
  revert i. induction l as [|z l IH]; intros [|i] Hle Hi Hlt; simpl in *; try done.
  - injection Hi as ->. assert (sum_list_with f' l <= sum_list_with f l); [| lia].
    apply sum_list_with_le. intros y Hy. apply Hle. by constructor.
  - pose proof (Hle z ltac:(constructor)).
    assert (sum_list_with f' l < sum_list_with f l); [| lia].
    apply (IH i); [| done | done]. intros y Hy. apply Hle. by constructor.
Qed.
