(* ===== verification/Types.v ===== *)
(** * The data of [AsyncChainQueue] ([src/src/app/queue/asyncChainQueue.ts])

    The class's type parameters [TAsyncInput], [SAsyncOutput] and
    [RKnownArgs] are the section variables [TInput], [SOutput] and
    [RArgs].  The record [Queue] holds the class's fields (lines 5-16)
    and the promises and subscriptions they point to:

    - [pipe]: the promises of the chain, oldest first.  Cell 0 is
      [Promise.resolve(initialValue)] (line 19); [pipeline] (line 5) is
      the last cell.  Each cell records the step that resolves it
      ([Node]) and the state of its promise ([Status]).
    - [drainSubs]: the subscribers of [queueComplete.pipe(take(1))]
      (lines 11, 72), by the returned promise they resolve.
    - [openSubs]: the subscribers of [openQueueSignal] (lines 12, 105), by
      the barrier cell whose [resolve] they call.
    - [rets]: the promises returned to callers by the two halting methods
      and the cell each one follows.
    - [now]: the clock of [setTimeout], in milliseconds. *)

From stdpp Require Import base list.
From S2P Require Import Prelude.

Section Types.
Context {TInput SOutput RArgs : Type}.

(** How the promise returned by an asynchronous task
    ([promise(input)], line 50) ends: fulfilled with a value, rejected,
    or never settled. *)
Inductive Outcome :=
| Fulfils (v : SOutput)
| Rejects
| NeverSettles.

(** The step that resolves a promise of the chain.
    - [NInit v]: [Promise.resolve(initialValue)] (line 19).
    - [NFn]: the promise built by [pushFunctionToQueue] (lines 34-42)
      with its arguments; [callback] returns [None] when it throws.
    - [NAsync]: the promise built by [pushPromiseToQueue] (lines 48-51).
    - [NBarrier k]: the promise built by [closeQueue] (lines 99-107) for
      closure number [k]. *)
Inductive Node :=
| NInit (v : SOutput)
| NFn (knownArgs : RArgs) (createInputToTask : SOutput -> RArgs -> TInput)
      (callback : TInput -> option SOutput) (timeoutInMS : nat)
| NAsync (knownArgs : RArgs) (createInputToTask : SOutput -> RArgs -> TInput)
      (promise : TInput -> Outcome)
| NBarrier (closureNumber : nat).

(** The state of a promise of the chain.
    - [Pending]: its step has not started (the previous promise has not
      settled, or its [then] callback has not run yet).
    - [TimerSet due s]: a deferred task's [setTimeout] is registered,
      due at time [due], with the previous result [s] (line 36).
    - [Awaiting o]: an asynchronous task's promise is running and will
      end as [o] (line 50).
    - [Subscribed s]: a barrier found its closure not yet opened and
      waits on [openQueueSignal] to resolve with [s] (line 105).
    - [Fulfilled v], [Rejected]: settled.
    - [Hung]: the step ran but its [resolve] can never be called: a
      deferred task whose callback threw, or a deferred task or barrier
      whose previous promise rejected (their [then] has no rejection
      handler, so the promise they build stays pending forever). *)
Inductive Status :=
| Pending
| TimerSet (due : nat) (s : SOutput)
| Awaiting (o : Outcome)
| Subscribed (s : SOutput)
| Fulfilled (v : SOutput)
| Rejected
| Hung.

Record Cell := mkCell { node : Node; status : Status }.

(** A promise returned to a caller.
    - [RAdopt i]: settles as cell [i] does ([closeQueueAndGetFinalResult]
      returns [this.pipeline], line 57; the drained branch of
      [getFinalResultAndCloseWhenAllTasksComplete] resolves with a copy
      of it, line 67).
    - [RWaiting]: waits for the first [queueComplete] event (line 72).
    - [RThen i]: resolved by [copyOfPipeline.then(s => resolve(s))]
      (line 75): fulfilled as cell [i] is, and never settled if cell [i]
      rejects. *)
Inductive Ret :=
| RAdopt (i : nat)
| RWaiting
| RThen (i : nat).

Record Queue := mkQueue {
  pipe : list Cell;
  queueLength : nat;
  tasksComplete : nat;
  queueIsClosed : bool;
  drainSubs : list nat;
  openSubs : list nat;
  numberOfClosures : nat;
  numberOfOpenings : nat;
  rets : list Ret;
  now : nat
}.

(** ** Field updates *)

Definition set_pipe (p : list Cell) (q : Queue) : Queue :=
  mkQueue p (queueLength q) (tasksComplete q) (queueIsClosed q) (drainSubs q)
    (openSubs q) (numberOfClosures q) (numberOfOpenings q) (rets q) (now q).
Definition set_queueLength (n : nat) (q : Queue) : Queue :=
  mkQueue (pipe q) n (tasksComplete q) (queueIsClosed q) (drainSubs q)
    (openSubs q) (numberOfClosures q) (numberOfOpenings q) (rets q) (now q).
Definition set_tasksComplete (n : nat) (q : Queue) : Queue :=
  mkQueue (pipe q) (queueLength q) n (queueIsClosed q) (drainSubs q)
    (openSubs q) (numberOfClosures q) (numberOfOpenings q) (rets q) (now q).
Definition set_queueIsClosed (b : bool) (q : Queue) : Queue :=
  mkQueue (pipe q) (queueLength q) (tasksComplete q) b (drainSubs q)
    (openSubs q) (numberOfClosures q) (numberOfOpenings q) (rets q) (now q).
Definition set_drainSubs (l : list nat) (q : Queue) : Queue :=
  mkQueue (pipe q) (queueLength q) (tasksComplete q) (queueIsClosed q) l
    (openSubs q) (numberOfClosures q) (numberOfOpenings q) (rets q) (now q).
Definition set_openSubs (l : list nat) (q : Queue) : Queue :=
  mkQueue (pipe q) (queueLength q) (tasksComplete q) (queueIsClosed q) (drainSubs q)
    l (numberOfClosures q) (numberOfOpenings q) (rets q) (now q).
Definition set_numberOfClosures (n : nat) (q : Queue) : Queue :=
  mkQueue (pipe q) (queueLength q) (tasksComplete q) (queueIsClosed q) (drainSubs q)
    (openSubs q) n (numberOfOpenings q) (rets q) (now q).
Definition set_numberOfOpenings (n : nat) (q : Queue) : Queue :=
  mkQueue (pipe q) (queueLength q) (tasksComplete q) (queueIsClosed q) (drainSubs q)
    (openSubs q) (numberOfClosures q) n (rets q) (now q).
Definition set_rets (l : list Ret) (q : Queue) : Queue :=
  mkQueue (pipe q) (queueLength q) (tasksComplete q) (queueIsClosed q) (drainSubs q)
    (openSubs q) (numberOfClosures q) (numberOfOpenings q) l (now q).
Definition set_now (n : nat) (q : Queue) : Queue :=
  mkQueue (pipe q) (queueLength q) (tasksComplete q) (queueIsClosed q) (drainSubs q)
    (openSubs q) (numberOfClosures q) (numberOfOpenings q) (rets q) n.

(** ** The chain *)

(** [this.pipeline]: the index of the last promise of the chain. *)
Definition pipeline (q : Queue) : nat := pred (length (pipe q)).

(** [this.pipeline = <new promise waiting on the old one>]: append a
    step whose promise has not started. *)
Definition append_node (n : Node) (q : Queue) : Queue :=
  set_pipe (pipe q ++ [mkCell n Pending]) q.

(** Change the state of the promise of cell [i]. *)
Definition set_status (i : nat) (st : Status) (q : Queue) : Queue :=
  match pipe q !! i with
  | Some c => set_pipe (<[i := mkCell (node c) st]> (pipe q)) q
  | None => q
  end.

Definition status_at (q : Queue) (i : nat) : option Status := status <$> pipe q !! i.

(** ** Classifying steps and states *)

Definition is_task (n : Node) : bool :=
  match n with NFn _ _ _ _ | NAsync _ _ _ => true | _ => false end.

Definition is_barrier (n : Node) : bool :=
  match n with NBarrier _ => true | _ => false end.

(** A settled promise: its [then] callbacks run. *)
Definition is_settled (st : Status) : bool :=
  match st with Fulfilled _ | Rejected => true | _ => false end.

Definition is_fulfilled (st : Status) : bool :=
  match st with Fulfilled _ => true | _ => false end.

(** A task step whose promise has been fulfilled: [registerTaskCompletion]
    has run for it. *)
Definition task_done (c : Cell) : bool := is_task (node c) && is_fulfilled (status c).

Definition barrier_cell (c : Cell) : bool := is_barrier (node c).
Definition task_cell (c : Cell) : bool := is_task (node c).
End Types.

Arguments Outcome : clear implicits.
Arguments Node : clear implicits.
Arguments Status : clear implicits.
Arguments Cell : clear implicits.
Arguments Queue : clear implicits.

(** ** Lemmas on the field updates and the chain *)

Section TypesLemmas.
Context {TInput SOutput RArgs : Type}.
Implicit Types (q : Queue TInput SOutput RArgs).

Lemma pipe_append_node q n : pipe (append_node n q) = pipe q ++ [mkCell n Pending].
Proof. done. Qed.

Lemma length_set_status q i st : length (pipe (set_status i st q)) = length (pipe q).
Proof. unfold set_status. destruct (pipe q !! i); simpl; [apply length_insert | done]. Qed.

Lemma lookup_set_status_eq q i st c :
  pipe q !! i = Some c -> pipe (set_status i st q) !! i = Some (mkCell (node c) st).
Proof.
  intros Hi. unfold set_status. rewrite Hi. simpl.
  apply list_lookup_insert_eq. by eapply lookup_lt_Some.
Qed.

Lemma lookup_set_status_ne q i j st :
  i <> j -> pipe (set_status i st q) !! j = pipe q !! j.
Proof.
  intros Hne. unfold set_status. destruct (pipe q !! i); simpl; [| done].
  by apply list_lookup_insert_ne.
Qed.
End TypesLemmas.

Lemma task_done_unfulfilled {TInput SOutput RArgs} (c : Cell TInput SOutput RArgs) :
  is_fulfilled (status c) = false -> task_done c = false.
Proof. intros H. unfold task_done. rewrite H. apply andb_false_r. Qed.

#[export] Hint Rewrite @pipe_append_node @length_set_status : queue_rw.
