(* ===== verification/Gate.v ===== *)
(** * The gate: [closeQueue], [openQueue] and the barrier promise

    Models lines 82-110 of [src/src/app/queue/asyncChainQueue.ts] and the
    [IsClosed] getter (lines 26-28).  [closeQueue] numbers a closure and
    appends a barrier promise to the chain; the barrier's [then] callback
    ([barrier_reached]) resolves at once when an opening with that number
    has happened, and in any case subscribes to [openQueueSignal];
    [openQueue] counts an opening (guarded), fires the signal (which calls
    every subscriber's [resolve]) and clears the closed flag. *)

From stdpp Require Import base list sets.
From S2P Require Import Prelude Types.

Module Gate.
Section Gate.
Context {TInput SOutput RArgs : Type}.
Abbreviation Queue := (Queue TInput SOutput RArgs).
Abbreviation Cell := (Cell TInput SOutput RArgs).
Implicit Types (q : Queue).

(** [get IsClosed()] (lines 26-28). *)
Definition IsClosed q : bool := queueIsClosed q.

(** [closeQueue()] (lines 91-110): a no-op when already closed;
    otherwise the next closure number, a barrier promise appended to
    the chain, and the closed flag. *)
Definition closeQueue q : Queue :=
  if queueIsClosed q then q
  else
    let closureNumber := S (numberOfClosures q) in
    set_queueIsClosed true
      (append_node (NBarrier closureNumber) (set_numberOfClosures closureNumber q)).

(** A subscriber of [openQueueSignal] calls [resolve(s)] on its barrier
    (line 105); on a promise that is already settled, [resolve] does
    nothing. *)
Definition release_cell (c : Cell) : Cell :=
  match status c with
  | Subscribed s => mkCell (node c) (Fulfilled s)
  | _ => c
  end.

(** [openQueueSignal.next()] (line 87): every subscriber, in the order
    of subscription. *)
Definition release_all (subs : list nat) (p : list Cell) : list Cell :=
  fold_left (fun p i => alter release_cell i p) subs p.

Definition signal_open q : Queue := set_pipe (release_all (openSubs q) (pipe q)) q.

(** [openQueue()] (lines 82-89). *)
Definition openQueue q : Queue :=
  let q1 :=
    if numberOfOpenings q <=? numberOfClosures q
    then set_numberOfOpenings (S (numberOfOpenings q)) q
    else q in
  set_queueIsClosed false (signal_open q1).

(** The [then] callback of the barrier of cell [i] with closure number
    [closureNumber], run with the previous result [s] (lines 100-106):
    resolve now if the closure has been opened, and subscribe to
    [openQueueSignal] in every case. *)
Definition barrier_reached (i closureNumber : nat) (s : SOutput) q : Queue :=
  let st := if closureNumber <=? numberOfOpenings q then Fulfilled s else Subscribed s in
  set_openSubs (openSubs q ++ [i]) (set_status i st q).

(** ** Lemmas on the signal *)

Lemma length_release_all subs p : length (release_all subs p) = length p.
Proof.
  revert p. induction subs as [|i subs IH]; intros p; simpl; [done |].
  rewrite IH. apply length_alter.
Qed.

Lemma release_cell_idem c : release_cell (release_cell c) = release_cell c.
Proof. by destruct c as [n []]. Qed.

Lemma node_release_cell c : node (release_cell c) = node c.
Proof. by destruct c as [n []]. Qed.

(** After the signal, a cell named by a subscriber has been released
    and every other cell is unchanged. *)
Lemma lookup_release_all subs p j :
  release_all subs p !! j =
    if decide (j ∈ subs) then release_cell <$> p !! j else p !! j.
Proof.
  revert p. induction subs as [|i subs IH]; intros p; cbn [release_all fold_left].
  - rewrite decide_False; [done | apply not_elem_of_nil].
  - rewrite IH. destruct (decide (i = j)) as [->|Hne].
    + rewrite list_lookup_alter_eq, (decide_True _ _ (proj2 (elem_of_cons _ _ _) (or_introl eq_refl))).
      destruct (decide (j ∈ subs)); destruct (p !! j); simpl; rewrite ?release_cell_idem; done.
    + rewrite list_lookup_alter_ne by done.
      destruct (decide (j ∈ subs)) as [H1|H1], (decide (j ∈ i :: subs)) as [H2|H2]; try done.
      * exfalso. apply H2, elem_of_cons. by right.
      * exfalso. apply elem_of_cons in H2 as [->|H2]; done.
Qed.
(** ** Behaviour of the gate operations *)

(** A cell that was waiting on the signal is fulfilled with the value
    it captured. *)
Lemma release_cell_subscribed n s :
  release_cell (mkCell n (Subscribed s)) = mkCell n (Fulfilled s).
Proof. done. Qed.

Lemma release_cell_other c :
  (forall s, status c <> Subscribed s) -> release_cell c = c.
Proof. destruct c as [n []]; simpl; intros H; try done. by destruct (H s). Qed.

Lemma length_signal_open q : length (pipe (signal_open q)) = length (pipe q).
Proof. apply length_release_all. Qed.

Lemma length_openQueue q : length (pipe (openQueue q)) = length (pipe q).
Proof. unfold openQueue. case_match; apply length_release_all. Qed.

(** What [openQueue] does to the cells: it releases exactly the cells
    its subscribers name. *)
Lemma lookup_openQueue q j :
  pipe (openQueue q) !! j =
    if decide (j ∈ openSubs q) then release_cell <$> pipe q !! j else pipe q !! j.
Proof. unfold openQueue. case_match; apply lookup_release_all. Qed.

Lemma pipe_openQueue q : pipe (openQueue q) = release_all (openSubs q) (pipe q).
Proof. unfold openQueue. by case_match. Qed.

Lemma openings_openQueue q : numberOfOpenings q <= numberOfOpenings (openQueue q).
Proof. unfold openQueue. case_match; simpl; lia. Qed.

Lemma closeQueue_open q :
  queueIsClosed q = false ->
  closeQueue q =
    set_queueIsClosed true
      (append_node (NBarrier (S (numberOfClosures q)))
         (set_numberOfClosures (S (numberOfClosures q)) q)).
Proof. intros H. unfold closeQueue. by rewrite H. Qed.

Lemma closeQueue_closed q : queueIsClosed q = true -> closeQueue q = q.
Proof. intros H. unfold closeQueue. by rewrite H. Qed.
End Gate.
End Gate.
