(* ===== verification/Tracker.v ===== *)
(** * The completion tracker and the halting methods

    Models lines 11, 54-79 and 112-116 of
    [src/src/app/queue/asyncChainQueue.ts]: [registerTaskCompletion]
    counts a completed task and emits [taskComplete]; the subscribers of
    [queueComplete] (the emissions at which [queueLength === tasksComplete])
    are the drain waiters of [getFinalResultAndCloseWhenAllTasksComplete];
    [closeQueueAndGetFinalResult] returns the current tail and closes.
    A returned promise is an index into [rets]; [ret_status] says how it
    has settled. *)

From stdpp Require Import base list sets.
From S2P Require Import Prelude Types Gate.

Module Tracker.
Section Tracker.
Context {TInput SOutput RArgs : Type}.
Abbreviation Queue := (Queue TInput SOutput RArgs).
Implicit Types (q : Queue).

(** The callback of one [queueComplete.pipe(take(1))] subscriber, for
    the returned promise [r] (lines 72-76): copy the current tail, close
    the queue, and let the returned promise follow the copy. *)
Definition drain_fire q (r : nat) : Queue :=
  let copyOfPipeline := pipeline q in
  let q1 := Gate.closeQueue q in
  set_rets (<[r := RThen copyOfPipeline]> (rets q1)) q1.

(** [taskComplete.next()] (line 114) as seen through [queueComplete]
    (line 11): when [queueLength === tasksComplete], every subscriber
    fires, in the order of subscription, and [take(1)] unsubscribes it. *)
Definition emit_taskComplete q : Queue :=
  if queueLength q =? tasksComplete q then
    set_drainSubs [] (fold_left drain_fire (drainSubs q) q)
  else q.

(** [registerTaskCompletion] (lines 112-116). *)
Definition registerTaskCompletion q : Queue :=
  emit_taskComplete (set_tasksComplete (S (tasksComplete q)) q).

(** [closeQueueAndGetFinalResult()] (lines 54-58); the second component
    is the returned promise. *)
Definition closeQueueAndGetFinalResult q : Queue * nat :=
  let promiseToReturn := pipeline q in
  let q1 := Gate.closeQueue q in
  (set_rets (rets q1 ++ [RAdopt promiseToReturn]) q1, length (rets q1)).

(** [getFinalResultAndCloseWhenAllTasksComplete()] (lines 61-79). *)
Definition getFinalResultAndCloseWhenAllTasksComplete q : Queue * nat :=
  if queueLength q =? tasksComplete q then
    let copyOfPipeline := pipeline q in
    let q1 := Gate.closeQueue q in
    (set_rets (rets q1 ++ [RAdopt copyOfPipeline]) q1, length (rets q1))
  else
    let r := length (rets q) in
    (set_drainSubs (drainSubs q ++ [r]) (set_rets (rets q ++ [RWaiting]) q), r).

(** How the promise [r] returned to a caller has settled: [Fulfilled],
    [Rejected], or [Pending] while it has not. *)
Definition ret_status q (r : nat) : Status SOutput :=
  match rets q !! r with
  | Some (RAdopt i) =>
      match status_at q i with
      | Some (Fulfilled v) => Fulfilled v
      | Some Rejected => Rejected
      | _ => Pending
      end
  | Some (RThen i) =>
      match status_at q i with
      | Some (Fulfilled v) => Fulfilled v
      | _ => Pending
      end
  | _ => Pending
  end.

(** The drain waiters [r :: l] fired one after the other, in closed
    form: the queue is closed once; the first waiter follows the tail
    before the close, every later one the tail after it, which is the
    closing barrier when the queue was open. *)
Definition drain_all q (l : list nat) : Queue :=
  match l with
  | [] => q
  | r :: l' =>
      let q1 := Gate.closeQueue q in
      set_rets (fold_left (fun rs r' => <[r' := RThen (pipeline q1)]> rs) l'
                  (<[r := RThen (pipeline q)]> (rets q1))) q1
  end.

(** ** Lemmas on the fields the tracker leaves alone *)

Lemma drain_fire_fields q r :
  queueLength (drain_fire q r) = queueLength q /\
  tasksComplete (drain_fire q r) = tasksComplete q /\
  numberOfOpenings (drain_fire q r) = numberOfOpenings q /\
  openSubs (drain_fire q r) = openSubs q /\
  drainSubs (drain_fire q r) = drainSubs q /\
  now (drain_fire q r) = now q /\
  pipe (drain_fire q r) = pipe (Gate.closeQueue q) /\
  numberOfClosures (drain_fire q r) = numberOfClosures (Gate.closeQueue q) /\
  queueIsClosed (drain_fire q r) = true.
Proof.
  unfold drain_fire, Gate.closeQueue. destruct (queueIsClosed q) eqn:E; simpl; auto 10.
Qed.

(** Firing the drain waiters appends at most one barrier: the first
    waiter closes the queue and the later ones find it closed. *)
Lemma fold_drain_fire_closed q l :
  queueIsClosed q = true ->
  pipe (fold_left drain_fire l q) = pipe q /\
  numberOfClosures (fold_left drain_fire l q) = numberOfClosures q.
Proof.
  revert q. induction l as [|r l IH]; intros q Hc; simpl; [done |].
  destruct (drain_fire_fields q r) as (_ & _ & _ & _ & _ & _ & Hp & Hn & Hc').
  destruct (IH _ Hc') as [-> ->]. rewrite Hp, Hn, Gate.closeQueue_closed by done. done.
Qed.

Lemma set_rets_set_rets q l l' : set_rets l (set_rets l' q) = set_rets l q.
Proof. by destruct q. Qed.

(** On a closed queue every drain waiter follows the current tail. *)
Lemma fold_drain_fire_on_closed q l :
  queueIsClosed q = true ->
  fold_left drain_fire l q = set_rets (fold_left (fun rs r' => <[r' := RThen (pipeline q)]> rs) l (rets q)) q.
Proof.
  revert q. induction l as [|r l IH]; intros q Hc; simpl.
  - by destruct q.
  - unfold drain_fire at 2. rewrite Gate.closeQueue_closed by done.
    rewrite IH by done. by rewrite set_rets_set_rets.
Qed.

End Tracker.
End Tracker.
