(* ===== verification/Chain.v ===== *)
(** * The chain: construction, submission, task steps, and the system's steps

    Models the constructor (lines 18-24), [pushFunctionToQueue] (lines
    31-43) and [pushPromiseToQueue] (lines 46-52) of
    [src/src/app/queue/asyncChainQueue.ts], and the callbacks the promise
    chain runs: the [then] callback of a step once its predecessor has
    settled ([start_step]), the [setTimeout] callback of a deferred task
    ([timer_step]) and the settlement of an asynchronous task's promise
    ([settle_step]).  [Event] lists everything that can happen to a
    queue (an API call or a callback), [exec] performs one, and [step] is
    the transition relation; [reachable] states are those a sequence of
    steps leads to from a constructed queue. *)

From stdpp Require Import base list.
From S2P Require Import Prelude Types Gate Tracker.

Module Chain.
Section Chain.
Context {TInput SOutput RArgs : Type}.
Abbreviation Queue := (Queue TInput SOutput RArgs).
Abbreviation Node := (Node TInput SOutput RArgs).
Implicit Types (q : Queue).

(** [constructor(initialValue, startQueueClosed)] (lines 18-24). *)
Definition new (initialValue : SOutput) (startQueueClosed : bool) : Queue :=
  let q := mkQueue [mkCell (NInit initialValue) (Fulfilled initialValue)]
             0 0 false [] [] 0 0 [] 0 in
  if startQueueClosed then Gate.closeQueue q else q.

(** [pushFunctionToQueue(knownArgs, createInputToTask, callback,
    timeoutInMS)] (lines 31-43). *)
Definition pushFunctionToQueue (knownArgs : RArgs)
    (createInputToTask : SOutput -> RArgs -> TInput)
    (callback : TInput -> option SOutput) (timeoutInMS : nat) q : Queue :=
  append_node (NFn knownArgs createInputToTask callback timeoutInMS)
    (set_queueLength (S (queueLength q)) q).

(** [pushPromiseToQueue(knownArgs, createInputToTask, promise)]
    (lines 46-52). *)
Definition pushPromiseToQueue (knownArgs : RArgs)
    (createInputToTask : SOutput -> RArgs -> TInput)
    (promise : TInput -> Outcome SOutput) q : Queue :=
  append_node (NAsync knownArgs createInputToTask promise)
    (set_queueLength (S (queueLength q)) q).

(** The [then] callback of cell [i], run once cell [i - 1] has
    settled: a deferred task registers its timer (line 36); an
    asynchronous task computes its input and calls its task (lines
    49-50); a barrier runs its check (lines 100-106).  After a
    rejection, an asynchronous step rejects in turn (the chained [then]s
    have no handler), while a deferred task or a barrier never settles
    (their outer [new Promise] is never resolved). *)
Definition start_step (i : nat) q : option Queue :=
  match i with
  | 0 => None
  | S j =>
      match pipe q !! i, status <$> pipe q !! j with
      | Some (mkCell n Pending), Some prev =>
          match n, prev with
          | NFn _ _ _ timeoutInMS, Fulfilled s =>
              Some (set_status i (TimerSet (now q + timeoutInMS) s) q)
          | NAsync knownArgs createInputToTask promise, Fulfilled s =>
              Some (set_status i (Awaiting (promise (createInputToTask s knownArgs))) q)
          | NBarrier closureNumber, Fulfilled s =>
              Some (Gate.barrier_reached i closureNumber s q)
          | NFn _ _ _ _, Rejected => Some (set_status i Hung q)
          | NAsync _ _ _, Rejected => Some (set_status i Rejected q)
          | NBarrier _, Rejected => Some (set_status i Hung q)
          | _, _ => None
          end
      | _, _ => None
      end
  end.

(** The [setTimeout] callback of the deferred task of cell [i] (lines
    36-40), once its due time has come: compute the input and the
    output, resolve, and register the completion (line 42).  A callback
    that throws leaves the promise unresolved. *)
Definition timer_step (i : nat) q : option Queue :=
  match pipe q !! i with
  | Some (mkCell (NFn knownArgs createInputToTask callback _) (TimerSet due s)) =>
      if due <=? now q then
        match callback (createInputToTask s knownArgs) with
        | Some output =>
            Some (Tracker.registerTaskCompletion (set_status i (Fulfilled output) q))
        | None => Some (set_status i Hung q)
        end
      else None
  | _ => None
  end.

(** The asynchronous task of cell [i] settles (lines 50-51): on
    fulfilment its completion is registered. *)
Definition settle_step (i : nat) q : option Queue :=
  match pipe q !! i with
  | Some (mkCell (NAsync _ _ _) (Awaiting (Fulfils v))) =>
      Some (Tracker.registerTaskCompletion (set_status i (Fulfilled v) q))
  | Some (mkCell (NAsync _ _ _) (Awaiting Rejects)) => Some (set_status i Rejected q)
  | _ => None
  end.

(** One millisecond passes. *)
Definition tick q : Queue := set_now (S (now q)) q.

(** ** Events and steps *)

Inductive Event :=
| EvPushFunction (knownArgs : RArgs) (createInputToTask : SOutput -> RArgs -> TInput)
    (callback : TInput -> option SOutput) (timeoutInMS : nat)
| EvPushPromise (knownArgs : RArgs) (createInputToTask : SOutput -> RArgs -> TInput)
    (promise : TInput -> Outcome SOutput)
| EvCloseAndGetResult
| EvDrainThenClose
| EvOpen
| EvStart (i : nat)
| EvTimer (i : nat)
| EvSettle (i : nat)
| EvTick.

Definition exec (e : Event) q : option Queue :=
  match e with
  | EvPushFunction a c f t => Some (pushFunctionToQueue a c f t q)
  | EvPushPromise a c p => Some (pushPromiseToQueue a c p q)
  | EvCloseAndGetResult => Some (Tracker.closeQueueAndGetFinalResult q).1
  | EvDrainThenClose => Some (Tracker.getFinalResultAndCloseWhenAllTasksComplete q).1
  | EvOpen => Some (Gate.openQueue q)
  | EvStart i => start_step i q
  | EvTimer i => timer_step i q
  | EvSettle i => settle_step i q
  | EvTick => Some (tick q)
  end.

Inductive step : Queue -> Queue -> Prop :=
| step_exec e q q' : exec e q = Some q' -> step q q'.

Definition reachable q : Prop :=
  exists initialValue startQueueClosed, star step (new initialValue startQueueClosed) q.

(** Run a list of events; [None] when one of them is not enabled. *)
Fixpoint run_events (es : list Event) q : option Queue :=
  match es with
  | [] => Some q
  | e :: es' => exec e q ≫= run_events es'
  end.

Lemma run_events_star es q q' : run_events es q = Some q' -> star step q q'.
Proof.
  revert q. induction es as [|e es IH]; intros q H; simpl in H.
  - injection H as ->. constructor.
  - destruct (exec e q) as [q1|] eqn:He; simpl in H; [| done].
    eapply star_step; [by econstructor | by apply IH].
Qed.

Lemma reachable_step q q' : reachable q -> step q q' -> reachable q'.
Proof. intros (v & b & Hs) Hst. exists v, b. by eapply star_snoc. Qed.

Lemma reachable_new v b : reachable (new v b).
Proof. exists v, b. constructor. Qed.
End Chain.
End Chain.
