(* ===== verification/App.v ===== *)
(** * The application component ([src/src/app/app.component.ts])

    [AppComponent] is the queue's client: the Task Producer and the
    Result Observer of the spec.  Its record [App] holds the component's
    fields (lines 24-38) and what the JavaScript runtime holds for it:
    - [asyncChainQueue]: the live queue; [discarded]: the queues that
      [reset] replaced, by generation (the queue of generation [g] is the
      one created when [resetCounter] became [g]).  A discarded queue is
      not garbage while its callbacks are registered, so it is kept.
    - [timers]: the [setTimeout] callbacks of [promiseToPushToQueue]
      (lines 154-159) that have not fired: each holds the [signalValue]
      and [newRunningTotal] it captured and the [resolve] of its promise,
      i.e. the cell of the queue that adopts it.
    - [observers]: the [.then(res => ...)] callbacks of the halting
      handlers (lines 115, 126), by the promise they wait on.
    - [clock]: the time of the event loop in milliseconds; the
      [interval(100)] of [ngOnInit] fires at its multiples of 100.

    The event loop runs a macrotask (a user action, a timer, a clock
    tick: [exec]) and then every microtask (the [then] callbacks of the
    promise chain and of the observers: [quiesce]) before the next one.
    The microtasks are run in a fixed order (queues by generation, then
    observers in registration order); the microtasks of one checkpoint
    touch disjoint state (a chain's own cells, the timers list at its
    end, the display fields), so the order does not change the state
    reached.  [quiesce] is given as fuel the number of microtasks that
    can still run ([micro_measure]), which is enough
    ([AppProofs.quiesce_quiescent_gen]). *)

From Stdlib Require Import ZArith.
From stdpp Require Import base list.
From S2P Require Import Prelude Types Gate Tracker Chain.

Module App.

(** [interface InputToTask] (lines 7-11). *)
Module InputToTask.
Record t := mk { runningTotal : Z; increment : Z; delayInMilliseconds : Z }.
End InputToTask.

(** [interface DataFromForm] (lines 13-16): the form's two controls. *)
Module DataFromForm.
Record t := mk { taskValue : Z; taskTimeInSeconds : Z }.
End DataFromForm.

(** [AsyncChainQueue<InputToTask, number, DataFromForm>] (line 38). *)
Abbreviation AQueue := (Queue InputToTask.t Z DataFromForm.t).
Abbreviation ACell := (Cell InputToTask.t Z DataFromForm.t).

(** [private tickPeriod = 100] (line 24). *)
Definition tickPeriod : nat := 100.

(** [createArgumentsForTask] (lines 141-147). *)
Definition createArgumentsForTask (outputFromLastStep : Z) (dataFromForm : DataFromForm.t)
    : InputToTask.t :=
  InputToTask.mk outputFromLastStep (DataFromForm.taskValue dataFromForm)
    (1000 * DataFromForm.taskTimeInSeconds dataFromForm).

(** [const newRunningTotal = args.runningTotal + args.increment]
    (line 153). *)
Definition newRunningTotal (args : InputToTask.t) : Z :=
  InputToTask.runningTotal args + InputToTask.increment args.

(** The promise [promiseToPushToQueue(args)] as the chain sees it: when
    its [resolve] is called (line 157) it fulfils with [newRunningTotal].
    Whether it is called is decided by the timer ([timer_fires]). *)
Definition task_promise (args : InputToTask.t) : Outcome Z := Fulfils (newRunningTotal args).

(** A pending [setTimeout] callback of [promiseToPushToQueue]. *)
Record Timer := mkTimer {
  timer_due : nat;
  signalValue : nat;
  timer_newRunningTotal : Z;
  timer_gen : nat;
  timer_cell : nat
}.

Inductive HaltKind := CloseThenFinish | FinishThenClose.

(** A pending [.then(res => ...)] of a halting handler, on the promise
    [obs_ret] returned by the queue of generation [obs_gen]. *)
Record Observer := mkObserver { obs_kind : HaltKind; obs_gen : nat; obs_ret : nat }.

Record App := mkApp {
  asyncChainQueue : AQueue;
  discarded : list AQueue;
  resetCounter : nat;
  elapsedTime : nat;
  runningTotal : Z;
  waitingToFinish : bool;
  finalMessageVisible : bool;
  isInInitialState : bool;
  lastTotal : Z;
  lastTimeCheck : nat;
  form : DataFromForm.t;
  clock : nat;
  timers : list Timer;
  observers : list Observer
}.

(** ** Field updates *)

Definition set_asyncChainQueue (v : AQueue) (a : App) : App :=
  mkApp v (discarded a) (resetCounter a) (elapsedTime a) (runningTotal a) (waitingToFinish a) (finalMessageVisible a) (isInInitialState a) (lastTotal a) (lastTimeCheck a) (form a) (clock a) (timers a) (observers a).

Definition set_discarded (v : list AQueue) (a : App) : App :=
  mkApp (asyncChainQueue a) v (resetCounter a) (elapsedTime a) (runningTotal a) (waitingToFinish a) (finalMessageVisible a) (isInInitialState a) (lastTotal a) (lastTimeCheck a) (form a) (clock a) (timers a) (observers a).

Definition set_resetCounter (v : nat) (a : App) : App :=
  mkApp (asyncChainQueue a) (discarded a) v (elapsedTime a) (runningTotal a) (waitingToFinish a) (finalMessageVisible a) (isInInitialState a) (lastTotal a) (lastTimeCheck a) (form a) (clock a) (timers a) (observers a).

Definition set_elapsedTime (v : nat) (a : App) : App :=
  mkApp (asyncChainQueue a) (discarded a) (resetCounter a) v (runningTotal a) (waitingToFinish a) (finalMessageVisible a) (isInInitialState a) (lastTotal a) (lastTimeCheck a) (form a) (clock a) (timers a) (observers a).

Definition set_runningTotal (v : Z) (a : App) : App :=
  mkApp (asyncChainQueue a) (discarded a) (resetCounter a) (elapsedTime a) v (waitingToFinish a) (finalMessageVisible a) (isInInitialState a) (lastTotal a) (lastTimeCheck a) (form a) (clock a) (timers a) (observers a).

Definition set_waitingToFinish (v : bool) (a : App) : App :=
  mkApp (asyncChainQueue a) (discarded a) (resetCounter a) (elapsedTime a) (runningTotal a) v (finalMessageVisible a) (isInInitialState a) (lastTotal a) (lastTimeCheck a) (form a) (clock a) (timers a) (observers a).

Definition set_finalMessageVisible (v : bool) (a : App) : App :=
  mkApp (asyncChainQueue a) (discarded a) (resetCounter a) (elapsedTime a) (runningTotal a) (waitingToFinish a) v (isInInitialState a) (lastTotal a) (lastTimeCheck a) (form a) (clock a) (timers a) (observers a).

Definition set_isInInitialState (v : bool) (a : App) : App :=
  mkApp (asyncChainQueue a) (discarded a) (resetCounter a) (elapsedTime a) (runningTotal a) (waitingToFinish a) (finalMessageVisible a) v (lastTotal a) (lastTimeCheck a) (form a) (clock a) (timers a) (observers a).

Definition set_lastTotal (v : Z) (a : App) : App :=
  mkApp (asyncChainQueue a) (discarded a) (resetCounter a) (elapsedTime a) (runningTotal a) (waitingToFinish a) (finalMessageVisible a) (isInInitialState a) v (lastTimeCheck a) (form a) (clock a) (timers a) (observers a).

Definition set_lastTimeCheck (v : nat) (a : App) : App :=
  mkApp (asyncChainQueue a) (discarded a) (resetCounter a) (elapsedTime a) (runningTotal a) (waitingToFinish a) (finalMessageVisible a) (isInInitialState a) (lastTotal a) v (form a) (clock a) (timers a) (observers a).

Definition set_form (v : DataFromForm.t) (a : App) : App :=
  mkApp (asyncChainQueue a) (discarded a) (resetCounter a) (elapsedTime a) (runningTotal a) (waitingToFinish a) (finalMessageVisible a) (isInInitialState a) (lastTotal a) (lastTimeCheck a) v (clock a) (timers a) (observers a).

Definition set_clock (v : nat) (a : App) : App :=
  mkApp (asyncChainQueue a) (discarded a) (resetCounter a) (elapsedTime a) (runningTotal a) (waitingToFinish a) (finalMessageVisible a) (isInInitialState a) (lastTotal a) (lastTimeCheck a) (form a) v (timers a) (observers a).

Definition set_timers (v : list Timer) (a : App) : App :=
  mkApp (asyncChainQueue a) (discarded a) (resetCounter a) (elapsedTime a) (runningTotal a) (waitingToFinish a) (finalMessageVisible a) (isInInitialState a) (lastTotal a) (lastTimeCheck a) (form a) (clock a) v (observers a).

Definition set_observers (v : list Observer) (a : App) : App :=
  mkApp (asyncChainQueue a) (discarded a) (resetCounter a) (elapsedTime a) (runningTotal a) (waitingToFinish a) (finalMessageVisible a) (isInInitialState a) (lastTotal a) (lastTimeCheck a) (form a) (clock a) (timers a) v.
(** ** The queues by generation *)

(** All queues, oldest first: [discarded] and then the live one.  The
    generation of a queue is its position here. *)
Definition all_queues (a : App) : list AQueue := discarded a ++ [asyncChainQueue a].

(** The generation of the live queue. *)
Definition live_gen (a : App) : nat := length (discarded a).

Definition queue_of (a : App) (g : nat) : option AQueue := all_queues a !! g.

Definition update_queue (g : nat) (f : AQueue -> AQueue) (a : App) : App :=
  if g =? live_gen a then set_asyncChainQueue (f (asyncChainQueue a)) a
  else set_discarded (alter f g (discarded a)) a.

(** ** The component's methods *)

(** The constructor (lines 40-51), with the form's initial values
    (lines 42-43) and [ngOnInit]'s subscription started at time 0. *)
Definition init : App :=
  mkApp (Chain.new 0%Z false) [] 0 0 0%Z false false true 0%Z 0 (DataFromForm.mk 1 4) 0 [] [].

(** [parseFloat(this.Clock)] (lines 119, 130) in tenths of a second:
    [AppView.v] models the text [(0.001 * elapsedTime).toFixed(1)] and
    [parseFloat], and shows that they give this value, [elapsedTime]
    being a multiple of [tickPeriod]. *)
Definition Clock (a : App) : nat := elapsedTime a / tickPeriod.

(** [reset()] (lines 92-100). *)
Definition reset (a : App) : App :=
  mkApp (Chain.new 0%Z false) (discarded a ++ [asyncChainQueue a]) (S (resetCounter a))
    0 0%Z false false true (lastTotal a) (lastTimeCheck a) (form a) (clock a)
    (timers a) (observers a).

(** [onSubmit()] (lines 102-105): the form's values become the task's
    known arguments. *)
Definition onSubmit (a : App) : App :=
  set_asyncChainQueue
    (Chain.pushPromiseToQueue (form a) createArgumentsForTask task_promise (asyncChainQueue a)) a.

(** [halt_closeThenFinish()] (lines 114-122): close, and register the
    callback on the returned promise. *)
Definition halt_closeThenFinish (a : App) : App :=
  let (q, r) := Tracker.closeQueueAndGetFinalResult (asyncChainQueue a) in
  set_observers (observers a ++ [mkObserver CloseThenFinish (live_gen a) r])
    (set_asyncChainQueue q a).

(** [halt_finishThenClose()] (lines 124-133). *)
Definition halt_finishThenClose (a : App) : App :=
  let a1 := set_waitingToFinish true a in
  let (q, r) := Tracker.getFinalResultAndCloseWhenAllTasksComplete (asyncChainQueue a1) in
  set_observers (observers a1 ++ [mkObserver FinishThenClose (live_gen a1) r])
    (set_asyncChainQueue q a1).

(** [openQueue()] (lines 135-139). *)
Definition openQueue (a : App) : App :=
  set_asyncChainQueue (Gate.openQueue (asyncChainQueue a))
    (set_waitingToFinish false (set_finalMessageVisible false a)).

(** The body of an observer (lines 117-120 and 127-131); [this] is the
    component, so [IsClosed] is read from the live queue. *)
Definition observer_callback (k : HaltKind) (a : App) : App :=
  let a1 := match k with FinishThenClose => set_waitingToFinish false a | CloseThenFinish => a end in
  let a2 := set_lastTimeCheck (Clock a1)
              (set_lastTotal (runningTotal a1) (set_isInInitialState false a1)) in
  set_finalMessageVisible (Gate.IsClosed (asyncChainQueue a2)) a2.

(** [promiseToPushToQueue(args)] (lines 149-161), run for the cell [i] of
    the queue of generation [g]: capture [signalValue] and
    [newRunningTotal] and register the timer. *)
Definition promiseToPushToQueue (args : InputToTask.t) (g i : nat) (a : App) : App :=
  let signalValue := resetCounter a in
  let due := clock a + Z.to_nat (InputToTask.delayInMilliseconds args) in
  set_timers (timers a ++ [mkTimer due signalValue (newRunningTotal args) g i]) a.

(** The timer [k] fires (lines 154-159): if no [reset] has happened
    since it was registered, publish the total and resolve the task's
    promise, which registers the completion in its queue (line 51). *)
Definition timer_fires (k : nat) (a : App) : option App :=
  match timers a !! k with
  | Some t =>
      if timer_due t <=? clock a then
        let a1 := set_timers (delete k (timers a)) a in
        if resetCounter a =? signalValue t then
          let a2 := set_runningTotal (timer_newRunningTotal t) a1 in
          Some (update_queue (timer_gen t)
                  (fun q => default q (Chain.settle_step (timer_cell t) q)) a2)
        else Some a1
      else None
  | None => None
  end.

(** One millisecond passes; [interval(tickPeriod)] filtered by
    [!this.ShowFinalMessage] advances [elapsedTime] (lines 54-57). *)
Definition tick (a : App) : App :=
  let c := S (clock a) in
  let a1 := set_clock c a in
  if (c mod tickPeriod =? 0) && negb (finalMessageVisible a1)
  then set_elapsedTime (elapsedTime a1 + tickPeriod) a1 else a1.

(** ** Microtasks *)

(** The [then] callback of cell [i] of the queue of generation [g]
    ([Chain.start_step]); when the step is an asynchronous task, its
    [promise(input)] (line 50) is [promiseToPushToQueue] applied to the
    input [createInputToTask(s, knownArgs)] (line 49). *)
Definition start_task (g i : nat) (a : App) : App :=
  match queue_of a g with
  | Some q =>
      match Chain.start_step i q with
      | Some q' =>
          let a1 := update_queue g (fun _ => q') a in
          match pipe q !! i, status_at q (pred i) with
          | Some (mkCell (NAsync knownArgs createInputToTask _) _), Some (Fulfilled s) =>
              promiseToPushToQueue (createInputToTask s knownArgs) g i a1
          | _, _ => a1
          end
      | None => a
      end
  | None => a
  end.

Definition is_pending (c : ACell) : bool := match status c with Pending => true | _ => false end.

(** The first cell of a chain whose [then] callback is queued: it has
    not started and its predecessor has settled. *)
Definition queue_startable (q : AQueue) : option nat :=
  S ∘ fst <$> list_find (fun cc => is_settled (status cc.1) && is_pending cc.2 = true)
                (zip (pipe q) (drop 1 (pipe q))).

(** The first queue with a queued [then] callback, by generation. *)
Definition first_start (a : App) : option (nat * nat) :=
  match list_find (fun q => is_Some (queue_startable q)) (all_queues a) with
  | Some (g, q) => pair g <$> queue_startable q
  | None => None
  end.

(** An observer runs once the promise it waits on is fulfilled (the
    [then]s have no rejection handler). *)
Definition observer_ready (a : App) (o : Observer) : bool :=
  match queue_of a (obs_gen o) with
  | Some q => is_fulfilled (Tracker.ret_status q (obs_ret o))
  | None => false
  end.

Definition first_observer (a : App) : option nat :=
  fst <$> list_find (fun o => observer_ready a o = true) (observers a).

Inductive Micro := MStart (g i : nat) | MObserve (k : nat).

Definition next_micro (a : App) : option Micro :=
  match first_start a with
  | Some (g, i) => Some (MStart g i)
  | None => MObserve <$> first_observer a
  end.

Definition run_micro (m : Micro) (a : App) : App :=
  match m with
  | MStart g i => start_task g i a
  | MObserve k =>
      match observers a !! k with
      | Some o => observer_callback (obs_kind o) (set_observers (delete k (observers a)) a)
      | None => a
      end
  end.

Fixpoint quiesce (fuel : nat) (a : App) : App :=
  match fuel with
  | 0 => a
  | S fuel' =>
      match next_micro a with
      | Some m => quiesce fuel' (run_micro m a)
      | None => a
      end
  end.

(** The microtasks that can still run: a [then] callback for each step
    that has not started, and each observer. *)
Definition micro_measure (a : App) : nat :=
  sum_list_with (fun q => countb is_pending (pipe q)) (all_queues a) + length (observers a).

(** ** Macrotasks and the step relation *)

Inductive Event :=
| EReset
| ESubmit
| EHaltCloseThenFinish
| EHaltFinishThenClose
| EOpenQueue
| EForm (d : DataFromForm.t)
| ETimer (k : nat)
| ETick.

Definition exec (e : Event) (a : App) : option App :=
  match e with
  | EReset => Some (reset a)
  | ESubmit => Some (onSubmit a)
  | EHaltCloseThenFinish => Some (halt_closeThenFinish a)
  | EHaltFinishThenClose => Some (halt_finishThenClose a)
  | EOpenQueue => Some (openQueue a)
  | EForm d => Some (set_form d a)
  | ETimer k => timer_fires k a
  | ETick => Some (tick a)
  end.

(** A macrotask and the microtasks it queues. *)
Definition app_step (e : Event) (a : App) : option App :=
  (fun a1 => quiesce (micro_measure a1) a1) <$> exec e a.

Inductive step : App -> App -> Prop :=
| step_exec e a a' : app_step e a = Some a' -> step a a'.

Definition reachable (a : App) : Prop := star step init a.

Fixpoint run_events (es : list Event) (a : App) : option App :=
  match es with
  | [] => Some a
  | e :: es' => app_step e a ≫= run_events es'
  end.
End App.
