(* ===== verification/Invariants.v ===== *)
(** * The invariant of a reachable queue

    [step_ok n prev st] says what state [st] the promise of a step [n] can
    be in when its predecessor is in state [prev]: it is the local
    contract of the chain (a step starts only once its predecessor has
    settled, and each result is the step's function of the predecessor's
    value).  [chain_ok] asks it of every adjacent pair of cells.  [inv]
    adds the counters: [queueLength], [tasksComplete] and
    [numberOfClosures] are counts over the chain, barrier [k] is the
    [k]-th barrier, at most one opening is banked ahead of the closures,
    and a barrier waits on the signal only while its closure has not been
    opened and while it is subscribed.  This file proves that [chain_ok]
    survives the three ways the chain changes (appending a step, changing
    the state of a step that has not settled, and the open signal). *)

From stdpp Require Import base list sets.
From S2P Require Import Prelude Types Gate Tracker Chain.

Section StepOk.
Context {TInput SOutput RArgs : Type}.
Abbreviation Node := (Node TInput SOutput RArgs).
Abbreviation Cell := (Cell TInput SOutput RArgs).
Abbreviation Queue := (Queue TInput SOutput RArgs).

Definition step_ok (n : Node) (prev st : Status SOutput) : Prop :=
  match st, n with
  | Pending, _ => True
  | TimerSet _ s, NFn _ _ _ _ => prev = Fulfilled s
  | Awaiting o, NAsync a ci pr => exists s, prev = Fulfilled s /\ o = pr (ci s a)
  | Subscribed s, NBarrier _ => prev = Fulfilled s
  | Fulfilled v, NFn a ci cb _ => exists s, prev = Fulfilled s /\ cb (ci s a) = Some v
  | Fulfilled v, NAsync a ci pr => exists s, prev = Fulfilled s /\ pr (ci s a) = Fulfils v
  | Fulfilled v, NBarrier _ => prev = Fulfilled v
  | Rejected, NAsync a ci pr =>
      prev = Rejected \/ exists s, prev = Fulfilled s /\ pr (ci s a) = Rejects
  | Hung, NFn a ci cb _ =>
      prev = Rejected \/ exists s, prev = Fulfilled s /\ cb (ci s a) = None
  | Hung, NBarrier _ => prev = Rejected
  | _, _ => False
  end.

Definition chain_ok (p : list Cell) : Prop :=
  forall i c c', p !! S i = Some c -> p !! i = Some c' -> step_ok (node c) (status c') (status c).

(** The nodes of the chain, which only ever grow at the end. *)
Definition nodes (q : Queue) : list Node := node <$> pipe q.

Record inv (q : Queue) : Prop := {
  inv_init : exists v, pipe q !! 0 = Some (mkCell (NInit v) (Fulfilled v));
  inv_chain : chain_ok (pipe q);
  inv_queueLength : queueLength q = countb is_task (nodes q);
  inv_tasksComplete : tasksComplete q = countb task_done (pipe q);
  inv_closures : numberOfClosures q = countb is_barrier (nodes q);
  inv_barrier_number : forall i k,
    nodes q !! i = Some (NBarrier k) -> k = countb is_barrier (take (S i) (nodes q));
  inv_openings : numberOfOpenings q <= S (numberOfClosures q);
  inv_subscribed : forall i c s,
    pipe q !! i = Some c -> status c = Subscribed s ->
    (exists k, node c = NBarrier k /\ numberOfOpenings q < k) /\ i ∈ openSubs q
}.

(** ** The local contract *)

Lemma step_ok_pending n prev st :
  step_ok n prev st -> is_settled prev = false -> st = Pending.
Proof.
  destruct st, n; simpl; intros H Hp; try done;
    repeat match goal with
    | H : _ \/ _ |- _ => destruct H
    | H : exists _, _ |- _ => destruct H
    | H : _ /\ _ |- _ => destruct H
    end; by subst.
Qed.

(** Only a fulfilled promise is followed by a fulfilled one. *)
Lemma step_ok_fulfilled n prev v :
  step_ok n prev (Fulfilled v) -> is_fulfilled prev = true.
Proof. destruct n; simpl; [done | intros (? & -> & _) | intros (? & -> & _) | intros ->]; done. Qed.

(** The successor of a promise that has not settled has not started. *)
Lemma chain_ok_next_pending p i c c' :
  chain_ok p -> p !! i = Some c -> is_settled (status c) = false ->
  p !! S i = Some c' -> status c' = Pending.
Proof. intros Hok Hi Hns Hsi. exact (step_ok_pending _ _ _ (Hok _ _ _ Hsi Hi) Hns). Qed.

Lemma chain_ok_snoc p n :
  chain_ok p -> chain_ok (p ++ [mkCell n Pending]).
Proof.
  intros Hok i c c' Hsi Hi. apply lookup_snoc_Some in Hsi as [[Hlt Hsi] | [Heq <-]].
  - rewrite lookup_snoc_lt in Hi by lia. eauto.
  - done.
Qed.

(** Changing the state of a promise that has not settled, to a state
    its step allows after its predecessor. *)
Lemma chain_ok_insert p i c st :
  chain_ok p -> p !! i = Some c -> is_settled (status c) = false ->
  (forall j c', i = S j -> p !! j = Some c' -> step_ok (node c) (status c') st) ->
  chain_ok (<[i := mkCell (node c) st]> p).
Proof.
  intros Hok Hi Hns Hst j d d' Hsj Hj.
  assert (Hlt : i < length p) by (eapply lookup_lt_Some; eauto).
  destruct (decide (S j = i)) as [<-|Hne1].
  - rewrite list_lookup_insert_eq in Hsj by done. injection Hsj as <-.
    rewrite list_lookup_insert_ne in Hj by lia. simpl. eauto.
  - rewrite list_lookup_insert_ne in Hsj by done.
    destruct (decide (j = i)) as [->|Hne2].
    + rewrite (chain_ok_next_pending p i c d) by done. done.
    + rewrite list_lookup_insert_ne in Hj by done. eauto.
Qed.

(** The open signal releases waiting barriers with the value they
    captured, which is their predecessor's. *)
Lemma chain_ok_release_all subs p : chain_ok p -> chain_ok (Gate.release_all subs p).
Proof.
  intros Hok j d d' Hsj Hj. rewrite Gate.lookup_release_all in Hsj, Hj.
  assert (Hrel : forall k x, (if decide (k ∈ subs) then Gate.release_cell <$> p !! k else p !! k) = Some x ->
                 exists y, p !! k = Some y /\ (x = y \/ x = Gate.release_cell y)).
  { intros k x Hk. case_decide; [| eauto].
    destruct (p !! k) as [y|]; simpl in Hk; [injection Hk as <-; eauto | done]. }
  destruct (Hrel _ _ Hsj) as (e & He & Hde). destruct (Hrel _ _ Hj) as (e' & He' & Hde').
  pose proof (Hok _ _ _ He He') as Hse.
  assert (Hd' : status d' = status e' \/ is_settled (status e') = false).
  { destruct Hde' as [-> | ->]; [by left | destruct e' as [? []]; simpl; first [by left | by right]]. }
  destruct Hd' as [-> | Hns].
  - destruct Hde as [-> | ->]; [done |]. destruct e as [[] []]; simpl in *; done.
  - pose proof (step_ok_pending _ _ _ Hse Hns) as Hp.
    destruct Hde as [-> | ->]; destruct e as [n st]; simpl in *; by subst st.
Qed.

(** ** The node list *)

Lemma nodes_set_status q i st : nodes (set_status i st q) = nodes q.
Proof.
  unfold nodes, set_status. destruct (pipe q !! i) as [c|] eqn:Hi; [| done]. simpl.
  rewrite list_fmap_insert. simpl. by apply list_insert_id; rewrite list_lookup_fmap, Hi.
Qed.

Lemma nodes_release_all subs (p : list Cell) : node <$> Gate.release_all subs p = node <$> p.
Proof.
  apply list_eq. intros j. rewrite !list_lookup_fmap, Gate.lookup_release_all.
  case_decide; [| done]. destruct (p !! j); simpl; [by rewrite Gate.node_release_cell | done].
Qed.

Lemma nodes_append q n : nodes (append_node n q) = nodes q ++ [n].
Proof. unfold nodes. simpl. by rewrite fmap_app. Qed.
End StepOk.

#[export] Hint Resolve chain_ok_snoc chain_ok_release_all : queue.
#[export] Hint Rewrite @nodes_set_status @nodes_append : queue_rw.
