(* ===== verification/Reachable.v ===== *)
(** * Every reachable queue satisfies [inv]

    One lemma per primitive of the model (appending a task, [closeQueue],
    [openQueue], a change of state of one promise, the barrier's check,
    [registerTaskCompletion] with the drain waiters it fires), then one
    per kind of event, and the induction over the steps
    ([reachable_inv]). *)

From stdpp Require Import base list sets.
From S2P Require Import Prelude Types Gate Tracker Chain Invariants.

Section Reachable.
Context {TInput SOutput RArgs : Type}.
Abbreviation Node := (Node TInput SOutput RArgs).
Abbreviation Cell := (Cell TInput SOutput RArgs).
Abbreviation Queue := (Queue TInput SOutput RArgs).
Implicit Types (q : Queue).

(** [inv] reads only the chain, the counters and [openSubs]. *)
Lemma inv_fields q q' :
  pipe q' = pipe q -> queueLength q' = queueLength q -> tasksComplete q' = tasksComplete q ->
  numberOfClosures q' = numberOfClosures q -> numberOfOpenings q' = numberOfOpenings q ->
  openSubs q' = openSubs q -> inv q -> inv q'.
Proof.
  intros Hp Hl Ht Hc Ho Hs [Hi Hch Hql Htc Hcl Hbn Hop Hsub].
  split; unfold nodes in *; rewrite ?Hp, ?Hl, ?Ht, ?Hc, ?Ho, ?Hs; done.
Qed.

Lemma inv_set_rets q l : inv q -> inv (set_rets l q).
Proof. by apply inv_fields. Qed.
Lemma inv_set_drainSubs q l : inv q -> inv (set_drainSubs l q).
Proof. by apply inv_fields. Qed.
Lemma inv_set_queueIsClosed q b : inv q -> inv (set_queueIsClosed b q).
Proof. by apply inv_fields. Qed.
Lemma inv_set_now q n : inv q -> inv (set_now n q).
Proof. by apply inv_fields. Qed.

Lemma take_snoc_le {A} (l : list A) x n : n <= length l -> take n (l ++ [x]) = take n l.
Proof. intros H. by apply take_app_le. Qed.

Lemma lookup_init_snoc q (x : Cell) v :
  pipe q !! 0 = Some (mkCell (NInit v) (Fulfilled v)) ->
  (pipe q ++ [x]) !! 0 = Some (mkCell (NInit v) (Fulfilled v)).
Proof. intros H. rewrite lookup_app_l; [done | by eapply lookup_lt_Some]. Qed.

(** Appending a step leaves the numbers of the earlier barriers. *)
Lemma barrier_number_snoc q n :
  (forall i k, nodes q !! i = Some (NBarrier k) -> k = countb is_barrier (take (S i) (nodes q))) ->
  (forall k, n = NBarrier k -> k = S (countb is_barrier (nodes q))) ->
  forall i k, (nodes q ++ [n]) !! i = Some (NBarrier k) ->
    k = countb is_barrier (take (S i) (nodes q ++ [n])).
Proof.
  intros Hbn Hn i k Hik. apply lookup_snoc_Some in Hik as [[Hlt Hik] | [-> Heq]].
  - rewrite take_snoc_le by lia. by apply Hbn.
  - rewrite take_ge by (rewrite length_app; simpl; lia).
    subst n. pose proof (Hn k eq_refl). rewrite countb_snoc. simpl. lia.
Qed.

Lemma inv_push q n :
  inv q -> is_task n = true ->
  inv (append_node n (set_queueLength (S (queueLength q)) q)).
Proof.
  intros [[v Hi] Hch Hql Htc Hcl Hbn Hop Hsub] Ht.
  assert (Hb : is_barrier n = false) by (destruct n; done).
  split; rewrite ?nodes_append; simpl; rewrite ?countb_snoc.
  - exists v. by apply lookup_init_snoc.
  - by apply chain_ok_snoc.
  - rewrite Ht. unfold nodes in *. simpl. lia.
  - rewrite (task_done_unfulfilled (mkCell n Pending)) by done. lia.
  - rewrite Hb. unfold nodes in *. simpl. lia.
  - apply barrier_number_snoc; [done | by intros k ->].
  - done.
  - intros i c s Hic Hs. apply lookup_snoc_Some in Hic as [[Hlt Hic] | [_ <-]]; [by eapply Hsub | done].
Qed.

(** [closeQueue] on an open queue appends barrier number
    [numberOfClosures + 1], which is the number of barriers so far. *)
Lemma inv_closeQueue q : inv q -> inv (Gate.closeQueue q).
Proof.
  intros HI. destruct (queueIsClosed q) eqn:Hc; [by rewrite Gate.closeQueue_closed |].
  rewrite Gate.closeQueue_open by done. apply inv_set_queueIsClosed.
  destruct HI as [[v Hi] Hch Hql Htc Hcl Hbn Hop Hsub].
  split; rewrite ?nodes_append; simpl; rewrite ?countb_snoc.
  - exists v. by apply lookup_init_snoc.
  - by apply chain_ok_snoc.
  - unfold nodes in *. simpl. lia.
  - rewrite (task_done_unfulfilled (mkCell _ Pending)) by done. lia.
  - unfold nodes in *. simpl. lia.
  - apply barrier_number_snoc; [done | intros k [= <-]]. unfold nodes in *. simpl. lia.
  - lia.
  - intros i c s Hic Hs. apply lookup_snoc_Some in Hic as [[Hlt Hic] | [_ <-]]; [by eapply Hsub | done].
Qed.

(** The open signal leaves no barrier waiting, since every waiting
    barrier is subscribed. *)
Lemma release_all_no_subscribed subs (p : list Cell) :
  (forall i c s, p !! i = Some c -> status c = Subscribed s -> i ∈ subs) ->
  forall i c s, Gate.release_all subs p !! i = Some c -> status c <> Subscribed s.
Proof.
  intros Hsub i c s Hi Hs. rewrite Gate.lookup_release_all in Hi.
  case_decide as Hin.
  - destruct (p !! i) as [[n st]|]; simpl in Hi; [| done]. injection Hi as <-.
    destruct st; simpl in Hs; done.
  - exact (Hin (Hsub i c s Hi Hs)).
Qed.

(** [openQueue]: the guard keeps at most one opening ahead of the
    closures, and every waiting barrier is released. *)
Lemma inv_signal_open q q1 :
  inv q -> pipe q1 = pipe q -> openSubs q1 = openSubs q ->
  queueLength q1 = queueLength q -> tasksComplete q1 = tasksComplete q ->
  numberOfClosures q1 = numberOfClosures q ->
  numberOfOpenings q1 <= S (numberOfClosures q) ->
  inv (Gate.signal_open q1).
Proof.
  intros [[v Hi] Hch Hql Htc Hcl Hbn Hop Hsub] Hp Hs Hl Ht Hc Ho.
  unfold Gate.signal_open. rewrite Hp, Hs.
  split; unfold nodes in *; simpl; rewrite ?nodes_release_all, ?Hl, ?Ht, ?Hc; try done.
  - exists v. rewrite Gate.lookup_release_all, Hi. by case_decide.
  - by apply chain_ok_release_all.
  - rewrite Htc. apply countb_lookup_ext; [by rewrite Gate.length_release_all |].
    intros j x y Hx Hy. rewrite Gate.lookup_release_all, Hx in Hy.
    case_decide; simpl in Hy; injection Hy as <-; [| done].
    destruct x as [n []]; try done. simpl.
    destruct (Hsub j _ s Hx eq_refl) as [[k [Hk _]] _]. simpl in Hk. by subst n.
  - intros i c s Hic Hcs. exfalso.
    refine (release_all_no_subscribed _ _ _ i c s Hic Hcs).
    intros j d t Hj Ht'. by apply (proj2 (Hsub j d t Hj Ht')).
Qed.
Lemma inv_openQueue q : inv q -> inv (Gate.openQueue q).
Proof.
  intros HI. pose proof (inv_openings q HI) as Hop.
  unfold Gate.openQueue. apply inv_set_queueIsClosed.
  destruct (Nat.leb_spec (numberOfOpenings q) (numberOfClosures q));
    (eapply inv_signal_open; [exact HI | done..|]); simpl; lia.
Qed.

(** ** Changing the state of one promise *)

Lemma set_status_some q i c st :
  pipe q !! i = Some c -> set_status i st q = set_pipe (<[i := mkCell (node c) st]> (pipe q)) q.
Proof. intros H. unfold set_status. by rewrite H. Qed.

Lemma fmap_node_insert (p : list Cell) i c st :
  p !! i = Some c -> node <$> <[i := mkCell (node c) st]> p = node <$> p.
Proof.
  intros H. rewrite list_fmap_insert. simpl. apply list_insert_id.
  by rewrite list_lookup_fmap, H.
Qed.

(** A promise that has not settled moves to a state its step allows
    after its predecessor; [tasksComplete] is set to [t], which accounts
    for a task that this change completes. *)
Lemma inv_set_status q i c st t :
  inv q -> pipe q !! i = Some c -> is_settled (status c) = false ->
  (forall j c', i = S j -> pipe q !! j = Some c' -> step_ok (node c) (status c') st) ->
  t = tasksComplete q + (if task_done (mkCell (node c) st) then 1 else 0) ->
  (forall s, st = Subscribed s -> (exists k, node c = NBarrier k /\ numberOfOpenings q < k) /\ i ∈ openSubs q) ->
  inv (set_tasksComplete t (set_status i st q)).
Proof.
  intros [[v H0] Hch Hql Htc Hcl Hbn Hop Hsub] Hi Hns Hst Ht Hsb.
  assert (Hne : i <> 0) by (intros ->; rewrite H0 in Hi; injection Hi as <-; done).
  assert (Hdone : task_done c = false) by (apply task_done_unfulfilled; by destruct (status c)).
  rewrite (set_status_some q i c st Hi).
  split; unfold nodes in *; simpl; rewrite ?(fmap_node_insert _ _ _ _ Hi); try done.
  - exists v. by rewrite list_lookup_insert_ne.
  - by apply chain_ok_insert.
  - pose proof (countb_insert task_done (pipe q) i (mkCell (node c) st) c Hi). rewrite Hdone in H. lia.
  - intros j d s Hj Hs. destruct (decide (i = j)) as [<-|Hij].
    + rewrite list_lookup_insert_eq in Hj by (eapply lookup_lt_Some; eauto).
      injection Hj as <-. simpl in *. exact (Hsb s Hs).
    + rewrite list_lookup_insert_ne in Hj by done. by eapply Hsub.
Qed.

Lemma set_tasksComplete_id q : set_tasksComplete (tasksComplete q) q = q.
Proof. by destruct q. Qed.

Lemma tasksComplete_set_status q i st : tasksComplete (set_status i st q) = tasksComplete q.
Proof. unfold set_status. by destruct (pipe q !! i). Qed.

(** The state change does not complete a task. *)
Lemma inv_set_status_same q i c st :
  inv q -> pipe q !! i = Some c -> is_settled (status c) = false ->
  (forall j c', i = S j -> pipe q !! j = Some c' -> step_ok (node c) (status c') st) ->
  task_done (mkCell (node c) st) = false ->
  (forall s, st = Subscribed s -> (exists k, node c = NBarrier k /\ numberOfOpenings q < k) /\ i ∈ openSubs q) ->
  inv (set_status i st q).
Proof.
  intros HI Hi Hns Hst Hd Hsb.
  rewrite <- (set_tasksComplete_id (set_status i st q)), tasksComplete_set_status.
  eapply inv_set_status; eauto. rewrite Hd. lia.
Qed.

(** [registerTaskCompletion]: the drain waiters it fires close the queue
    and set returned promises, which keeps [inv]. *)
Lemma inv_emit q : inv q -> inv (Tracker.emit_taskComplete q).
Proof.
  intros HI. unfold Tracker.emit_taskComplete. case_match; [| done].
  apply inv_set_drainSubs. revert HI. apply fold_left_inv.
  intros a r Ha. unfold Tracker.drain_fire. by apply inv_set_rets, inv_closeQueue.
Qed.

Lemma inv_complete q i c v :
  inv q -> pipe q !! i = Some c -> is_task (node c) = true -> is_settled (status c) = false ->
  (forall j c', i = S j -> pipe q !! j = Some c' -> step_ok (node c) (status c') (Fulfilled v)) ->
  inv (Tracker.registerTaskCompletion (set_status i (Fulfilled v) q)).
Proof.
  intros HI Hi Ht Hns Hst. apply inv_emit.
  rewrite tasksComplete_set_status. eapply inv_set_status; eauto.
  - unfold task_done. simpl. rewrite Ht. simpl. lia.
  - done.
Qed.
(** ** The barrier's check *)

Lemma set_openSubs_set_status q l i st :
  set_openSubs l (set_status i st q) = set_status i st (set_openSubs l q).
Proof. unfold set_status. simpl. by destruct (pipe q !! i). Qed.

Lemma inv_set_openSubs_app q l : inv q -> inv (set_openSubs (openSubs q ++ l) q).
Proof.
  intros [Hi Hch Hql Htc Hcl Hbn Hop Hsub]. split; simpl; try done.
  intros i c s Hic Hs. destruct (Hsub i c s Hic Hs) as [Hk Hin].
  split; [done | apply elem_of_app; by left].
Qed.

Lemma inv_barrier_reached q j k s c' :
  inv q -> pipe q !! S j = Some (mkCell (NBarrier k) Pending) -> pipe q !! j = Some c' ->
  status c' = Fulfilled s -> inv (Gate.barrier_reached (S j) k s q).
Proof.
  intros HI Hi Hj Hs. unfold Gate.barrier_reached. rewrite set_openSubs_set_status.
  pose proof (inv_set_openSubs_app q [S j] HI) as HI'.
  assert (Hprev : forall st, (st = Fulfilled s \/ st = Subscribed s) ->
            forall j0 d, S j = S j0 -> pipe (set_openSubs (openSubs q ++ [S j]) q) !! j0 = Some d ->
            step_ok (node (mkCell (NBarrier k) Pending : Cell)) (status d) st).
  { intros st Hst j0 d [= <-] Hd. simpl in Hd. rewrite Hj in Hd. injection Hd as <-.
    rewrite Hs. by destruct Hst as [-> | ->]. }
  destruct (Nat.leb_spec k (numberOfOpenings q)) as [Hle|Hgt].
  - eapply inv_set_status_same; [exact HI' | exact Hi | done | by apply Hprev; left | done |].
    intros ? [=].
  - eapply inv_set_status_same; [exact HI' | exact Hi | done | by apply Hprev; right | done |].
    intros ? _. split; [by exists k | apply elem_of_app; right; by apply list_elem_of_singleton].
Qed.

(** ** The callbacks of the chain *)

Lemma inv_start_step q i q' : inv q -> Chain.start_step i q = Some q' -> inv q'.
Proof.
  intros HI H. unfold Chain.start_step in H. destruct i as [|j]; [done |].
  destruct (pipe q !! S j) as [[n st]|] eqn:Hi; [| done]. destruct st; try done.
  destruct (pipe q !! j) as [[n' st']|] eqn:Hj; simpl in H; [| done].
  assert (Hprev : forall st, step_ok n st' st ->
            forall j0 d, S j = S j0 -> pipe q !! j0 = Some d -> step_ok (node (mkCell n Pending : Cell)) (status d) st).
  { intros st Hst j0 d [= <-] Hd. rewrite Hj in Hd. by injection Hd as <-. }
  destruct n, st'; try done; injection H as <-;
    try (eapply inv_set_status_same;
         [exact HI | exact Hi | done | apply Hprev; simpl; eauto | done | intros ? [=]]).
  by eapply inv_barrier_reached.
Qed.

Lemma inv_timer_step q i q' : inv q -> Chain.timer_step i q = Some q' -> inv q'.
Proof.
  intros HI H. unfold Chain.timer_step in H.
  destruct (pipe q !! i) as [[n st]|] eqn:Hi; [| done].
  destruct n as [|a ci cb t| |]; destruct st as [|due s| | | | |]; try done.
  destruct (Nat.leb_spec due (now q)); [| done].
  assert (Hprev : forall j d, i = S j -> pipe q !! j = Some d -> status d = Fulfilled s).
  { intros j d -> Hd. exact (inv_chain _ HI _ _ _ Hi Hd). }
  destruct (cb (ci s a)) as [out|] eqn:Hcb; injection H as <-.
  - eapply inv_complete; [exact HI | exact Hi | done | done |].
    intros j d Hij Hd. simpl. rewrite (Hprev j d Hij Hd). eauto.
  - eapply inv_set_status_same; [exact HI | exact Hi | done | | done | intros ? [=]].
    intros j d Hij Hd. simpl. rewrite (Hprev j d Hij Hd). eauto.
Qed.

Lemma inv_settle_step q i q' : inv q -> Chain.settle_step i q = Some q' -> inv q'.
Proof.
  intros HI H. unfold Chain.settle_step in H.
  destruct (pipe q !! i) as [[n st]|] eqn:Hi; [| done].
  destruct n as [| |a ci pr|]; destruct st as [| | o | | | |]; try done.
  assert (Hprev : forall j d, i = S j -> pipe q !! j = Some d ->
            exists s, status d = Fulfilled s /\ o = pr (ci s a)).
  { intros j d -> Hd. exact (inv_chain _ HI _ _ _ Hi Hd). }
  destruct o as [v| |]; try done; injection H as <-.
  - eapply inv_complete; [exact HI | exact Hi | done | done |].
    intros j d Hij Hd. destruct (Hprev j d Hij Hd) as (s & -> & Ho). simpl. eauto.
  - eapply inv_set_status_same; [exact HI | exact Hi | done | | done | intros ? [=]].
    intros j d Hij Hd. destruct (Hprev j d Hij Hd) as (s & -> & Ho). simpl. eauto.
Qed.

(** ** Every event, and every reachable state *)

Lemma inv_exec e q q' : inv q -> Chain.exec e q = Some q' -> inv q'.
Proof.
  intros HI H. destruct e; simpl in H; try (injection H as <-).
  - by apply inv_push.
  - by apply inv_push.
  - by apply inv_set_rets, inv_closeQueue.
  - unfold Tracker.getFinalResultAndCloseWhenAllTasksComplete. case_match; simpl.
    + by apply inv_set_rets, inv_closeQueue.
    + by apply inv_set_drainSubs, inv_set_rets.
  - by apply inv_openQueue.
  - by eapply inv_start_step.
  - by eapply inv_timer_step.
  - by eapply inv_settle_step.
  - by apply inv_set_now.
Qed.

Lemma inv_new (v : SOutput) b : inv (Chain.new v b : Queue).
Proof.
  assert (H0 : inv (mkQueue [mkCell (NInit v) (Fulfilled v)] 0 0 false [] [] 0 0 [] 0
                    : Queue)).
  { split; simpl; try done.
    - by exists v.
    - intros [|i] k Hk; simpl in Hk; done.
    - lia.
    - intros [|i] c s Hc Hs; simpl in Hc; [injection Hc as <-; done | done]. }
  unfold Chain.new. destruct b; [by apply inv_closeQueue | done].
Qed.

Theorem reachable_inv q : Chain.reachable q -> inv q.
Proof.
  intros (v & b & Hs). apply (star_inv Chain.step inv) with (a := Chain.new v b).
  - intros a a' Ha Hst. destruct Hst as [e ? ? He]. by eapply inv_exec.
  - exact Hs.
  - apply inv_new.
Qed.

(** ** Completed tasks never outnumber submitted ones *)

Lemma completed_le_submitted_inv q : inv q -> tasksComplete q <= queueLength q.
Proof.
  intros HI. rewrite (inv_tasksComplete q HI), (inv_queueLength q HI). unfold nodes.
  rewrite countb_fmap. apply countb_impl. intros c. unfold task_done. by intros [? _]%andb_prop.
Qed.
End Reachable.

(** ** The drain waiters wait only while tasks are outstanding *)

Section Drain.
Context {TInput SOutput RArgs : Type}.
Abbreviation Queue := (Queue TInput SOutput RArgs).
Implicit Types (q : Queue).

Definition drain_ok q : Prop := drainSubs q <> [] -> tasksComplete q < queueLength q.

Lemma drain_ok_same q q' :
  drain_ok q -> drainSubs q' = drainSubs q -> queueLength q' = queueLength q ->
  tasksComplete q' = tasksComplete q -> drain_ok q'.
Proof. unfold drain_ok. intros H -> -> ->. exact H. Qed.

(** After [taskComplete.next()], either the waiters fired and left, or
    the queue is not drained. *)
Lemma drain_ok_emit q : inv (Tracker.emit_taskComplete q) -> drain_ok (Tracker.emit_taskComplete q).
Proof.
  intros HI Hne. pose proof (completed_le_submitted_inv _ HI) as Hle.
  unfold Tracker.emit_taskComplete in *. destruct (Nat.eqb_spec (queueLength q) (tasksComplete q)).
  - by simpl in Hne.
  - lia.
Qed.

Lemma set_status_counters q i st :
  drainSubs (set_status i st q) = drainSubs q /\ queueLength (set_status i st q) = queueLength q /\
  tasksComplete (set_status i st q) = tasksComplete q.
Proof. unfold set_status. by destruct (pipe q !! i). Qed.

Lemma closeQueue_counters q :
  drainSubs (Gate.closeQueue q) = drainSubs q /\ queueLength (Gate.closeQueue q) = queueLength q /\
  tasksComplete (Gate.closeQueue q) = tasksComplete q.
Proof. unfold Gate.closeQueue. by destruct (queueIsClosed q). Qed.

Ltac drain_same H :=
  eapply drain_ok_same; [exact H | ..]; simpl;
  repeat match goal with
  | |- context [set_status ?i ?st ?q] =>
      let E1 := fresh in let E2 := fresh in let E3 := fresh in
      destruct (set_status_counters q i st) as (E1 & E2 & E3); rewrite ?E1, ?E2, ?E3; clear E1 E2 E3
  | |- context [Gate.closeQueue ?q] =>
      let E1 := fresh in let E2 := fresh in let E3 := fresh in
      destruct (closeQueue_counters q) as (E1 & E2 & E3); rewrite ?E1, ?E2, ?E3; clear E1 E2 E3
  end; done.

Lemma drain_ok_exec e q q' :
  inv q -> drain_ok q -> Chain.exec e q = Some q' -> drain_ok q'.
Proof.
  intros HI HD He. pose proof (inv_exec e q q' HI He) as HI'.
  destruct e; simpl in He.
  - injection He as <-. intros Hne. simpl in *. specialize (HD Hne). lia.
  - injection He as <-. intros Hne. simpl in *. specialize (HD Hne). lia.
  - injection He as <-. simpl. drain_same HD.
  - injection He as <-. unfold Tracker.getFinalResultAndCloseWhenAllTasksComplete in *.
    destruct (Nat.eqb_spec (queueLength q) (tasksComplete q)); simpl.
    + drain_same HD.
    + intros _. pose proof (completed_le_submitted_inv _ HI). simpl. lia.
  - injection He as <-. eapply drain_ok_same; [exact HD | ..]; unfold Gate.openQueue;
      case_match; done.
  - unfold Chain.start_step in He. repeat case_match; simplify_eq; unfold Gate.barrier_reached;
      try drain_same HD; simpl; drain_same HD.
  - unfold Chain.timer_step in He. repeat case_match; simplify_eq;
      [by apply drain_ok_emit | drain_same HD].
  - unfold Chain.settle_step in He. repeat case_match; simplify_eq;
      [by apply drain_ok_emit | drain_same HD].
  - injection He as <-. drain_same HD.
Qed.

Lemma drain_ok_new (v : SOutput) b : drain_ok (Chain.new v b : Queue).
Proof. unfold drain_ok, Chain.new. destruct b; simpl; [unfold Gate.closeQueue; simpl |]; done. Qed.

Theorem reachable_drain_ok q : Chain.reachable q -> drain_ok q.
Proof.
  intros (v & b & Hs).
  enough (inv q /\ drain_ok q) as [_ H] by exact H.
  apply (star_inv Chain.step (fun q => inv q /\ drain_ok q)) with (a := Chain.new v b).
  - intros a a' [Ha Hd] Hst. destruct Hst as [e ? ? He].
    split; [by eapply inv_exec | by eapply drain_ok_exec].
  - exact Hs.
  - split; [apply inv_new | apply drain_ok_new].
Qed.
End Drain.

(** ** Facts of reachable queues used by the properties *)

Section Helpers.
Context {TInput SOutput RArgs : Type}.
Abbreviation Queue := (Queue TInput SOutput RArgs).
Implicit Types (q : Queue).

(** A step that has started is preceded only by settled promises. *)
Lemma settled_before_started_inv q :
  inv q -> forall j c, pipe q !! j = Some c -> status c <> Pending ->
  forall i, i < j -> exists c', pipe q !! i = Some c' /\ is_settled (status c') = true.
Proof.
  intros HI j. induction j as [|j IH]; intros c Hc Hnp i Hi; [lia |].
  assert (Hlt : j < length (pipe q)) by (apply lookup_lt_Some in Hc; lia).
  destruct (lookup_lt_is_Some_2 _ _ Hlt) as [c' Hc'].
  assert (Hs : is_settled (status c') = true).
  { destruct (is_settled (status c')) eqn:E; [done |].
    exfalso. exact (Hnp (step_ok_pending _ _ _ (inv_chain q HI j c c' Hc Hc') E)). }
  destruct (decide (i = j)) as [->|Hne]; [eauto |].
  apply (IH c'); [done | intros E; rewrite E in Hs; discriminate | lia].
Qed.

(** A fulfilled promise is preceded only by fulfilled promises. *)
Lemma fulfilled_before_fulfilled_inv q :
  inv q -> forall j c, pipe q !! j = Some c -> is_fulfilled (status c) = true ->
  forall i, i <= j -> exists c', pipe q !! i = Some c' /\ is_fulfilled (status c') = true.
Proof.
  intros HI j. induction j as [|j IH]; intros c Hc Hf i Hi.
  - assert (i = 0) as -> by lia. eauto.
  - destruct (decide (i = S j)) as [->|Hne]; [eauto |].
    assert (Hlt : j < length (pipe q)) by (apply lookup_lt_Some in Hc; lia).
    destruct (lookup_lt_is_Some_2 _ _ Hlt) as [c' Hc'].
    pose proof (inv_chain q HI j c c' Hc Hc') as Hok.
    destruct (status c) as [| | | |v| |] eqn:E; try discriminate.
    apply (IH c'); [done | exact (step_ok_fulfilled _ _ _ Hok) | lia].
Qed.

Lemma reachable_exec e q q' : Chain.reachable q -> Chain.exec e q = Some q' -> Chain.reachable q'.
Proof. intros Hr He. eapply Chain.reachable_step; [exact Hr | by econstructor]. Qed.

Lemma reachable_close q : Chain.reachable q -> Chain.reachable (Tracker.closeQueueAndGetFinalResult q).1.
Proof. intros Hr. by apply (reachable_exec Chain.EvCloseAndGetResult q). Qed.

Lemma reachable_drain q :
  Chain.reachable q -> Chain.reachable (Tracker.getFinalResultAndCloseWhenAllTasksComplete q).1.
Proof. intros Hr. by apply (reachable_exec Chain.EvDrainThenClose q). Qed.

Lemma reachable_open q : Chain.reachable q -> Chain.reachable (Gate.openQueue q).
Proof. intros Hr. by apply (reachable_exec Chain.EvOpen q). Qed.

Lemma reachable_pushFunction a ci cb t q :
  Chain.reachable q -> Chain.reachable (Chain.pushFunctionToQueue a ci cb t q).
Proof. intros Hr. by apply (reachable_exec (Chain.EvPushFunction a ci cb t) q). Qed.

Lemma reachable_pushPromise a ci p q :
  Chain.reachable q -> Chain.reachable (Chain.pushPromiseToQueue a ci p q).
Proof. intros Hr. by apply (reachable_exec (Chain.EvPushPromise a ci p) q). Qed.

(** The barrier's [then] callback, run by [start_step]. *)
Lemma start_step_barrier q i k s :
  pipe q !! S i = Some (mkCell (NBarrier k) Pending) -> status_at q i = Some (Fulfilled s) ->
  exists q', Chain.start_step (S i) q = Some q' /\
    status_at q' (S i) = Some (if k <=? numberOfOpenings q then Fulfilled s else Subscribed s) /\
    openSubs q' = openSubs q ++ [S i].
Proof.
  intros Hi Hj. unfold Chain.start_step. rewrite Hi. unfold status_at in Hj. rewrite Hj.
  eexists. split; [reflexivity |]. unfold Gate.barrier_reached, status_at. simpl.
  split; [| done]. by rewrite (lookup_set_status_eq q (S i) _ _ Hi).
Qed.

Lemma status_at_lookup q i st : status_at q i = Some st -> exists c, pipe q !! i = Some c /\ status c = st.
Proof. unfold status_at. destruct (pipe q !! i) as [c|]; simpl; [intros [= <-]; eauto | done]. Qed.
End Helpers.
