(* ===== verification/Monotone.v ===== *)
(** * What only grows: the steps of the chain and the openings

    [grows q q'] holds when the chain of [q'] extends the chain of [q]
    (steps are only ever appended, never removed or replaced) and
    [numberOfOpenings] has not decreased.  Every event makes the queue
    grow ([grows_exec]), hence so does every sequence of steps
    ([grows_star]).  This is what lets a property of the moment a step
    was appended (its closure number, its position) be used at any later
    moment. *)

From stdpp Require Import base list.
From S2P Require Import Prelude Types Gate Tracker Chain Invariants.

Section Monotone.
Context {TInput SOutput RArgs : Type}.
Abbreviation Queue := (Queue TInput SOutput RArgs).
Implicit Types (q : Queue).

Definition grows q q' : Prop :=
  (exists l, nodes q' = nodes q ++ l) /\ numberOfOpenings q <= numberOfOpenings q'.

Lemma grows_refl q : grows q q.
Proof. split; [exists []; by rewrite app_nil_r | lia]. Qed.

Lemma grows_trans q1 q2 q3 : grows q1 q2 -> grows q2 q3 -> grows q1 q3.
Proof.
  intros [[l1 H1] O1] [[l2 H2] O2]. split; [| lia].
  exists (l1 ++ l2). by rewrite H2, H1, app_assoc.
Qed.

Lemma grows_same q q' :
  nodes q' = nodes q -> numberOfOpenings q <= numberOfOpenings q' -> grows q q'.
Proof. intros Hn Ho. split; [exists []; by rewrite Hn, app_nil_r | done]. Qed.

Lemma grows_closeQueue q : grows q (Gate.closeQueue q).
Proof.
  unfold Gate.closeQueue. destruct (queueIsClosed q); [apply grows_refl |].
  split; [| done]. eexists. unfold nodes. simpl. by rewrite fmap_app.
Qed.

Lemma grows_fold_drain_fire l q : grows q (fold_left Tracker.drain_fire l q).
Proof.
  revert q. induction l as [|r l IH]; intros q; simpl; [apply grows_refl |].
  eapply grows_trans; [| apply IH]. eapply grows_trans; [apply grows_closeQueue |].
  by apply grows_same.
Qed.

Lemma grows_emit q : grows q (Tracker.emit_taskComplete q).
Proof.
  unfold Tracker.emit_taskComplete. case_match; [| apply grows_refl].
  eapply grows_trans; [apply grows_fold_drain_fire | by apply grows_same].
Qed.

Lemma grows_set_status q i st : grows q (set_status i st q).
Proof. apply grows_same; [apply nodes_set_status | unfold set_status; by case_match]. Qed.

Lemma grows_exec e q q' : Chain.exec e q = Some q' -> grows q q'.
Proof.
  intros He. destruct e; simpl in He.
  - injection He as <-. split; [eexists; unfold nodes; simpl; by rewrite fmap_app | done].
  - injection He as <-. split; [eexists; unfold nodes; simpl; by rewrite fmap_app | done].
  - injection He as <-. simpl. eapply grows_trans; [apply grows_closeQueue | by apply grows_same].
  - injection He as <-. unfold Tracker.getFinalResultAndCloseWhenAllTasksComplete. case_match; simpl.
    + eapply grows_trans; [apply grows_closeQueue | by apply grows_same].
    + by apply grows_same.
  - injection He as <-. apply grows_same; [| apply Gate.openings_openQueue].
    unfold nodes. rewrite Gate.pipe_openQueue. apply nodes_release_all.
  - unfold Chain.start_step in He. repeat case_match; simplify_eq; unfold Gate.barrier_reached;
      apply grows_set_status.
  - unfold Chain.timer_step in He. repeat case_match; simplify_eq; [| apply grows_set_status].
    unfold Tracker.registerTaskCompletion. eapply grows_trans; [apply grows_set_status |].
    eapply grows_trans; [| apply grows_emit]. by apply grows_same.
  - unfold Chain.settle_step in He. repeat case_match; simplify_eq; [| apply grows_set_status].
    unfold Tracker.registerTaskCompletion. eapply grows_trans; [apply grows_set_status |].
    eapply grows_trans; [| apply grows_emit]. by apply grows_same.
  - injection He as <-. by apply grows_same.
Qed.

Lemma grows_star q q' : star Chain.step q q' -> grows q q'.
Proof.
  induction 1 as [|a b c Hab _ IH]; [apply grows_refl |].
  destruct Hab as [e a b He]. eapply grows_trans; [by eapply grows_exec | exact IH].
Qed.
End Monotone.

(** ** What the queue's own operations leave alone

    Appending a barrier, firing the drain waiters and the open signal
    never touch a task that is running: an [Awaiting] promise stays so
    until its own settlement.  And the steps they append are barriers. *)

Section Kept.
Context {TInput SOutput RArgs : Type}.
Abbreviation KQueue := (Queue TInput SOutput RArgs).
Implicit Types (q : KQueue).

Definition keeps_awaiting q q' : Prop :=
  forall i o, status_at q i = Some (Awaiting o) -> status_at q' i = Some (Awaiting o).

(** [q'] is [q] with barriers appended to its chain. *)
Definition grows_by_barriers q q' : Prop :=
  exists l, nodes q' = nodes q ++ l /\ Forall (fun n => is_barrier n = true) l.

Lemma keeps_awaiting_refl q : keeps_awaiting q q.
Proof. by intros i o. Qed.

Lemma keeps_awaiting_trans q1 q2 q3 :
  keeps_awaiting q1 q2 -> keeps_awaiting q2 q3 -> keeps_awaiting q1 q3.
Proof. intros H1 H2 i o Hi. by apply H2, H1. Qed.

Lemma keeps_awaiting_same q q' : pipe q' = pipe q -> keeps_awaiting q q'.
Proof. intros Hp i o. unfold status_at. by rewrite Hp. Qed.

Lemma keeps_awaiting_append q n : keeps_awaiting q (append_node n q).
Proof.
  intros i o Hi. unfold status_at in *. rewrite pipe_append_node, lookup_app_l; [done |].
  destruct (pipe q !! i) eqn:E; [by eapply lookup_lt_Some | done].
Qed.

Lemma keeps_awaiting_closeQueue q : keeps_awaiting q (Gate.closeQueue q).
Proof.
  unfold Gate.closeQueue. case_match; [apply keeps_awaiting_refl |].
  eapply keeps_awaiting_trans; [| apply keeps_awaiting_append]. by apply keeps_awaiting_same.
Qed.

Lemma keeps_awaiting_fold_drain_fire l q : keeps_awaiting q (fold_left Tracker.drain_fire l q).
Proof.
  revert q. induction l as [|r l IH]; intros q; simpl; [apply keeps_awaiting_refl |].
  eapply keeps_awaiting_trans; [| apply IH].
  eapply keeps_awaiting_trans; [apply keeps_awaiting_closeQueue |]. by apply keeps_awaiting_same.
Qed.

Lemma keeps_awaiting_emit q : keeps_awaiting q (Tracker.emit_taskComplete q).
Proof.
  unfold Tracker.emit_taskComplete. case_match; [| apply keeps_awaiting_refl].
  eapply keeps_awaiting_trans; [apply keeps_awaiting_fold_drain_fire | by apply keeps_awaiting_same].
Qed.

Lemma keeps_awaiting_register q : keeps_awaiting q (Tracker.registerTaskCompletion q).
Proof.
  eapply keeps_awaiting_trans; [| apply keeps_awaiting_emit]. by apply keeps_awaiting_same.
Qed.

Lemma keeps_awaiting_openQueue q : keeps_awaiting q (Gate.openQueue q).
Proof.
  intros i o Hi. unfold status_at in *. rewrite Gate.lookup_openQueue. case_decide; [| done].
  destruct (pipe q !! i) as [c|]; simpl in *; [| done]. injection Hi as Hi.
  rewrite Gate.release_cell_other; [by rewrite Hi | by rewrite Hi].
Qed.

(** Changing the state of another promise. *)
Lemma status_at_set_status_ne q i j st :
  i <> j -> status_at (set_status i st q) j = status_at q j.
Proof. intros Hne. unfold status_at. by rewrite lookup_set_status_ne. Qed.

Lemma keeps_awaiting_set_status q j st :
  (forall o, status_at q j <> Some (Awaiting o)) -> keeps_awaiting q (set_status j st q).
Proof.
  intros Hj i o Hi. destruct (decide (j = i)) as [<-|Hne]; [by destruct (Hj o) |].
  by rewrite status_at_set_status_ne.
Qed.

Lemma grows_by_barriers_refl q : grows_by_barriers q q.
Proof. exists []. by rewrite app_nil_r. Qed.

Lemma grows_by_barriers_trans q1 q2 q3 :
  grows_by_barriers q1 q2 -> grows_by_barriers q2 q3 -> grows_by_barriers q1 q3.
Proof.
  intros (l1 & H1 & F1) (l2 & H2 & F2). exists (l1 ++ l2).
  rewrite H2, H1, app_assoc. split; [done | by apply Forall_app].
Qed.

Lemma grows_by_barriers_same q q' : nodes q' = nodes q -> grows_by_barriers q q'.
Proof. intros H. exists []. by rewrite H, app_nil_r. Qed.

Lemma grows_by_barriers_closeQueue q : grows_by_barriers q (Gate.closeQueue q).
Proof.
  unfold Gate.closeQueue. case_match; [apply grows_by_barriers_refl |].
  eexists. unfold nodes. simpl. rewrite fmap_app. split; [done | by repeat constructor].
Qed.

Lemma grows_by_barriers_fold_drain_fire l q :
  grows_by_barriers q (fold_left Tracker.drain_fire l q).
Proof.
  revert q. induction l as [|r l IH]; intros q; simpl; [apply grows_by_barriers_refl |].
  eapply grows_by_barriers_trans; [| apply IH].
  eapply grows_by_barriers_trans; [apply grows_by_barriers_closeQueue | by apply grows_by_barriers_same].
Qed.

Lemma grows_by_barriers_emit q : grows_by_barriers q (Tracker.emit_taskComplete q).
Proof.
  unfold Tracker.emit_taskComplete. case_match; [| apply grows_by_barriers_refl].
  eapply grows_by_barriers_trans; [apply grows_by_barriers_fold_drain_fire | by apply grows_by_barriers_same].
Qed.

Lemma grows_by_barriers_register q : grows_by_barriers q (Tracker.registerTaskCompletion q).
Proof.
  eapply grows_by_barriers_trans; [| apply grows_by_barriers_emit]. by apply grows_by_barriers_same.
Qed.

(** ** No operation but a start makes a promise [Awaiting]

    Read backwards, the same operations create no running task:
    [keeps_awaiting q' q] says every promise [Awaiting] in [q'] already
    was in [q]. *)

Lemma keeps_awaiting_append_back q n : keeps_awaiting (append_node n q) q.
Proof.
  intros i o Hi. unfold status_at in *. rewrite pipe_append_node in Hi.
  destruct (decide (i < length (pipe q))) as [Hlt|Hge]; [by rewrite lookup_app_l in Hi |].
  rewrite lookup_app_r in Hi by lia. by destruct (i - length (pipe q)).
Qed.

Lemma keeps_awaiting_closeQueue_back q : keeps_awaiting (Gate.closeQueue q) q.
Proof.
  unfold Gate.closeQueue. case_match; [apply keeps_awaiting_refl |].
  eapply keeps_awaiting_trans; [apply keeps_awaiting_append_back |]. by apply keeps_awaiting_same.
Qed.

Lemma keeps_awaiting_fold_drain_fire_back l q : keeps_awaiting (fold_left Tracker.drain_fire l q) q.
Proof.
  revert q. induction l as [|r l IH]; intros q; simpl; [apply keeps_awaiting_refl |].
  eapply keeps_awaiting_trans; [apply IH |].
  eapply keeps_awaiting_trans; [by apply keeps_awaiting_same | apply keeps_awaiting_closeQueue_back].
Qed.

Lemma keeps_awaiting_register_back q : keeps_awaiting (Tracker.registerTaskCompletion q) q.
Proof.
  unfold Tracker.registerTaskCompletion, Tracker.emit_taskComplete. case_match; [| by apply keeps_awaiting_same].
  eapply keeps_awaiting_trans; [by apply keeps_awaiting_same |].
  eapply keeps_awaiting_trans; [apply keeps_awaiting_fold_drain_fire_back | by apply keeps_awaiting_same].
Qed.

Lemma keeps_awaiting_openQueue_back q : keeps_awaiting (Gate.openQueue q) q.
Proof.
  intros i o Hi. unfold status_at in *. rewrite Gate.lookup_openQueue in Hi. case_decide; [| done].
  destruct (pipe q !! i) as [[n st]|]; simpl in *; [| done]. by destruct st.
Qed.

Lemma keeps_awaiting_set_status_back q j st :
  (forall o, st <> Awaiting o) -> keeps_awaiting (set_status j st q) q.
Proof.
  intros Hst i o Hi. destruct (decide (j = i)) as [<-|Hne]; [| by rewrite status_at_set_status_ne in Hi].
  unfold status_at in Hi. destruct (pipe q !! j) as [c|] eqn:Hc.
  - rewrite (lookup_set_status_eq q j st c Hc) in Hi. injection Hi as Hi. by destruct (Hst o).
  - unfold set_status in Hi. rewrite Hc in Hi. by rewrite Hc in Hi.
Qed.
End Kept.
