(* ===== verification/Banked.v ===== *)
(** * Banked openings and the subscriptions of the barriers

    Two facts about the gate of [AsyncChainQueue] ([Gate.v]) over every
    reachable queue.

    - The balance of the counters ([gate_ok]): while the queue is open,
      [numberOfClosures <= numberOfOpenings]; while it is closed, one
      closure may be unopened.  So [openQueue()] on an open queue always
      banks an opening ([openQueue_open_banks]): the guard
      [numberOfOpenings <= numberOfClosures] (line 83) does not look at
      [queueIsClosed].  A barrier created while an opening is banked
      passes at once when the chain reaches it, whatever happens in
      between ([banked_barrier_passes]).
    - The subscriptions ([subs_ok]): every barrier the chain has reached
      and that did not hang is subscribed to [openQueueSignal], also
      when it passed at once (line 105), and the subscriber list only
      grows ([openSubs_grow]).

    Each invariant is proved once per operation of the queue, then over
    the steps of [Chain.step]. *)

From stdpp Require Import base list.
From S2P Require Import Prelude Types Gate Tracker Chain Invariants Reachable Monotone.

Module Banked.
Section Banked.
Context {TInput SOutput RArgs : Type}.
Abbreviation Queue := (Queue TInput SOutput RArgs).
Abbreviation Cell := (Cell TInput SOutput RArgs).
Implicit Types (q : Queue).

(** ** A barrier created with a banked opening *)

Lemma banked_barrier_passes q q2 s :
  Chain.reachable q -> queueIsClosed q = false -> numberOfClosures q < numberOfOpenings q ->
  star Chain.step (Gate.closeQueue q) q2 ->
  status_at q2 (pipeline q) = Some (Fulfilled s) -> status_at q2 (length (pipe q)) = Some Pending ->
  exists q3, Chain.start_step (length (pipe q)) q2 = Some q3 /\
    status_at q3 (length (pipe q)) = Some (Fulfilled s).
Proof.
  intros Hr Hc Hlt Hs Hprev Hpend. pose proof (reachable_inv q Hr) as HI.
  destruct (inv_init q HI) as [v0 H0].
  assert (Hlen : length (pipe q) = S (pipeline q)) by (unfold pipeline; apply lookup_lt_Some in H0; lia).
  destruct (grows_star _ _ Hs) as [[l Hl] Ho].
  rewrite Gate.closeQueue_open in Hl, Ho by done. simpl in Ho.
  destruct (status_at_lookup _ _ _ Hpend) as ([n st] & Hc2 & Hst). simpl in Hst. subst st.
  assert (Hn : n = NBarrier (S (numberOfClosures q))).
  { assert (Hnq2 : nodes q2 !! length (pipe q) = Some n) by (unfold nodes; by rewrite list_lookup_fmap, Hc2).
    rewrite Hl in Hnq2. unfold nodes in Hnq2. simpl in Hnq2. rewrite fmap_app, <- app_assoc in Hnq2.
    rewrite lookup_app_r in Hnq2 by (rewrite length_fmap; lia).
    rewrite length_fmap, Nat.sub_diag in Hnq2. simpl in Hnq2. by injection Hnq2. }
  subst n. rewrite Hlen in Hc2 |- *.
  destruct (start_step_barrier q2 (pipeline q) _ s Hc2 Hprev) as (q3 & Hq3 & Hst3 & _).
  exists q3. split; [done |]. rewrite Hst3. destruct (Nat.leb_spec (S (numberOfClosures q)) (numberOfOpenings q2)); [done | lia].
Qed.

(** ** The balance of closures and openings *)

Definition gate_view q : nat * nat * bool := (numberOfClosures q, numberOfOpenings q, queueIsClosed q).

Definition gate_ok q : Prop :=
  numberOfClosures q <= numberOfOpenings q + (if queueIsClosed q then 1 else 0).

Lemma gate_ok_same q q' : gate_view q' = gate_view q -> gate_ok q -> gate_ok q'.
Proof. unfold gate_view, gate_ok. intros Hv. by injection Hv as -> -> ->. Qed.

Lemma gate_view_set_status q i st : gate_view (set_status i st q) = gate_view q.
Proof. unfold set_status. by case_match. Qed.

Lemma gate_view_barrier_reached q i k s : gate_view (Gate.barrier_reached i k s q) = gate_view q.
Proof. unfold Gate.barrier_reached. rewrite <- (gate_view_set_status q i (if k <=? numberOfOpenings q then Fulfilled s else Subscribed s)). done. Qed.

Lemma gate_ok_closeQueue q : gate_ok q -> gate_ok (Gate.closeQueue q).
Proof.
  intros H. unfold Gate.closeQueue. destruct (queueIsClosed q) eqn:E; [done |].
  unfold gate_ok in *. rewrite E in H. simpl. lia.
Qed.

Lemma gate_ok_openQueue q : gate_ok q -> numberOfOpenings q <= S (numberOfClosures q) -> gate_ok (Gate.openQueue q).
Proof.
  unfold gate_ok, Gate.openQueue. intros H Hb.
  destruct (Nat.leb_spec (numberOfOpenings q) (numberOfClosures q)); simpl;
    destruct (queueIsClosed q); lia.
Qed.

Lemma gate_ok_drain_fire q r : gate_ok q -> gate_ok (Tracker.drain_fire q r).
Proof.
  intros H. apply gate_ok_closeQueue in H.
  destruct (Tracker.drain_fire_fields q r) as (_ & _ & Ho & _ & _ & _ & _ & Hc & Hq).
  revert H. unfold gate_ok. rewrite Ho, Hc, Hq.
  assert (Ho' : numberOfOpenings (Gate.closeQueue q) = numberOfOpenings q)
    by (unfold Gate.closeQueue; by case_match).
  assert (Hq' : queueIsClosed (Gate.closeQueue q) = true)
    by (unfold Gate.closeQueue; by case_match).
  rewrite Ho', Hq'. done.
Qed.

Lemma gate_ok_register q : gate_ok q -> gate_ok (Tracker.registerTaskCompletion q).
Proof.
  intros H. unfold Tracker.registerTaskCompletion, Tracker.emit_taskComplete. case_match.
  - apply (gate_ok_same (fold_left Tracker.drain_fire (drainSubs (set_tasksComplete (S (tasksComplete q)) q))
                           (set_tasksComplete (S (tasksComplete q)) q))); [done |].
    apply fold_left_inv; [intros; by apply gate_ok_drain_fire | done].
  - done.
Qed.

Lemma gate_ok_exec e q q' : inv q -> gate_ok q -> Chain.exec e q = Some q' -> gate_ok q'.
Proof.
  intros HI H He. destruct e; simpl in He.
  - injection He as <-. by apply (gate_ok_same q).
  - injection He as <-. by apply (gate_ok_same q).
  - injection He as <-. by apply gate_ok_closeQueue.
  - injection He as <-. unfold Tracker.getFinalResultAndCloseWhenAllTasksComplete. case_match; simpl.
    + by apply gate_ok_closeQueue.
    + by apply (gate_ok_same q).
  - injection He as <-. by apply gate_ok_openQueue, inv_openings.
  - unfold Chain.start_step in He. repeat case_match; simplify_eq;
      apply (gate_ok_same q); rewrite ?gate_view_barrier_reached, ?gate_view_set_status; done.
  - unfold Chain.timer_step in He. repeat case_match; simplify_eq;
      [apply gate_ok_register |]; apply (gate_ok_same q); rewrite ?gate_view_set_status; done.
  - unfold Chain.settle_step in He. repeat case_match; simplify_eq;
      [apply gate_ok_register |]; apply (gate_ok_same q); rewrite ?gate_view_set_status; done.
  - injection He as <-. by apply (gate_ok_same q).
Qed.

Lemma reachable_gate_ok q : Chain.reachable q -> gate_ok q.
Proof.
  intros (v & b & Hs).
  enough (inv q /\ gate_ok q) as [_ H] by exact H.
  apply (star_inv Chain.step (fun q => inv q /\ gate_ok q)) with (a := Chain.new v b); [| done |].
  - intros q1 q2 [HI H] Hst. inversion Hst as [e ? ? He]; subst.
    split; [by apply (inv_exec e q1) | by apply (gate_ok_exec e q1)].
  - split; [apply inv_new |]. unfold gate_ok, Chain.new. destruct b; simpl; [unfold Gate.closeQueue; simpl |]; lia.
Qed.

(** [openQueue()] on an open queue banks an opening. *)
Lemma openQueue_open_banks q :
  Chain.reachable q -> queueIsClosed q = false ->
  numberOfClosures (Gate.openQueue q) < numberOfOpenings (Gate.openQueue q).
Proof.
  intros Hr Hc. pose proof (reachable_gate_ok q Hr) as H. unfold gate_ok in H. rewrite Hc in H.
  unfold Gate.openQueue. destruct (Nat.leb_spec (numberOfOpenings q) (numberOfClosures q)); simpl; lia.
Qed.

(** ** The subscriptions of the barriers *)

(** A barrier the chain has reached and that did not hang: it passed
    ([Fulfilled]) or waits for an opening ([Subscribed]). *)
Definition reached (c : Cell) : bool :=
  match node c, status c with
  | NBarrier _, Fulfilled _ | NBarrier _, Subscribed _ => true
  | _, _ => false
  end.

Definition subs_ok q : Prop :=
  forall i c, pipe q !! i = Some c -> reached c = true -> i ∈ openSubs q.

(** A step that makes no barrier reached and unsubscribes nobody. *)
Definition subs_step q q' : Prop :=
  (forall i c', pipe q' !! i = Some c' -> reached c' = true ->
     exists c, pipe q !! i = Some c /\ reached c = true) /\
  openSubs q `prefix_of` openSubs q'.

Lemma subs_step_refl q : subs_step q q.
Proof. split; [eauto | done]. Qed.

Lemma subs_step_trans q1 q2 q3 : subs_step q1 q2 -> subs_step q2 q3 -> subs_step q1 q3.
Proof.
  intros [H1 P1] [H2 P2]. split; [| by trans (openSubs q2)].
  intros i c3 Hc3 Hr3. destruct (H2 i c3 Hc3 Hr3) as (c2 & Hc2 & Hr2). by apply (H1 i c2).
Qed.

Lemma subs_step_same q q' : pipe q' = pipe q -> openSubs q' = openSubs q -> subs_step q q'.
Proof. intros Hp Ho. split; [rewrite Hp; eauto | by rewrite Ho]. Qed.

Lemma subs_ok_step q q' : subs_ok q -> subs_step q q' -> subs_ok q'.
Proof.
  intros H [Hn Hp] i c' Hc' Hr'. destruct (Hn i c' Hc' Hr') as (c & Hc & Hr).
  eapply elem_of_prefix; [by apply (H i c) | done].
Qed.

Lemma subs_step_set_status q i st :
  (forall c, pipe q !! i = Some c -> reached (mkCell (node c) st) = false) -> subs_step q (set_status i st q).
Proof.
  intros Hst. unfold set_status. destruct (pipe q !! i) as [c|] eqn:Hc; [| apply subs_step_refl].
  split; [| done]. cbn [pipe set_pipe]. intros j c' Hj Hr.
  destruct (decide (i = j)) as [<-|Hne].
  - rewrite list_lookup_insert_eq in Hj by (by eapply lookup_lt_Some). injection Hj as <-.
    by rewrite (Hst c eq_refl) in Hr.
  - rewrite list_lookup_insert_ne in Hj by done. eauto.
Qed.

Lemma subs_step_append q n : subs_step q (append_node n q).
Proof.
  split; [| done]. rewrite pipe_append_node. intros i c' Hi Hr.
  apply lookup_app_Some in Hi as [Hi | [_ Hi]]; [eauto |].
  apply list_lookup_singleton_Some in Hi as [_ <-]. by destruct n.
Qed.

Lemma subs_step_closeQueue q : subs_step q (Gate.closeQueue q).
Proof.
  unfold Gate.closeQueue. case_match; [apply subs_step_refl |].
  set (q1 := set_numberOfClosures (S (numberOfClosures q)) q).
  eapply subs_step_trans; [| apply (subs_step_same (append_node (NBarrier (S (numberOfClosures q))) q1)); done].
  eapply subs_step_trans; [apply (subs_step_same q q1); done | apply subs_step_append].
Qed.

Lemma subs_step_drain_fire q r : subs_step q (Tracker.drain_fire q r).
Proof.
  eapply subs_step_trans; [apply (subs_step_closeQueue q) |].
  apply subs_step_same; unfold Tracker.drain_fire; done.
Qed.

Lemma subs_step_register q : subs_step q (Tracker.registerTaskCompletion q).
Proof.
  unfold Tracker.registerTaskCompletion, Tracker.emit_taskComplete.
  set (q1 := set_tasksComplete (S (tasksComplete q)) q).
  eapply subs_step_trans; [apply (subs_step_same q q1); done |]. case_match.
  - eapply subs_step_trans; [| apply (subs_step_same (fold_left Tracker.drain_fire (drainSubs q1) q1)); done].
    apply (fold_left_inv _ (fun x => subs_step q1 x));
      [intros x r Hx; eapply subs_step_trans; [exact Hx | apply subs_step_drain_fire] | apply subs_step_refl].
  - apply subs_step_refl.
Qed.

Lemma reached_release_cell c : reached (Gate.release_cell c) = true -> reached c = true.
Proof. destruct c as [n []]; by destruct n. Qed.

Lemma subs_step_openQueue q : subs_step q (Gate.openQueue q).
Proof.
  split; [| unfold Gate.openQueue; by case_match]. rewrite Gate.pipe_openQueue. intros i c' Hi Hr.
  rewrite Gate.lookup_release_all in Hi. case_decide; [| eauto].
  apply fmap_Some in Hi as (c & Hc & ->). eauto using reached_release_cell.
Qed.

(** The barrier's [then] callback subscribes it, whatever its check. *)
Lemma subs_ok_barrier_reached q i k s :
  subs_ok q -> subs_ok (Gate.barrier_reached i k s q) /\ openSubs q `prefix_of` openSubs (Gate.barrier_reached i k s q).
Proof.
  intros H. unfold Gate.barrier_reached. split; [| cbn [openSubs set_openSubs]; by apply prefix_app_r].
  intros j c' Hj Hr. cbn [openSubs set_openSubs pipe set_openSubs] in *. apply elem_of_app.
  destruct (decide (i = j)) as [<-|Hne]; [right; by left | left].
  rewrite (lookup_set_status_ne q i j) in Hj by done. by apply (H j c').
Qed.

Lemma subs_ok_exec e q q' :
  subs_ok q -> Chain.exec e q = Some q' -> subs_ok q' /\ openSubs q `prefix_of` openSubs q'.
Proof.
  intros H He.
  cut (subs_step q q' \/ (subs_ok q' /\ openSubs q `prefix_of` openSubs q')).
  { intros [Hs | Hs]; [split; [by apply (subs_ok_step q) | apply Hs] | done]. }
  destruct e; simpl in He.
  - injection He as <-. left. eapply subs_step_trans; [apply (subs_step_same q (set_queueLength (S (queueLength q)) q)); done | apply subs_step_append].
  - injection He as <-. left. eapply subs_step_trans; [apply (subs_step_same q (set_queueLength (S (queueLength q)) q)); done | apply subs_step_append].
  - injection He as <-. left. eapply subs_step_trans; [apply subs_step_closeQueue | by apply subs_step_same].
  - injection He as <-. left. unfold Tracker.getFinalResultAndCloseWhenAllTasksComplete. case_match; simpl.
    + eapply subs_step_trans; [apply subs_step_closeQueue | by apply subs_step_same].
    + by apply subs_step_same.
  - injection He as <-. left. apply subs_step_openQueue.
  - unfold Chain.start_step in He. repeat case_match; simplify_eq;
      try (right; by apply subs_ok_barrier_reached); left; apply subs_step_set_status; intros c _; by destruct (node c).
  - unfold Chain.timer_step in He. repeat case_match; simplify_eq; left;
      [eapply subs_step_trans; [| apply subs_step_register] |]; apply subs_step_set_status;
      intros c Hc; simplify_eq; done.
  - unfold Chain.settle_step in He. repeat case_match; simplify_eq; left;
      [eapply subs_step_trans; [| apply subs_step_register] |]; apply subs_step_set_status;
      intros c Hc; simplify_eq; done.
  - injection He as <-. left. by apply subs_step_same.
Qed.

Lemma subs_ok_star q q' : star Chain.step q q' -> subs_ok q -> subs_ok q' /\ openSubs q `prefix_of` openSubs q'.
Proof.
  intros Hs. induction Hs as [q | q1 q2 q3 Hst Hs IH]; intros H; [done |].
  inversion Hst as [e ? ? He]; subst. destruct (subs_ok_exec e q1 q2 H He) as [H2 P2].
  destruct (IH H2) as [H3 P3]. split; [done | by trans (openSubs q2)].
Qed.

Lemma reachable_subs_ok q : Chain.reachable q -> subs_ok q.
Proof.
  intros (v & b & Hs). apply (subs_ok_star _ _ Hs).
  intros i c. unfold Chain.new. destruct b; simpl; [unfold Gate.closeQueue; simpl |]; intros Hi Hr;
    repeat (destruct i as [|i]; simpl in Hi; try discriminate); injection Hi as <-; discriminate.
Qed.

End Banked.
End Banked.
