(* ===== verification/Spec.v ===== *)
(** * The abstract specification: the chain as a synchronous fold

    What the queue promises its callers, independent of timing: the
    promise of step [i] ends as the left fold of the steps up to [i],
    each task applied to the previous result ([createInputToTask] then
    the task), each barrier passing its input through.  A rejection
    propagates through asynchronous steps and stops the chain at the
    first deferred task or barrier (which never settle after one); a
    task that never settles, or a deferred task that throws, ends the
    chain.  [Final] is how a promise ends: fulfilled, rejected, or never
    settled.  [Refinement.v] proves that the queue meets this contract. *)

From stdpp Require Import base list.
From S2P Require Import Prelude Types.

Module Spec.
Section Spec.
Context {TInput SOutput RArgs : Type}.
Abbreviation Node := (Node TInput SOutput RArgs).

Inductive Final :=
| FVal (v : SOutput)
| FRej
| FNever.

(** The result of one step given how its predecessor ended. *)
Definition step_result (n : Node) (acc : Final) : Final :=
  match n, acc with
  | NInit v, _ => FVal v
  | _, FNever => FNever
  | NFn a ci cb _, FVal s =>
      match cb (ci s a) with Some v => FVal v | None => FNever end
  | NFn _ _ _ _, FRej => FNever
  | NAsync a ci pr, FVal s =>
      match pr (ci s a) with
      | Fulfils v => FVal v
      | Rejects => FRej
      | NeverSettles => FNever
      end
  | NAsync _ _ _, FRej => FRej
  | NBarrier _, FVal s => FVal s
  | NBarrier _, FRej => FNever
  end.

(** The chain's result: the fold of its steps, oldest first. *)
Definition chain_result (ns : list Node) : Final :=
  fold_left (fun acc n => step_result n acc) ns FNever.

Lemma chain_result_snoc ns n :
  chain_result (ns ++ [n]) = step_result n (chain_result ns).
Proof. unfold chain_result. by rewrite fold_left_app. Qed.

(** A barrier never changes the result. *)
Lemma step_result_barrier k acc :
  acc <> FRej -> step_result (NBarrier k) acc = acc.
Proof. by destruct acc. Qed.
End Spec.
Arguments Final : clear implicits.
End Spec.

#[export] Hint Rewrite @Spec.chain_result_snoc : queue_rw.
