(* ===== verification/Refinement.v ===== *)
(** * The queue refines the synchronous fold

    [agrees st f]: a promise in state [st] is consistent with ending as
    [f].  [chain_refines_fold] shows, by induction along the chain and the
    local contract [step_ok], that in every reachable queue each promise
    agrees with the fold ([Spec.chain_result]) of the steps up to it: the
    values the asynchronous chain produces are those of running its tasks
    one after another on the initial value, barriers included as the
    identity.  The promise of a step that waits ([TimerSet], [Awaiting],
    [Subscribed]) has been given the fold of the steps before it. *)

From stdpp Require Import base list.
From S2P Require Import Prelude Types Gate Tracker Chain Invariants Reachable Spec.

Module Refinement.
Section Refinement.
Context {TInput SOutput RArgs : Type}.
Abbreviation Node := (Node TInput SOutput RArgs).
Abbreviation Cell := (Cell TInput SOutput RArgs).
Abbreviation Queue := (Queue TInput SOutput RArgs).

Definition agrees (st : Status SOutput) (f : Spec.Final SOutput) : Prop :=
  match st with
  | Fulfilled v => f = Spec.FVal v
  | Rejected => f = Spec.FRej
  | Hung => f = Spec.FNever
  | _ => True
  end.

(** The value a waiting step was started with. *)
Definition started_with (st : Status SOutput) : option SOutput :=
  match st with
  | TimerSet _ s | Subscribed s => Some s
  | _ => None
  end.

Lemma step_ok_agrees (n : Node) prev st f :
  step_ok n prev st -> is_settled prev = true -> agrees prev f ->
  agrees st (Spec.step_result n f).
Proof.
  destruct prev; try done; simpl; intros Hok _ ->;
    destruct st, n; simpl in *; try done;
    repeat match goal with
    | H : _ \/ _ |- _ => destruct H
    | H : exists _, _ |- _ => destruct H
    | H : _ /\ _ |- _ => destruct H
    | H : Fulfilled _ = Fulfilled _ |- _ => injection H as <-
    end; subst; try done;
    repeat match goal with H : ?x = _ |- context [?x] => rewrite H end; done.
Qed.

Lemma take_nodes_S (q : Queue) i c :
  pipe q !! i = Some c -> take (S i) (nodes q) = take i (nodes q) ++ [node c].
Proof. intros H. apply take_S_r. unfold nodes. by rewrite list_lookup_fmap, H. Qed.

Lemma chain_refines_fold_inv (q : Queue) :
  inv q -> forall i c, pipe q !! i = Some c ->
  agrees (status c) (Spec.chain_result (take (S i) (nodes q))).
Proof.
  intros HI i. induction i as [|i IH]; intros c Hc.
  - destruct (inv_init q HI) as [v Hv]. rewrite Hv in Hc. injection Hc as <-.
    rewrite (take_nodes_S q 0 _ Hv). done.
  - assert (Hlt : i < length (pipe q)) by (apply lookup_lt_Some in Hc; lia).
    destruct (lookup_lt_is_Some_2 _ _ Hlt) as [c' Hc'].
    pose proof (inv_chain q HI i c c' Hc Hc') as Hok.
    rewrite (take_nodes_S q (S i) c Hc), Spec.chain_result_snoc.
    destruct (is_settled (status c')) eqn:Hs.
    + exact (step_ok_agrees _ _ _ _ Hok Hs (IH c' Hc')).
    + by rewrite (step_ok_pending _ _ _ Hok Hs).
Qed.

(** A step that waits was started with the fold of the steps before it. *)
Lemma started_with_fold_inv (q : Queue) :
  inv q -> forall i c s, pipe q !! S i = Some c -> started_with (status c) = Some s ->
  Spec.chain_result (take (S i) (nodes q)) = Spec.FVal s.
Proof.
  intros HI i c s Hc Hs.
  assert (Hlt : i < length (pipe q)) by (apply lookup_lt_Some in Hc; lia).
  destruct (lookup_lt_is_Some_2 _ _ Hlt) as [c' Hc'].
  pose proof (inv_chain q HI i c c' Hc Hc') as Hok.
  pose proof (chain_refines_fold_inv q HI i c' Hc') as Hag.
  destruct (status c) eqn:E; simpl in Hs; try done; injection Hs as <-;
    destruct (node c); simpl in Hok; try done; rewrite Hok in Hag; done.
Qed.
End Refinement.
End Refinement.
