(* ===== verification/Returns.v ===== *)
(** * The promises returned to callers

    [closeQueueAndGetFinalResult] returns the promise that was the tail
    of the chain at the call ([RAdopt]); the drained branch of
    [getFinalResultAndCloseWhenAllTasksComplete] a copy of it; its
    waiting branch a promise that the first [queueComplete] event makes
    follow the tail at that moment ([RWaiting], then [RThen]).  This file
    shows that a returned promise, once settled, keeps what it follows
    ([rets_stable]): the drain waiters only ever rewrite their own
    [RWaiting] entries ([rets_ok]); and that the promise a drain waiter
    follows is never older than the tail at its call ([ret_tracks]).
    With the refinement of [Refinement.v], the value a caller receives is
    the fold of the steps before the promise it follows. *)

From stdpp Require Import base list.
From S2P Require Import Prelude Types Gate Tracker Chain Invariants Reachable Monotone Spec Refinement.

Module Returns.
Section Returns.
Context {TInput SOutput RArgs : Type}.
Abbreviation Node := (Node TInput SOutput RArgs).
Abbreviation Queue := (Queue TInput SOutput RArgs).
Implicit Types (q : Queue).

(** The drain waiters are distinct and each one's promise is still
    waiting. *)
Definition rets_ok q : Prop :=
  NoDup (drainSubs q) /\ forall r, r ∈ drainSubs q -> rets q !! r = Some RWaiting.

(** The promise a returned promise follows, once it follows one. *)
Definition ret_cell (x : Ret) : option nat :=
  match x with RAdopt i | RThen i => Some i | RWaiting => None end.

(** The returned promise [r] waits as a drain waiter, or follows a
    promise of the chain at position [p] or later. *)
Definition ret_tracks (p r : nat) q : Prop :=
  (rets q !! r = Some RWaiting /\ r ∈ drainSubs q) \/
  exists i x, rets q !! r = Some x /\ ret_cell x = Some i /\ p <= i.

(** ** The fields the queue's operations leave alone *)

Lemma closeQueue_rets q : rets (Gate.closeQueue q) = rets q /\ drainSubs (Gate.closeQueue q) = drainSubs q.
Proof. unfold Gate.closeQueue. by case_match. Qed.

Lemma set_status_rets q i st : rets (set_status i st q) = rets q /\ drainSubs (set_status i st q) = drainSubs q.
Proof. unfold set_status. by case_match. Qed.

Lemma openQueue_rets q : rets (Gate.openQueue q) = rets q /\ drainSubs (Gate.openQueue q) = drainSubs q.
Proof. unfold Gate.openQueue. by case_match. Qed.

Lemma start_step_rets q i q' :
  Chain.start_step i q = Some q' -> rets q' = rets q /\ drainSubs q' = drainSubs q.
Proof.
  unfold Chain.start_step. intros H. repeat case_match; simplify_eq;
    unfold Gate.barrier_reached; apply set_status_rets.
Qed.

(** Firing the drain waiters rewrites their entries only. *)
Lemma fold_drain_fire_rets_other l q r :
  r ∉ l -> rets (fold_left Tracker.drain_fire l q) !! r = rets q !! r.
Proof.
  revert q. induction l as [|r' l IH]; intros q Hr; simpl; [done |].
  apply not_elem_of_cons in Hr as [Hne Hr]. rewrite IH by done.
  unfold Tracker.drain_fire. simpl. rewrite list_lookup_insert_ne by done.
  by rewrite (proj1 (closeQueue_rets q)).
Qed.

Lemma pipeline_drain_fire q r : pipeline q <= pipeline (Tracker.drain_fire q r).
Proof.
  unfold pipeline. destruct (Tracker.drain_fire_fields q r) as (_ & _ & _ & _ & _ & _ & -> & _).
  unfold Gate.closeQueue. case_match; simpl; [lia |]. rewrite length_app. simpl. lia.
Qed.

Lemma rets_drain_fire_length q r' : length (rets (Tracker.drain_fire q r')) = length (rets q).
Proof. unfold Tracker.drain_fire. simpl. by rewrite length_insert, (proj1 (closeQueue_rets q)). Qed.

(** The waiter [r] of the list fires with the tail at that moment, which
    is no older than the tail before the waiters fire. *)
Lemma fold_drain_fire_rets_fires l q r :
  r ∈ l -> NoDup l -> r < length (rets q) ->
  exists i, rets (fold_left Tracker.drain_fire l q) !! r = Some (RThen i) /\ pipeline q <= i.
Proof.
  revert q. induction l as [|r' l IH]; intros q Hr Hnd Hlt; [by apply not_elem_of_nil in Hr |].
  apply NoDup_cons in Hnd as [Hr' Hnd]. simpl.
  destruct (decide (r = r')) as [->|Hne].
  - rewrite fold_drain_fire_rets_other by done. unfold Tracker.drain_fire. simpl.
    eexists. split; [apply list_lookup_insert_eq; by rewrite (proj1 (closeQueue_rets q)) | done].
  - apply elem_of_cons in Hr as [-> | Hr]; [done |].
    destruct (IH (Tracker.drain_fire q r') Hr Hnd) as (i & Hi & Hle);
      [by rewrite rets_drain_fire_length |].
    exists i. split; [done |]. pose proof (pipeline_drain_fire q r'). lia.
Qed.

(** ** What one step does to the returned promises *)

(** A step appends returned promises that follow the tail, or
    subscribes a new drain waiter, or fires all the drain waiters from a
    state with the same promises and chain length. *)
Lemma exec_rets_cases e q q' :
  Chain.exec e q = Some q' ->
  (exists l, rets q' = rets q ++ l /\ drainSubs q' = drainSubs q /\ Forall (eq (RAdopt (pipeline q))) l) \/
  (rets q' = rets q ++ [RWaiting] /\ drainSubs q' = drainSubs q ++ [length (rets q)]) \/
  (exists q0, rets q0 = rets q /\ pipeline q0 = pipeline q /\
     rets q' = rets (fold_left Tracker.drain_fire (drainSubs q) q0) /\ drainSubs q' = []).
Proof.
  assert (Hsame : forall q1, rets q1 = rets q -> drainSubs q1 = drainSubs q ->
            (exists l, rets q1 = rets q ++ l /\ drainSubs q1 = drainSubs q /\
               Forall (eq (RAdopt (pipeline q))) l)).
  { intros q1 -> ->. exists []. rewrite app_nil_r. split_and!; [done | done | constructor]. }
  assert (Hadopt : forall q1, rets q1 = rets q -> drainSubs q1 = drainSubs q ->
            (exists l, rets q1 ++ [RAdopt (pipeline q)] = rets q ++ l /\ drainSubs q1 = drainSubs q /\
               Forall (eq (RAdopt (pipeline q))) l)).
  { intros q1 -> ->. exists [RAdopt (pipeline q)]. split_and!; [done | done | by repeat constructor]. }
  assert (Hreg : forall i st,
            ((exists l, rets (Tracker.registerTaskCompletion (set_status i st q)) = rets q ++ l /\
                drainSubs (Tracker.registerTaskCompletion (set_status i st q)) = drainSubs q /\
                Forall (eq (RAdopt (pipeline q))) l) \/
             (exists q0, rets q0 = rets q /\ pipeline q0 = pipeline q /\
                rets (Tracker.registerTaskCompletion (set_status i st q)) =
                  rets (fold_left Tracker.drain_fire (drainSubs q) q0) /\
                drainSubs (Tracker.registerTaskCompletion (set_status i st q)) = []))).
  { intros i st. destruct (set_status_rets q i st) as [Hr Hd].
    unfold Tracker.registerTaskCompletion, Tracker.emit_taskComplete. simpl. case_match.
    - right. exists (set_tasksComplete (S (tasksComplete (set_status i st q))) (set_status i st q)).
      rewrite Hd. split_and!; [done | unfold pipeline; simpl; by rewrite length_set_status | done | done].
    - left. apply Hsame; done. }
  intros He. destruct e; simpl in He.
  - injection He as <-. left. by apply Hsame.
  - injection He as <-. left. by apply Hsame.
  - injection He as <-. left. simpl. apply Hadopt; apply closeQueue_rets.
  - injection He as <-. unfold Tracker.getFinalResultAndCloseWhenAllTasksComplete. case_match; simpl.
    + left. apply Hadopt; apply closeQueue_rets.
    + right; left. done.
  - injection He as <-. left. apply Hsame; apply openQueue_rets.
  - left. destruct (start_step_rets q _ q' He) as [Hr Hd]. by apply Hsame.
  - unfold Chain.timer_step in He. repeat case_match; simplify_eq.
    + destruct (Hreg i (Fulfilled s0)) as [Hx | Hx]; [by left | by right; right].
    + left. apply Hsame; apply set_status_rets.
  - unfold Chain.settle_step in He. repeat case_match; simplify_eq.
    + destruct (Hreg i (Fulfilled v)) as [Hx | Hx]; [by left | by right; right].
    + left. apply Hsame; apply set_status_rets.
  - injection He as <-. left. by apply Hsame.
Qed.

Lemma rets_ok_lt q r : rets_ok q -> r ∈ drainSubs q -> r < length (rets q).
Proof. intros [_ H] Hr. apply lookup_lt_Some with RWaiting. by apply H. Qed.

Lemma rets_ok_exec e q q' : rets_ok q -> Chain.exec e q = Some q' -> rets_ok q'.
Proof.
  intros Hok He. pose proof (rets_ok_lt q) as Hlt. destruct Hok as [Hnd Hw]. unfold rets_ok.
  destruct (exec_rets_cases e q q' He) as [(l & Hr & Hd & _) | [(Hr & Hd) | (q0 & _ & _ & _ & Hd)]].
  - rewrite Hr, Hd. split; [done |]. intros r Hin. rewrite lookup_app_l; [by apply Hw | by apply Hlt].
  - rewrite Hr, Hd. split.
    + apply NoDup_app. split_and!; [done | | apply NoDup_singleton].
      intros r Hin Hin'. apply list_elem_of_singleton in Hin' as ->. specialize (Hlt _ (conj Hnd Hw) Hin). lia.
    + intros r Hin. apply elem_of_app in Hin as [Hin | Hin].
      * rewrite lookup_app_l; [by apply Hw | by apply (Hlt _ (conj Hnd Hw))].
      * apply list_elem_of_singleton in Hin as ->. apply lookup_snoc_eq.
  - rewrite Hd. split; [constructor | intros r Hr; by apply not_elem_of_nil in Hr].
Qed.

Lemma reachable_rets_ok q : Chain.reachable q -> rets_ok q.
Proof.
  intros (v & b & Hs). eapply (star_inv Chain.step rets_ok); [| exact Hs |].
  - intros q1 q2 H1 Hst. inversion Hst; subst. by eapply rets_ok_exec.
  - unfold Chain.new. destruct b; [| split; [constructor | intros r Hr; by apply not_elem_of_nil in Hr]].
    destruct (closeQueue_rets (mkQueue [mkCell (NInit v) (Fulfilled v)] 0 0 false [] [] 0 0 [] 0))
      as [Hr Hd]. unfold rets_ok. rewrite Hr, Hd. split; [constructor | intros r Hr'; by apply not_elem_of_nil in Hr'].
Qed.

(** A returned promise that follows a promise of the chain keeps
    following it. *)
Lemma rets_stable_exec e q q' r x :
  rets_ok q -> Chain.exec e q = Some q' -> rets q !! r = Some x -> x <> RWaiting -> rets q' !! r = Some x.
Proof.
  intros [Hnd Hw] He Hr Hx.
  destruct (exec_rets_cases e q q' He) as [(l & Hr' & _) | [(Hr' & _) | (q0 & Hq0 & _ & Hr' & _)]];
    rewrite Hr'.
  - rewrite lookup_app_l; [done | by eapply lookup_lt_Some].
  - rewrite lookup_app_l; [done | by eapply lookup_lt_Some].
  - rewrite fold_drain_fire_rets_other, Hq0; [done |]. intros Hin. rewrite (Hw r Hin) in Hr. congruence.
Qed.

Lemma rets_stable q q' r x :
  Chain.reachable q -> star Chain.step q q' -> rets q !! r = Some x -> x <> RWaiting -> rets q' !! r = Some x.
Proof.
  intros Hreach Hs. induction Hs as [|q1 q2 q3 H12 _ IH]; intros Hr Hx; [done |].
  inversion H12 as [e ? ? He]; subst. apply IH; [by eapply Chain.reachable_step | | done].
  by apply (rets_stable_exec e q1 q2 r x); [apply reachable_rets_ok |..].
Qed.

Lemma ret_tracks_exec e p r q q' :
  rets_ok q -> p <= pipeline q -> Chain.exec e q = Some q' -> ret_tracks p r q -> ret_tracks p r q'.
Proof.
  intros Hok Hp He [[Hr Hin] | (i & x & Hr & Hx & Hi)].
  - pose proof (rets_ok_lt q r Hok Hin) as Hlt. destruct Hok as [Hnd Hw].
    destruct (exec_rets_cases e q q' He) as [(l & Hr' & Hd & _) | [(Hr' & Hd) | (q0 & Hq0 & Hp0 & Hr' & Hd)]].
    + left. rewrite Hr', Hd, lookup_app_l; done.
    + left. rewrite Hr', Hd, lookup_app_l by done. split; [done |]. apply elem_of_app. by left.
    + right. destruct (fold_drain_fire_rets_fires (drainSubs q) q0 r Hin Hnd) as (j & Hj & Hle);
        [by rewrite Hq0 |].
      exists j, (RThen j). rewrite Hr'. split_and!; [done | done | lia].
  - right. exists i, x. split_and!; [| done | done].
    apply (rets_stable_exec e q q' r x Hok He Hr). by destruct x.
Qed.

Lemma pipeline_grows q q' : grows q q' -> pipeline q <= pipeline q'.
Proof.
  intros [[l Hl] _]. unfold pipeline. apply (f_equal length) in Hl. unfold nodes in Hl.
  rewrite length_app, !length_fmap in Hl. lia.
Qed.

Lemma ret_tracks_star p r q q' :
  Chain.reachable q -> star Chain.step q q' -> p <= pipeline q -> ret_tracks p r q -> ret_tracks p r q'.
Proof.
  intros Hreach Hs. induction Hs as [|q1 q2 q3 H12 _ IH]; intros Hp Ht; [done |].
  inversion H12 as [e ? ? He]; subst. apply IH.
  - by eapply Chain.reachable_step.
  - pose proof (pipeline_grows _ _ (grows_exec e q1 q2 He)). lia.
  - by apply (ret_tracks_exec e p r q1 q2); [apply reachable_rets_ok |..].
Qed.

(** A returned promise that waits has not settled. *)
Lemma ret_status_waiting q r : rets q !! r = Some RWaiting -> Tracker.ret_status q r = Pending.
Proof. unfold Tracker.ret_status. by intros ->. Qed.

(** A fulfilled returned promise follows a fulfilled promise of the
    chain, with its value. *)
Lemma ret_status_fulfilled q r v :
  Tracker.ret_status q r = Fulfilled v ->
  exists x i, rets q !! r = Some x /\ ret_cell x = Some i /\ status_at q i = Some (Fulfilled v).
Proof.
  unfold Tracker.ret_status. intros Hs.
  destruct (rets q !! r) as [x|]; [| done]. exists x.
  destruct x as [i| |i]; [| done |]; exists i; split_and!; try done;
    destruct (status_at q i) as [[]|]; by simplify_eq.
Qed.

(** The value a returned promise has been fulfilled with is the fold of
    the chain up to the promise it follows. *)
Lemma ret_status_fold q r x i v :
  Chain.reachable q -> rets q !! r = Some x -> ret_cell x = Some i ->
  Tracker.ret_status q r = Fulfilled v ->
  Spec.chain_result (take (S i) (nodes q)) = Spec.FVal v.
Proof.
  intros Hreach Hr Hx Hs. destruct (ret_status_fulfilled q r v Hs) as (x' & i' & Hr' & Hx' & Hst).
  rewrite Hr in Hr'. injection Hr' as <-. rewrite Hx in Hx'. injection Hx' as <-.
  apply status_at_lookup in Hst as (c & Hc & Hcs).
  pose proof (Refinement.chain_refines_fold_inv q (reachable_inv q Hreach) i c Hc) as Hag.
  rewrite Hcs in Hag. exact Hag.
Qed.

(** A returned promise that has not been fulfilled follows a promise of
    the chain that has not. *)
Lemma ret_status_unfulfilled q r x i c :
  is_fulfilled (Tracker.ret_status q r) = false -> rets q !! r = Some x -> ret_cell x = Some i ->
  pipe q !! i = Some c -> is_fulfilled (status c) = false.
Proof.
  unfold Tracker.ret_status, status_at. intros Hs Hr Hx Hc. rewrite Hr in Hs.
  destruct x; simpl in Hx; simplify_eq; rewrite Hc in Hs; simpl in Hs; by destruct (status c).
Qed.

Lemma reachable_star q q' : Chain.reachable q -> star Chain.step q q' -> Chain.reachable q'.
Proof. intros Hr Hs. induction Hs; [done |]. eauto using Chain.reachable_step. Qed.

(** The chain at a later state extends the chain now by its steps. *)
Lemma nodes_later q q' :
  star Chain.step q q' -> exists l, nodes q' = nodes q ++ l.
Proof. intros Hs. by destruct (grows_star q q' Hs) as [H _]. Qed.

Lemma length_nodes_pipeline q : inv q -> length (nodes q) = S (pipeline q).
Proof.
  intros HI. unfold nodes, pipeline. rewrite length_fmap.
  destruct (inv_init q HI) as [v Hv]. apply lookup_lt_Some in Hv. lia.
Qed.

(** ** The completed tasks a returned promise covers *)

Lemma tasksComplete_emit q : tasksComplete (Tracker.emit_taskComplete q) = tasksComplete q.
Proof.
  unfold Tracker.emit_taskComplete. case_match; [| done]. simpl.
  apply (fold_left_inv _ (fun q' : Queue => tasksComplete q' = tasksComplete q)); [| done].
  intros q1 r H1. destruct (Tracker.drain_fire_fields q1 r) as (_ & -> & _). done.
Qed.

Lemma tasksComplete_register q : tasksComplete (Tracker.registerTaskCompletion q) = S (tasksComplete q).
Proof. unfold Tracker.registerTaskCompletion. by rewrite tasksComplete_emit. Qed.

(** The cells before a running task are fulfilled. *)
Lemma awaiting_prefix_fulfilled q c o :
  inv q -> status_at q c = Some (Awaiting o) ->
  forall k, k < c -> exists x, pipe q !! k = Some x /\ is_fulfilled (status x) = true.
Proof.
  intros HI Hi k Hk. destruct (status_at_lookup q c _ Hi) as (x & Hx & Hst).
  destruct c as [|j]; [lia |].
  assert (Hlt : j < length (pipe q)) by (apply lookup_lt_Some in Hx; lia).
  destruct (lookup_lt_is_Some_2 _ _ Hlt) as [x' Hx'].
  pose proof (inv_chain q HI j x x' Hx Hx') as Hok. rewrite Hst in Hok.
  destruct (node x); simpl in Hok; try done. destruct Hok as (s & Hprev & _).
  apply (fulfilled_before_fulfilled_inv q HI j x' Hx'); [by rewrite Hprev | lia].
Qed.

(** A prefix of fulfilled cells holds only completed tasks. *)
Lemma count_fulfilled_prefix q i :
  (forall k c, k < i -> pipe q !! k = Some c -> is_fulfilled (status c) = true) ->
  countb task_done (take i (pipe q)) = countb is_task (take i (nodes q)).
Proof.
  intros Hf. unfold nodes. rewrite <- fmap_take, countb_fmap. apply countb_ext_in.
  intros x Hx. apply list_elem_of_lookup in Hx as [k Hk]. apply lookup_take_Some in Hk as [Hk Hki].
  unfold task_done. by rewrite (Hf k x Hki Hk), andb_true_r.
Qed.

(** No cell from an unfulfilled one on is fulfilled. *)
Lemma count_drop_unfulfilled q i :
  inv q -> (forall c, pipe q !! i = Some c -> is_fulfilled (status c) = false) ->
  countb task_done (drop i (pipe q)) = 0.
Proof.
  intros HI Hi. apply countb_zero. intros x Hx. apply list_elem_of_lookup in Hx as [k Hk].
  rewrite lookup_drop in Hk. unfold task_done.
  destruct (is_fulfilled (status x)) eqn:Ef; [| by rewrite andb_false_r].
  destruct (fulfilled_before_fulfilled_inv q HI (i + k) x Hk Ef i ltac:(lia)) as (c & Hc & Hc').
  by rewrite (Hi c Hc) in Hc'.
Qed.

(** While the task of cell [i] runs, the completed tasks are the tasks
    before it. *)
Lemma awaiting_count q i o :
  inv q -> status_at q i = Some (Awaiting o) -> tasksComplete q = countb is_task (take i (nodes q)).
Proof.
  intros HI Hi. destruct (status_at_lookup q i _ Hi) as (c & Hc & Hst).
  rewrite (inv_tasksComplete q HI), <- (take_drop i (pipe q)), countb_app.
  rewrite (count_drop_unfulfilled q i HI) by (intros c0 Hc0; rewrite Hc in Hc0; injection Hc0 as <-; by rewrite Hst).
  rewrite Nat.add_0_r. apply count_fulfilled_prefix. intros k x Hk Hx.
  destruct (awaiting_prefix_fulfilled q i o HI Hi k Hk) as (x' & Hx' & Hf). rewrite Hx in Hx'. by injection Hx' as <-.
Qed.

(** While the promise of cell [i] is not fulfilled, the completed tasks
    all come before it. *)
Lemma unfulfilled_count q i :
  inv q -> (forall c, pipe q !! i = Some c -> is_fulfilled (status c) = false) ->
  tasksComplete q <= countb is_task (take (S i) (nodes q)).
Proof.
  intros HI Hi. rewrite (inv_tasksComplete q HI), <- (take_drop i (pipe q)), countb_app,
    (count_drop_unfulfilled q i HI Hi), Nat.add_0_r.
  transitivity (countb is_task (take i (nodes q))).
  - unfold nodes. rewrite <- fmap_take, countb_fmap. apply countb_impl.
    intros c. unfold task_done. by intros [? ?]%andb_prop.
  - apply countb_take_mono; [lia | done].
Qed.

(** Once the promise of cell [i] is fulfilled, every task up to it has
    completed. *)
Lemma fulfilled_count q i v :
  inv q -> status_at q i = Some (Fulfilled v) -> countb is_task (take (S i) (nodes q)) <= tasksComplete q.
Proof.
  intros HI Hi. destruct (status_at_lookup q i _ Hi) as (c & Hc & Hst).
  rewrite (inv_tasksComplete q HI), <- (count_fulfilled_prefix q (S i)).
  - pose proof (countb_app task_done (take (S i) (pipe q)) (drop (S i) (pipe q))) as E.
    rewrite take_drop in E. lia.
  - intros k x Hk Hx. destruct (fulfilled_before_fulfilled_inv q HI i c Hc ltac:(by rewrite Hst) k ltac:(lia))
      as (x' & Hx' & Hf). rewrite Hx in Hx'. by injection Hx' as <-.
Qed.

(** The promise [r] follows a promise of the chain whose prefix holds
    every completed task. *)
Definition covers q r : Prop :=
  forall x i, rets q !! r = Some x -> ret_cell x = Some i ->
  tasksComplete q <= countb is_task (take (S i) (nodes q)).

(** What a returned promise follows after a step: what it followed, the
    tail at a drain waiter's firing, or the tail at its creation. *)
Lemma ret_target_exec e q q' r x' j :
  rets_ok q -> Chain.exec e q = Some q' -> rets q' !! r = Some x' -> ret_cell x' = Some j ->
  rets q !! r = Some x' \/ (rets q !! r = Some RWaiting /\ pipeline q <= j) \/
  (rets q !! r = None /\ j = pipeline q).
Proof.
  intros Hok He Hr Hj. pose proof (rets_ok_lt q r Hok) as Hlt. destruct Hok as [Hnd Hw].
  destruct (exec_rets_cases e q q' He) as [(l & Hr' & _ & Hl) | [(Hr' & _) | (q0 & Hq0 & Hp0 & Hr' & _)]];
    rewrite Hr' in Hr.
  - destruct (decide (r < length (rets q))) as [Hr0|Hr0]; [left; by rewrite lookup_app_l in Hr |].
    right; right. rewrite lookup_app_r in Hr by lia. apply list_elem_of_lookup_2 in Hr.
    rewrite Forall_forall in Hl. rewrite <- (Hl x' Hr) in Hj. injection Hj as <-.
    split; [apply lookup_ge_None; lia | done].
  - destruct (decide (r < length (rets q))) as [Hr0|Hr0]; [left; by rewrite lookup_app_l in Hr |].
    rewrite lookup_app_r in Hr by lia. destruct (r - length (rets q)); simpl in Hr; [| done].
    injection Hr as <-. discriminate.
  - destruct (decide (r ∈ drainSubs q)) as [Hin|Hin].
    + right; left. destruct (fold_drain_fire_rets_fires (drainSubs q) q0 r Hin Hnd) as (i & Hi & Hle);
        [rewrite Hq0; by apply Hlt |].
      rewrite Hi in Hr. injection Hr as <-. injection Hj as <-. split; [by apply Hw | lia].
    + left. by rewrite fold_drain_fire_rets_other, Hq0 in Hr.
Qed.

(** The tail covers the completed tasks, also after barriers are
    appended. *)
Lemma covers_tail q q' j :
  inv q -> nodes q `prefix_of` nodes q' -> pipeline q <= j ->
  tasksComplete q <= countb is_task (take (S j) (nodes q')).
Proof.
  intros HI Hp Hj. etransitivity; [apply completed_le_submitted_inv, HI |]. rewrite (inv_queueLength q HI).
  transitivity (countb is_task (take (S (pipeline q)) (nodes q))).
  - rewrite take_ge; [done | rewrite (length_nodes_pipeline q HI); lia].
  - apply countb_take_mono; [lia | done].
Qed.

Lemma covers_tail_barriers q q' j :
  inv q -> inv q' -> grows_by_barriers q q' -> pipeline q <= j ->
  tasksComplete q' <= countb is_task (take (S j) (nodes q')).
Proof.
  intros HI HI' (l & Hl & Hb) Hj. etransitivity; [apply completed_le_submitted_inv, HI' |].
  rewrite (inv_queueLength q' HI').
  transitivity (countb is_task (take (S (pipeline q)) (nodes q))).
  - rewrite take_ge by (rewrite (length_nodes_pipeline q HI); lia).
    rewrite Hl, countb_app, (countb_zero _ l); [lia |]. intros n Hn. rewrite Forall_forall in Hb.
    specialize (Hb n Hn). by destruct n.
  - rewrite Hl. apply countb_take_mono; [lia | by exists l].
Qed.

(** A step that completes no task keeps what a returned promise covers. *)
Lemma covers_exec e q q' r :
  Chain.reachable q -> Chain.exec e q = Some q' -> tasksComplete q' <= tasksComplete q ->
  covers q r -> covers q' r.
Proof.
  intros Hr He Ht Hc x' j Hx Hj. pose proof (reachable_inv q Hr) as HI.
  assert (Hp : nodes q `prefix_of` nodes q')
    by (destruct (grows_exec e q q' He) as [[l Hl] _]; by exists l).
  etransitivity; [exact Ht |].
  destruct (ret_target_exec e q q' r x' j (reachable_rets_ok q Hr) He Hx Hj) as [Hold | [[_ Hle] | [_ ->]]].
  - etransitivity; [exact (Hc x' j Hold Hj) |]. by apply countb_take_mono.
  - by apply covers_tail.
  - by apply covers_tail.
Qed.

(** When the task of cell [c] completes, a returned promise that
    followed a promise not yet fulfilled covers the completed tasks. *)
Lemma covers_settle c q q' r v :
  Chain.reachable q -> status_at q c = Some (Awaiting (Fulfils v)) -> Chain.settle_step c q = Some q' ->
  (forall x i ci, rets q !! r = Some x -> ret_cell x = Some i -> pipe q !! i = Some ci ->
     is_fulfilled (status ci) = false) ->
  covers q' r.
Proof.
  intros Hr Hc Hs Hunf x' j Hx Hj. pose proof (reachable_inv q Hr) as HI.
  pose proof (reachable_inv q' (reachable_exec (Chain.EvSettle c) q q' Hr Hs)) as HI'.
  destruct (status_at_lookup q c _ Hc) as (cc & Hcc & Hst).
  assert (Hq' : q' = Tracker.registerTaskCompletion (set_status c (Fulfilled v) q) /\ is_task (node cc) = true).
  { unfold Chain.settle_step in Hs. rewrite Hcc in Hs. destruct cc as [n st]. simpl in Hst. subst st.
    destruct n; try discriminate. by injection Hs as <-. }
  destruct Hq' as [Hq' Htask].
  assert (Hg : grows_by_barriers q q').
  { rewrite Hq'. eapply grows_by_barriers_trans; [| apply grows_by_barriers_register].
    apply grows_by_barriers_same, nodes_set_status. }
  destruct (ret_target_exec (Chain.EvSettle c) q q' r x' j (reachable_rets_ok q Hr) Hs Hx Hj)
    as [Hold | [[_ Hle] | [_ ->]]]; [| by apply (covers_tail_barriers q) .. ].
  destruct (pipe q !! j) as [cj|] eqn:Hcj.
  2: { apply (covers_tail_barriers q); [done | done | done |]. apply lookup_ge_None in Hcj. unfold pipeline. lia. }
  assert (Hle : c <= j).
  { destruct (decide (c <= j)) as [|Hlt]; [done |].
    destruct (awaiting_prefix_fulfilled q c _ HI Hc j ltac:(lia)) as (x0 & Hx0 & Hf).
    rewrite Hcj in Hx0. injection Hx0 as <-. by rewrite (Hunf x' j _ Hold Hj Hcj) in Hf. }
  destruct Hg as (l & Hl & _).
  rewrite Hl, Hq', tasksComplete_register, tasksComplete_set_status, (awaiting_count q c _ HI Hc).
  transitivity (countb is_task (take (S c) (nodes q))).
  - rewrite (Refinement.take_nodes_S q c cc Hcc), countb_snoc, Htask. lia.
  - apply countb_take_mono; [lia | by exists l].
Qed.

(** A returned promise that covers the completed tasks and is fulfilled
    follows exactly the completed tasks. *)
Lemma covers_fulfilled q r x i v :
  inv q -> covers q r -> rets q !! r = Some x -> ret_cell x = Some i ->
  status_at q i = Some (Fulfilled v) -> tasksComplete q = countb is_task (take (S i) (nodes q)).
Proof. intros HI Hc Hx Hi Hv. pose proof (Hc x i Hx Hi). pose proof (fulfilled_count q i v HI Hv). lia. Qed.
End Returns.
End Returns.
