(* ===== verification/AppProofs.v ===== *)
(** * The application component: structure of its steps and quiescence

    Lemmas on the model of [app.component.ts] ([App.v]): how each
    operation changes the queues ([all_queues_update], [start_task_spec]),
    which microtask [next_micro] selects, and that [quiesce] reaches a
    state with no queued microtask when its fuel is [micro_measure]
    ([quiesce_quiescent_gen]).  [app_chain] describes the chains the
    component builds: [Promise.resolve(0)] followed by its own tasks
    ([createArgumentsForTask], [promiseToPushToQueue]) and barriers. *)

From Stdlib Require Import ZArith.
From stdpp Require Import base list.
From S2P Require Import Prelude Types Gate Tracker Chain Invariants Reachable Monotone Spec.
From S2P Require Import Refinement Returns App.

Module AppProofs.
Import App.

Abbreviation ANode := (Node InputToTask.t Z DataFromForm.t).

(** A step the component can append: one of its tasks, or a barrier. *)
Definition app_node (n : ANode) : Prop :=
  match n with
  | NAsync _ ci pr => ci = createArgumentsForTask /\ pr = task_promise
  | NBarrier _ => True
  | _ => False
  end.

Definition app_chain (q : AQueue) : Prop :=
  nodes q !! 0 = Some (NInit 0%Z) /\ forall i n, nodes q !! S i = Some n -> app_node n.

(** The values ([taskValue]) of the tasks of a chain, in order. *)
Definition task_value (n : ANode) : option Z :=
  match n with
  | NFn d _ _ _ | NAsync d _ _ => Some (DataFromForm.taskValue d)
  | _ => None
  end.

Definition task_values (ns : list ANode) : list Z := omap task_value ns.

Definition sumZ (l : list Z) : Z := foldr Z.add 0%Z l.

(** The sum of the values of the tasks a queue has completed. *)
Definition completed_total (q : AQueue) : Z :=
  sumZ (take (tasksComplete q) (task_values (nodes q))).

(** A pending timer: it captured its queue's generation, and the task it
    will resolve is running, with the total it will publish. *)
Definition timer_ok (a : App) (t : Timer) : Prop :=
  signalValue t = timer_gen t /\
  exists q, queue_of a (timer_gen t) = Some q /\
    status_at q (timer_cell t) = Some (Awaiting (Fulfils (timer_newRunningTotal t))).

Definition timer_key (t : Timer) : nat * nat := (timer_gen t, timer_cell t).

(** The discarded queues have no queued [then] callback. *)
Definition stale_quiet (a : App) : Prop :=
  forall g q, g < live_gen a -> queue_of a g = Some q -> queue_startable q = None.

(** The invariant of the component between two microtasks. *)
Record app_wf (a : App) : Prop := {
  wf_gen : resetCounter a = live_gen a;
  wf_queues : Forall (fun q => Chain.reachable q /\ app_chain q) (all_queues a);
  wf_timers : Forall (timer_ok a) (timers a);
  wf_timers_nodup : NoDup (timer_key <$> timers a);
  wf_stale : stale_quiet a;
  wf_total : runningTotal a = completed_total (asyncChainQueue a)
}.

(** Between two macrotasks, no microtask is left either. *)
Definition app_inv (a : App) : Prop := app_wf a /\ next_micro a = None.

(** ** Updating the queues *)

Lemma update_queue_fields g f a :
  timers (update_queue g f a) = timers a /\ clock (update_queue g f a) = clock a /\
  resetCounter (update_queue g f a) = resetCounter a /\
  observers (update_queue g f a) = observers a /\
  runningTotal (update_queue g f a) = runningTotal a /\
  live_gen (update_queue g f a) = live_gen a.
Proof.
  unfold update_queue, live_gen. case_match; simpl; [done |]. by rewrite length_alter.
Qed.

Lemma observer_callback_fields k a :
  all_queues (observer_callback k a) = all_queues a /\
  observers (observer_callback k a) = observers a /\
  timers (observer_callback k a) = timers a /\
  resetCounter (observer_callback k a) = resetCounter a /\
  runningTotal (observer_callback k a) = runningTotal a /\
  live_gen (observer_callback k a) = live_gen a /\
  asyncChainQueue (observer_callback k a) = asyncChainQueue a /\
  discarded (observer_callback k a) = discarded a.
Proof. by destruct k. Qed.

Lemma all_queues_update g f a : all_queues (update_queue g f a) = alter f g (all_queues a).
Proof.
  unfold update_queue, all_queues, live_gen.
  destruct (Nat.eqb_spec g (length (discarded a))) as [->|Hne]; simpl.
  - by rewrite alter_snoc_eq.
  - by rewrite alter_snoc_ne.
Qed.

Lemma queue_of_update g f a q :
  queue_of a g = Some q -> queue_of (update_queue g f a) g = Some (f q).
Proof.
  unfold queue_of. intros H. rewrite all_queues_update, list_lookup_alter_eq, H. done.
Qed.

Lemma queue_of_update_ne g g' f a :
  g <> g' -> queue_of (update_queue g f a) g' = queue_of a g'.
Proof. unfold queue_of. intros H. rewrite all_queues_update. by apply list_lookup_alter_ne. Qed.

(** ** Which microtask runs *)

Lemma queue_startable_Some q i :
  queue_startable q = Some i ->
  exists j c c', i = S j /\ pipe q !! j = Some c' /\ pipe q !! S j = Some c /\
    is_settled (status c') = true /\ status c = Pending.
Proof.
  unfold queue_startable. intros H. apply fmap_Some in H as ([j [c' c]] & Hf & ->).
  apply list_find_Some in Hf as (Hl & HP & _).
  apply lookup_zip_with_Some in Hl as (x & y & [= <- <-] & Hx & Hy).
  rewrite lookup_drop in Hy. simpl in *. apply andb_prop in HP as [Hs Hp].
  eexists j, _, _. split_and!; [done | exact Hx | exact Hy | done |].
  revert Hp. unfold is_pending. case_match; done.
Qed.

Lemma queue_startable_None q :
  queue_startable q = None ->
  forall j c c', pipe q !! j = Some c' -> pipe q !! S j = Some c ->
    is_settled (status c') = true -> status c <> Pending.
Proof.
  unfold queue_startable. intros H j c c' Hj Hsj Hs Hp. apply fmap_None in H.
  apply list_find_None in H. rewrite Forall_lookup in H.
  apply (H j (c', c)).
  - apply lookup_zip_with_Some. exists c', c. rewrite lookup_drop. done.
  - simpl. unfold is_pending. rewrite Hs, Hp. done.
Qed.

Lemma first_start_Some a g i :
  first_start a = Some (g, i) ->
  exists q, queue_of a g = Some q /\ queue_startable q = Some i /\
    forall g' q', g' < g -> queue_of a g' = Some q' -> queue_startable q' = None.
Proof.
  unfold first_start, queue_of. destruct (list_find _ _) as [[g0 q]|] eqn:Hf; [| done].
  intros H. apply fmap_Some in H as (i0 & Hs & [= <- <-]).
  apply list_find_Some in Hf as (Hl & _ & Hmin). exists q. split_and!; [done | done |].
  intros g' q' Hlt Hq'. destruct (queue_startable q') eqn:E; [| done].
  exfalso. apply (Hmin g' q'); [done | lia | by rewrite E].
Qed.

Lemma first_start_None a :
  first_start a = None -> forall g q, queue_of a g = Some q -> queue_startable q = None.
Proof.
  unfold first_start, queue_of. destruct (list_find _ _) as [[g0 q0]|] eqn:Hf.
  - apply list_find_Some in Hf as (_ & [i Hi] & _). rewrite Hi. done.
  - intros _ g q Hq. apply list_find_None in Hf. rewrite Forall_lookup in Hf.
    specialize (Hf g q Hq). destruct (queue_startable q); [exfalso; by apply Hf | done].
Qed.

Lemma first_observer_Some a k :
  first_observer a = Some k -> exists o, observers a !! k = Some o /\ observer_ready a o = true.
Proof.
  unfold first_observer. intros H. apply fmap_Some in H as ([k0 o] & Hf & ->).
  apply list_find_Some in Hf as (Hl & Hr & _). eauto.
Qed.

Lemma first_observer_None a :
  first_observer a = None -> forall k o, observers a !! k = Some o -> observer_ready a o = false.
Proof.
  unfold first_observer. intros H k o Hk. apply fmap_None, list_find_None in H.
  rewrite Forall_lookup in H. apply not_true_is_false. exact (H k o Hk).
Qed.

(** ** The effect of a microtask *)

(** [start_task] runs the queue's [then] callback and registers at most
    one timer, with the current [resetCounter], for the cell started. *)
Lemma start_task_spec g i a q q' :
  queue_of a g = Some q -> Chain.start_step i q = Some q' ->
  exists ts, start_task g i a = set_timers (timers a ++ ts) (update_queue g (fun _ => q') a) /\
    (ts = [] \/ exists d ci pr st s, pipe q !! i = Some (mkCell (NAsync d ci pr) st) /\
       status_at q (pred i) = Some (Fulfilled s) /\
       ts = [mkTimer (clock a + Z.to_nat (InputToTask.delayInMilliseconds (ci s d)))
               (resetCounter a) (newRunningTotal (ci s d)) g i]).
Proof.
  intros Hq Hs. unfold start_task. rewrite Hq, Hs.
  destruct (update_queue_fields g (fun _ => q') a) as (Ht & Hc & Hr & _).
  assert (Hid : set_timers (timers a ++ []) (update_queue g (fun _ => q') a) = update_queue g (fun _ => q') a).
  { rewrite app_nil_r, <- Ht. by destruct (update_queue _ _ _). }
  destruct (pipe q !! i) as [[n st]|] eqn:Hi; [| exists []; split; [done | by left]].
  destruct n; try (exists []; split; [done | by left]).
  destruct (status_at q (pred i)) as [[]|] eqn:Hp; try (exists []; split; [done | by left]).
  unfold promiseToPushToQueue. rewrite Ht, Hc, Hr. eexists. split; [reflexivity |]. right. eauto 10.
Qed.

Lemma pending_set_status q i c st :
  pipe q !! i = Some c -> status c = Pending -> st <> Pending ->
  countb is_pending (pipe (set_status i st q)) + 1 = countb is_pending (pipe q).
Proof.
  intros Hc Hp Hst. rewrite (set_status_some q i c st Hc). simpl.
  pose proof (countb_insert is_pending (pipe q) i (mkCell (node c) st) c Hc) as H.
  assert (E1 : is_pending c = true) by (unfold is_pending; by rewrite Hp).
  assert (E2 : is_pending (mkCell (node c) st) = false) by (unfold is_pending; by destruct st).
  rewrite E1, E2 in H. lia.
Qed.

(** The [then] callback of a step that has not started changes its
    state and nothing else of the chain. *)
Lemma pending_start_step q j c c' q' :
  pipe q !! S j = Some c -> pipe q !! j = Some c' -> status c = Pending ->
  Chain.start_step (S j) q = Some q' ->
  nodes q' = nodes q /\ countb is_pending (pipe q') + 1 = countb is_pending (pipe q).
Proof.
  intros Hc Hc' Hp Hs. unfold Chain.start_step in Hs. rewrite Hc, Hc' in Hs.
  destruct c as [n st]; simpl in Hp; subst st. simpl in Hs.
  destruct n, (status c'); simplify_eq; try unfold Gate.barrier_reached; simpl;
    (split; [apply nodes_set_status | apply (pending_set_status q _ _ _ Hc); [done | repeat case_match; done]]).
Qed.

Lemma start_step_some q j c c' :
  pipe q !! S j = Some c -> pipe q !! j = Some c' -> status c = Pending ->
  is_settled (status c') = true -> app_node (node c) ->
  exists q', Chain.start_step (S j) q = Some q'.
Proof.
  intros Hc Hc' Hp Hs Happ. unfold Chain.start_step. rewrite Hc, Hc'.
  destruct c as [n st]; simpl in *; subst st.
  destruct n; simpl in Happ; try done; destruct (status c'); simpl in *; try done; eauto.
Qed.

Lemma app_chain_nodes q q' : nodes q' = nodes q -> app_chain q -> app_chain q'.
Proof. unfold app_chain. by intros ->. Qed.

(** The cell the selected [then] callback starts, and its queue. *)
Lemma next_start_cell a g i :
  first_start a = Some (g, i) ->
  exists q j c c', queue_of a g = Some q /\ i = S j /\ pipe q !! j = Some c' /\
    pipe q !! S j = Some c /\ is_settled (status c') = true /\ status c = Pending.
Proof.
  intros Hf. destruct (first_start_Some _ _ _ Hf) as (q & Hq & Hs & _).
  destruct (queue_startable_Some _ _ Hs) as (j & c & c' & -> & ?). eauto 10.
Qed.

Lemma app_chain_lookup a g q j c :
  Forall app_chain (all_queues a) -> queue_of a g = Some q -> pipe q !! S j = Some c ->
  app_node (node c).
Proof.
  intros Hwf Hq Hc. rewrite Forall_lookup in Hwf. destruct (Hwf g q Hq) as [_ Hn].
  apply (Hn j). unfold nodes. by rewrite list_lookup_fmap, Hc.
Qed.

(** The selected [then] callback does run. *)
Lemma next_start_runs a g i :
  Forall app_chain (all_queues a) -> first_start a = Some (g, i) ->
  exists q q', queue_of a g = Some q /\ Chain.start_step i q = Some q' /\
    nodes q' = nodes q /\ countb is_pending (pipe q') + 1 = countb is_pending (pipe q).
Proof.
  intros Hwf Hf. destruct (next_start_cell _ _ _ Hf) as (q & j & c & c' & Hq & -> & Hc' & Hc & Hs & Hp).
  destruct (start_step_some q j c c' Hc Hc' Hp Hs) as [q' Hq']; [by eapply app_chain_lookup |].
  exists q, q'. split_and!; try done; by apply (pending_start_step q j c c' q').
Qed.

Lemma micro_measure_set_timers ts a : micro_measure (set_timers ts a) = micro_measure a.
Proof. reflexivity. Qed.

Lemma run_micro_measure a m :
  Forall app_chain (all_queues a) -> next_micro a = Some m ->
  micro_measure (run_micro m a) < micro_measure a.
Proof.
  intros Hwf Hn. unfold next_micro in Hn. destruct (first_start a) as [[g i]|] eqn:Hf.
  - injection Hn as <-. destruct (next_start_runs a g i Hwf Hf) as (q & q' & Hq & Hq' & _ & Hcnt).
    destruct (start_task_spec g i a q q' Hq Hq') as (ts & Ht & _). simpl. rewrite Ht.
    rewrite micro_measure_set_timers. unfold micro_measure. rewrite all_queues_update.
    pose proof (sum_list_with_alter (fun q => countb is_pending (pipe q)) (fun _ => q') _ _ _ Hq) as Hsum.
    destruct (update_queue_fields g (fun _ => q') a) as (_ & _ & _ & -> & _). lia.
  - destruct (first_observer a) as [k|] eqn:Ho; [| done]. injection Hn as <-.
    destruct (first_observer_Some _ _ Ho) as (o & Hk & _). simpl. rewrite Hk.
    unfold micro_measure. destruct (observer_callback_fields (obs_kind o) (set_observers (delete k (observers a)) a)) as (-> & -> & _).
    simpl. rewrite length_delete by eauto. apply lookup_lt_Some in Hk. unfold all_queues. simpl. lia.
Qed.

Lemma run_micro_app_chain a m :
  Forall app_chain (all_queues a) -> next_micro a = Some m ->
  Forall app_chain (all_queues (run_micro m a)).
Proof.
  intros Hwf Hn. unfold next_micro in Hn. destruct (first_start a) as [[g i]|] eqn:Hf.
  - injection Hn as <-. destruct (next_start_runs a g i Hwf Hf) as (q & q' & Hq & Hq' & Hnodes & _).
    destruct (start_task_spec g i a q q' Hq Hq') as (ts & Ht & _). simpl. rewrite Ht.
    change (all_queues (set_timers ?x ?y)) with (all_queues y). rewrite all_queues_update.
    apply Forall_alter; [done |]. intros x Hx Hchain. unfold queue_of in Hq. rewrite Hq in Hx.
    injection Hx as <-. by eapply app_chain_nodes.
  - destruct (first_observer a) as [k|] eqn:Ho; [| done]. injection Hn as <-.
    destruct (first_observer_Some _ _ Ho) as (o & Hk & _). simpl. rewrite Hk.
    by destruct (observer_callback_fields (obs_kind o) (set_observers (delete k (observers a)) a)) as (-> & _).
Qed.

(** A property kept by every microtask holds after [quiesce]. *)
Lemma quiesce_ind (P : App -> Prop) :
  (forall a m, P a -> next_micro a = Some m -> P (run_micro m a)) ->
  forall fuel a, P a -> P (quiesce fuel a).
Proof.
  intros Hstep fuel. induction fuel as [|fuel IH]; intros a Ha; simpl; [done |].
  destruct (next_micro a) as [m|] eqn:E; [apply IH; eauto | done].
Qed.

(** With [micro_measure] as fuel, [quiesce] runs every microtask. *)
Lemma quiesce_quiescent_gen fuel a :
  Forall app_chain (all_queues a) -> micro_measure a <= fuel ->
  next_micro (quiesce fuel a) = None /\ Forall app_chain (all_queues (quiesce fuel a)).
Proof.
  revert a. induction fuel as [|fuel IH]; intros a Hwf Hm; simpl.
  - destruct (next_micro a) as [m|] eqn:E; [| done].
    pose proof (run_micro_measure a m Hwf E). lia.
  - destruct (next_micro a) as [m|] eqn:E; [| done].
    pose proof (run_micro_measure a m Hwf E).
    apply IH; [by apply run_micro_app_chain | lia].
Qed.

(** ** The totals of an application chain *)

Lemma sumZ_snoc l x : sumZ (l ++ [x]) = (sumZ l + x)%Z.
Proof. unfold sumZ. rewrite foldr_app. simpl. induction l as [|y l IH]; simpl; lia. Qed.

Lemma task_values_app ns ns' : task_values (ns ++ ns') = task_values ns ++ task_values ns'.
Proof. apply omap_app. Qed.

Lemma task_values_barriers ns :
  Forall (fun n => is_barrier n = true) ns -> task_values ns = [].
Proof. induction 1 as [|n ns Hn _ IH]; [done |]. by destruct n. Qed.

Lemma length_task_values ns : length (task_values ns) = countb is_task ns.
Proof. induction ns as [|n ns IH]; [done |]. destruct n; simpl; rewrite ?IH; done. Qed.

(** The values of a prefix of the chain are a prefix of its values. *)
Lemma take_task_values k ns :
  take (length (task_values (take k ns))) (task_values ns) = task_values (take k ns).
Proof.
  rewrite <- (take_drop k ns) at 2. rewrite task_values_app. apply take_app_length.
Qed.

(** The fold of an application chain is the sum of its tasks' values:
    each task fulfils with [runningTotal + increment]. *)
Lemma app_chain_result ns :
  ns !! 0 = Some (NInit 0%Z) -> (forall i n, ns !! S i = Some n -> app_node n) ->
  Spec.chain_result ns = Spec.FVal (sumZ (task_values ns)).
Proof.
  induction ns as [|n ns IH] using rev_ind; intros H0 Hn; [done |].
  destruct ns as [|m ns'] eqn:Ens.
  - simpl in H0. injection H0 as ->. done.
  - rewrite <- Ens in *. rewrite Spec.chain_result_snoc, IH, task_values_app.
    2: { rewrite Ens in *. done. }
    2: { intros i x Hx. apply (Hn i). rewrite lookup_app_l; [done |]. by eapply lookup_lt_Some. }
    assert (Happ : app_node n).
    { apply (Hn (pred (length ns))). rewrite Ens. simpl. rewrite lookup_app_r by (simpl; lia).
      simpl. by rewrite Nat.sub_diag. }
    destruct n; simpl in Happ; try done.
    + destruct Happ as [-> ->]. simpl. rewrite sumZ_snoc. done.
    + simpl. by rewrite app_nil_r.
Qed.

Lemma app_chain_take q k :
  app_chain q -> 0 < k ->
  Spec.chain_result (take k (nodes q)) = Spec.FVal (sumZ (task_values (take k (nodes q)))).
Proof.
  intros [H0 Hn] Hk. apply app_chain_result.
  - rewrite lookup_take_lt by lia. done.
  - intros i n Hi. apply (Hn i). by apply lookup_take_Some in Hi as [? _].
Qed.

(** The total a running task will publish is the sum of the values of
    the tasks up to it. *)
Lemma awaiting_total q i v :
  inv q -> app_chain q -> status_at q i = Some (Awaiting (Fulfils v)) ->
  v = sumZ (task_values (take (S i) (nodes q))).
Proof.
  intros HI Hac Hi. destruct (status_at_lookup q i _ Hi) as (c & Hc & Hst).
  destruct i as [|j].
  { destruct (inv_init q HI) as [v0 H0]. rewrite H0 in Hc. injection Hc as <-. discriminate. }
  assert (Hlt : j < length (pipe q)) by (apply lookup_lt_Some in Hc; lia).
  destruct (lookup_lt_is_Some_2 _ _ Hlt) as [c' Hc'].
  pose proof (inv_chain q HI j c c' Hc Hc') as Hok. rewrite Hst in Hok.
  assert (Happ : app_node (node c)).
  { destruct Hac as [_ Hn]. apply (Hn j). unfold nodes. by rewrite list_lookup_fmap, Hc. }
  rewrite (Refinement.take_nodes_S q (S j) c Hc). destruct (node c) eqn:En; simpl in Hok; try done.
  destruct Hok as (s & Hprev & Hpr). simpl in Happ. destruct Happ as [-> ->].
  pose proof (Refinement.chain_refines_fold_inv q HI j c' Hc') as Hag. rewrite Hprev in Hag. simpl in Hag.
  rewrite (app_chain_take q (S j) Hac) in Hag by lia. injection Hag as Hs.
  rewrite task_values_app. simpl. rewrite sumZ_snoc, Hs.
  unfold task_promise, newRunningTotal in Hpr. simpl in Hpr. injection Hpr as ->. done.
Qed.

(** While the task of cell [i] runs, the completed tasks are the tasks
    before it. *)
Lemma awaiting_tasksComplete q i o :
  inv q -> status_at q i = Some (Awaiting o) ->
  tasksComplete q = length (task_values (take i (nodes q))).
Proof. intros HI Hi. rewrite length_task_values. exact (Returns.awaiting_count q i o HI Hi). Qed.

(** Settling a task of the component makes the completed total the
    total it published. *)
Lemma settle_completed_total q i v q' :
  inv q -> app_chain q -> status_at q i = Some (Awaiting (Fulfils v)) ->
  Chain.settle_step i q = Some q' -> completed_total q' = v.
Proof.
  intros HI Hac Hi Hs. destruct (status_at_lookup q i _ Hi) as (c & Hc & Hst).
  pose proof (awaiting_total q i v HI Hac Hi) as Hv.
  pose proof (awaiting_tasksComplete q i _ HI Hi) as Htc.
  unfold Chain.settle_step in Hs. rewrite Hc in Hs. destruct c as [n st]. simpl in Hst. subst st.
  destruct n; try discriminate. injection Hs as <-.
  destruct (grows_by_barriers_register (set_status i (Fulfilled v) q)) as (l & Hl & Hb).
  unfold completed_total. rewrite Hl, nodes_set_status, task_values_app, (task_values_barriers l Hb), app_nil_r.
  assert (Hlen : length (task_values (take (S i) (nodes q))) = S (length (task_values (take i (nodes q))))).
  { rewrite (Refinement.take_nodes_S q i _ Hc), task_values_app, length_app. simpl. lia. }
  rewrite Returns.tasksComplete_register, tasksComplete_set_status, Htc, <- Hlen, take_task_values. by rewrite Hv.
Qed.

Lemma completed_total_same q q' :
  tasksComplete q' = tasksComplete q -> grows_by_barriers q q' -> completed_total q' = completed_total q.
Proof.
  intros Ht (l & Hl & Hb). unfold completed_total.
  by rewrite Ht, Hl, task_values_app, (task_values_barriers l Hb), app_nil_r.
Qed.

Lemma completed_total_push q d ci p :
  inv q -> completed_total (Chain.pushPromiseToQueue d ci p q) = completed_total q.
Proof.
  intros HI. unfold completed_total, nodes. simpl. rewrite fmap_app, task_values_app, take_app_le; [done |].
  rewrite length_task_values. fold (nodes q). rewrite <- (inv_queueLength q HI).
  apply completed_le_submitted_inv, HI.
Qed.

(** ** The live queue and the discarded ones *)

Lemma queue_of_live a : queue_of a (live_gen a) = Some (asyncChainQueue a).
Proof. unfold queue_of, all_queues, live_gen. apply lookup_snoc_eq. Qed.

Lemma queue_of_live_eq a g : live_gen a = g -> queue_of a g = Some (asyncChainQueue a).
Proof. intros <-. apply queue_of_live. Qed.

Lemma queue_of_le a g q : queue_of a g = Some q -> g <= live_gen a.
Proof.
  unfold queue_of, all_queues, live_gen. intros H. apply lookup_lt_Some in H.
  rewrite length_app in H. simpl in H. lia.
Qed.

Lemma queue_of_discarded a g : g < live_gen a -> queue_of a g = discarded a !! g.
Proof. unfold queue_of, all_queues, live_gen. intros. by apply lookup_snoc_lt. Qed.

Lemma update_live a f :
  asyncChainQueue (update_queue (live_gen a) f a) = f (asyncChainQueue a) /\
  discarded (update_queue (live_gen a) f a) = discarded a.
Proof. unfold update_queue. by rewrite Nat.eqb_refl. Qed.

(** While the discarded queues are quiet, the [then] callback selected
    is the live queue's. *)
Lemma first_start_live a g i : stale_quiet a -> first_start a = Some (g, i) -> g = live_gen a.
Proof.
  intros Hs Hf. destruct (first_start_Some _ _ _ Hf) as (q & Hq & Hst & _).
  pose proof (queue_of_le _ _ _ Hq). destruct (decide (g = live_gen a)) as [|Hne]; [done |].
  rewrite (Hs g q) in Hst by (done || lia). discriminate.
Qed.

Lemma stale_quiet_same a a' : discarded a' = discarded a -> stale_quiet a -> stale_quiet a'.
Proof.
  intros Hd Hs g q Hg Hq. unfold live_gen in Hg. rewrite Hd in Hg.
  rewrite queue_of_discarded in Hq by (unfold live_gen; by rewrite Hd).
  rewrite Hd, <- queue_of_discarded in Hq by done. by apply (Hs g).
Qed.

(** A timer stays well-formed when the discarded queues are kept and,
    if it belongs to the live queue, its task is still running. *)
Lemma timer_ok_live a a' t :
  discarded a' = discarded a -> timer_ok a t ->
  (timer_gen t = live_gen a -> forall o,
     status_at (asyncChainQueue a) (timer_cell t) = Some (Awaiting o) ->
     status_at (asyncChainQueue a') (timer_cell t) = Some (Awaiting o)) ->
  timer_ok a' t.
Proof.
  intros Hd [Hsig (q & Hq & Hst)] Hlive. split; [done |].
  pose proof (queue_of_le _ _ _ Hq) as Hle.
  assert (Hl : live_gen a' = live_gen a) by (unfold live_gen; by rewrite Hd).
  destruct (decide (timer_gen t = live_gen a)) as [E|Hne].
  - rewrite E, <- Hl, queue_of_live. eexists. split; [done |].
    apply Hlive; [done |]. rewrite E, queue_of_live in Hq. by injection Hq as ->.
  - exists q. rewrite queue_of_discarded by lia. rewrite Hd, <- queue_of_discarded by lia. done.
Qed.

Lemma NoDup_delete_lookup {A} (l : list A) k x :
  l !! k = Some x -> NoDup l -> NoDup (delete k l) /\ x ∉ delete k l.
Proof.
  intros Hk Hnd. rewrite (delete_Permutation l k x Hk) in Hnd.
  apply NoDup_cons in Hnd as [Hx Hnd]. done.
Qed.

Lemma elem_of_delete_lookup {A} (l : list A) k x y : l !! k = Some x -> y ∈ delete k l -> y ∈ l.
Proof. intros Hk Hy. rewrite (delete_Permutation l k x Hk). by apply elem_of_cons; right. Qed.

(** ** What a [then] callback of the chain changes *)

Lemma start_step_fields (q q' : AQueue) i :
  Chain.start_step i q = Some q' ->
  nodes q' = nodes q /\ tasksComplete q' = tasksComplete q /\ keeps_awaiting q q'.
Proof.
  unfold Chain.start_step. intros H. destruct i as [|j]; [done |].
  destruct (pipe q !! S j) as [[n []]|] eqn:Hc; try done.
  assert (Hnot : forall o, status_at q (S j) <> Some (Awaiting o)) by (unfold status_at; by rewrite Hc).
  destruct (status <$> pipe q !! j) as [st'|]; [| done].
  destruct n, st'; simplify_eq; try unfold Gate.barrier_reached;
    (split_and!; [apply nodes_set_status | apply tasksComplete_set_status |]);
    (eapply keeps_awaiting_trans; [by apply keeps_awaiting_set_status |]);
    by apply keeps_awaiting_same.
Qed.

Lemma start_step_async (q q' : AQueue) i d ci pr st s :
  pipe q !! i = Some (mkCell (NAsync d ci pr) st) -> status_at q (pred i) = Some (Fulfilled s) ->
  Chain.start_step i q = Some q' -> status_at q' i = Some (Awaiting (pr (ci s d))).
Proof.
  intros Hc Hp H. unfold Chain.start_step in H. destruct i as [|j]; [done |].
  rewrite Hc in H. simpl in Hp. unfold status_at in Hp. rewrite Hp in H.
  destruct st; try done. injection H as <-. unfold status_at. by rewrite (lookup_set_status_eq q _ _ _ Hc).
Qed.

Lemma start_step_pending (q q' : AQueue) i :
  Chain.start_step i q = Some q' -> status_at q i = Some Pending.
Proof.
  unfold Chain.start_step, status_at. intros H. destruct i as [|j]; [done |].
  destruct (pipe q !! S j) as [[n []]|]; done.
Qed.

(** ** The invariant is kept by microtasks *)

Lemma live_wf a : app_wf a -> Chain.reachable (asyncChainQueue a) /\ app_chain (asyncChainQueue a).
Proof.
  intros Hwf. pose proof (wf_queues a Hwf) as H. unfold all_queues in H.
  apply Forall_app in H as [_ H]. by inversion H.
Qed.

Lemma app_chains a : app_wf a -> Forall app_chain (all_queues a).
Proof. intros Hwf. eapply Forall_impl; [apply (wf_queues a Hwf) | by intros q [_ ?]]. Qed.

(** A cell that has not started has no timer. *)
Lemma timer_key_fresh a i :
  app_wf a -> status_at (asyncChainQueue a) i = Some Pending ->
  (live_gen a, i) ∉ timer_key <$> timers a.
Proof.
  intros Hwf Hp Hin. apply list_elem_of_fmap in Hin as (t & Hkey & Hin).
  pose proof (wf_timers a Hwf) as Ht. rewrite Forall_forall in Ht.
  destruct (Ht t Hin) as [_ (q & Hq & Hst)]. unfold timer_key in Hkey. injection Hkey as Hg Hc.
  rewrite <- Hg, queue_of_live in Hq. injection Hq as <-. rewrite <- Hc, Hp in Hst. discriminate.
Qed.

(** The invariant after a change of the live queue, the timers and the
    total that keeps the discarded queues and the reset token. *)
Lemma app_wf_change a a' :
  app_wf a -> discarded a' = discarded a -> resetCounter a' = resetCounter a ->
  Chain.reachable (asyncChainQueue a') -> app_chain (asyncChainQueue a') ->
  Forall (timer_ok a') (timers a') -> NoDup (timer_key <$> timers a') ->
  runningTotal a' = completed_total (asyncChainQueue a') ->
  app_wf a'.
Proof.
  intros Hwf Hd Hr Hreach Hchain Ht Hnd Htot. split; try done.
  - rewrite Hr, (wf_gen a Hwf). unfold live_gen. by rewrite Hd.
  - pose proof (wf_queues a Hwf) as H. unfold all_queues in *. rewrite Hd.
    apply Forall_app in H as [H _]. apply Forall_app. split; [done | by constructor].
  - exact (stale_quiet_same a a' Hd (wf_stale a Hwf)).
Qed.

Lemma app_wf_start a g i :
  app_wf a -> first_start a = Some (g, i) -> app_wf (run_micro (MStart g i) a).
Proof.
  intros Hwf Hf. pose proof (first_start_live a g i (wf_stale a Hwf) Hf) as ->.
  destruct (next_start_runs a _ i (app_chains a Hwf) Hf) as (q & q' & Hq & Hq' & _ & _).
  rewrite queue_of_live in Hq. injection Hq as <-.
  destruct (start_step_fields _ _ _ Hq') as (Hn & Htc & Hkeep).
  destruct (start_task_spec _ i a _ q' (queue_of_live a) Hq') as (ts & Ht & Hts). simpl. rewrite Ht.
  destruct (update_live a (fun _ => q')) as [Hlive Hdisc].
  destruct (update_queue_fields (live_gen a) (fun _ => q') a) as (Htm & Hclk & Hrc & Hobs & Hrt & Hlg).
  destruct (live_wf a Hwf) as [Hreach Hchain].
  assert (Hlg' : live_gen (set_timers (timers a ++ ts) (update_queue (live_gen a) (fun _ => q') a)) = live_gen a)
    by exact Hlg.
  apply (app_wf_change a); simpl; rewrite ?Hlive, ?Hdisc, ?Hrc, ?Hrt; try done.
  - eapply (reachable_exec (Chain.EvStart i)); [exact Hreach | exact Hq'].
  - by apply (app_chain_nodes (asyncChainQueue a)).
  - apply Forall_app. split.
    + eapply Forall_impl; [apply (wf_timers a Hwf) |]. intros t Hok.
      apply (timer_ok_live a); [simpl; by rewrite Hdisc | done |].
      intros _ o Ho. simpl. rewrite Hlive. by apply Hkeep.
    + destruct Hts as [-> | (d & ci & pr & st & s & Hc & Hp & ->)]; [done |].
      repeat constructor; simpl; [by rewrite (wf_gen a Hwf) |].
      rewrite queue_of_live_eq by exact Hlg'. eexists. split; [done |]. simpl. rewrite Hlive.
      rewrite (start_step_async _ _ _ _ _ _ _ _ Hc Hp Hq').
      assert (Happ : app_node (NAsync d ci pr)).
      { destruct Hchain as [_ Hnodes]. destruct i as [|j]; [by unfold Chain.start_step in Hq' |].
        apply (Hnodes j). unfold nodes. by rewrite list_lookup_fmap, Hc. }
      destruct Happ as [-> ->]. done.
  - rewrite fmap_app. apply NoDup_app. split_and!; [apply (wf_timers_nodup a Hwf) | |].
    + destruct Hts as [-> | (d & ci & pr & st & s & Hc & Hp & ->)];
        [intros ? ? Hx; by apply not_elem_of_nil in Hx |].
      intros x Hx Hin. apply list_elem_of_singleton in Hin as ->.
      exact (timer_key_fresh a i Hwf (start_step_pending _ _ _ Hq') Hx).
    + destruct Hts as [-> | (d & ci & pr & st & s & Hc & Hp & ->)]; [constructor | apply NoDup_singleton].
  - rewrite (wf_total a Hwf). symmetry. apply completed_total_same; [done | by apply grows_by_barriers_same].
Qed.

Lemma app_wf_observe a k : app_wf a -> app_wf (run_micro (MObserve k) a).
Proof.
  intros Hwf. simpl. destruct (observers a !! k) as [o|]; [| done].
  destruct (observer_callback_fields (obs_kind o) (set_observers (delete k (observers a)) a))
    as (_ & _ & Ht & Hr & Hrt & _ & Hl & Hd).
  destruct (live_wf a Hwf) as [Hreach Hchain].
  apply (app_wf_change a); rewrite ?Ht, ?Hr, ?Hrt, ?Hl, ?Hd; simpl; try done.
  - eapply Forall_impl; [apply (wf_timers a Hwf) |]. intros t Hok.
    apply (timer_ok_live a); [by rewrite Hd | done |]. intros _ o' Ho. by rewrite Hl.
  - apply (wf_timers_nodup a Hwf).
  - apply (wf_total a Hwf).
Qed.

Lemma app_wf_micro a m : app_wf a -> next_micro a = Some m -> app_wf (run_micro m a).
Proof.
  intros Hwf Hn. unfold next_micro in Hn. destruct (first_start a) as [[g i]|] eqn:Hf.
  - injection Hn as <-. by apply app_wf_start.
  - destruct (first_observer a); [| done]. injection Hn as <-. by apply app_wf_observe.
Qed.

(** After a macrotask, the microtasks restore the whole invariant. *)
Lemma quiesce_inv a : app_wf a -> app_inv (quiesce (micro_measure a) a).
Proof.
  intros Hwf. split.
  - apply (quiesce_ind app_wf); [intros; by apply app_wf_micro | done].
  - apply quiesce_quiescent_gen; [by apply app_chains | done].
Qed.

(** ** The invariant is kept by macrotasks *)

Lemma app_chain_barriers q q' : grows_by_barriers q q' -> app_chain q -> app_chain q'.
Proof.
  intros (l & Hl & Hb) [H0 Hn]. unfold app_chain. rewrite Hl. split.
  - rewrite lookup_app_l; [done | by eapply lookup_lt_Some].
  - intros i n Hi. apply lookup_app_Some in Hi as [Hi | [_ Hi]]; [by eapply Hn |].
    rewrite Forall_lookup in Hb. specialize (Hb _ _ Hi). by destruct n.
Qed.

Lemma app_chain_push q d :
  app_chain q -> app_chain (Chain.pushPromiseToQueue d createArgumentsForTask task_promise q).
Proof.
  intros [H0 Hn]. unfold app_chain, nodes in *. simpl. rewrite fmap_app. split.
  - rewrite lookup_app_l; [done | by eapply lookup_lt_Some].
  - intros i n Hi. apply lookup_app_Some in Hi as [Hi | [_ Hi]]; [by eapply Hn |].
    apply list_lookup_singleton_Some in Hi as [_ <-]. done.
Qed.

(** The invariant after an operation on the live queue only. *)
Lemma app_wf_live a a' :
  app_wf a -> discarded a' = discarded a -> resetCounter a' = resetCounter a ->
  timers a' = timers a -> runningTotal a' = runningTotal a ->
  Chain.reachable (asyncChainQueue a') -> app_chain (asyncChainQueue a') ->
  keeps_awaiting (asyncChainQueue a) (asyncChainQueue a') ->
  completed_total (asyncChainQueue a') = completed_total (asyncChainQueue a) ->
  app_wf a'.
Proof.
  intros Hwf Hd Hr Ht Hrt Hreach Hchain Hkeep Htot. apply (app_wf_change a); try done.
  - rewrite Ht. eapply Forall_impl; [apply (wf_timers a Hwf) |]. intros t Hok.
    apply (timer_ok_live a); [done | done |]. intros _ o. apply Hkeep.
  - rewrite Ht. apply (wf_timers_nodup a Hwf).
  - rewrite Hrt, Htot. apply (wf_total a Hwf).
Qed.

Lemma close_facts (q : AQueue) :
  grows_by_barriers q (Tracker.closeQueueAndGetFinalResult q).1 /\
  keeps_awaiting q (Tracker.closeQueueAndGetFinalResult q).1 /\
  tasksComplete (Tracker.closeQueueAndGetFinalResult q).1 = tasksComplete q.
Proof.
  simpl. split_and!.
  - eapply grows_by_barriers_trans; [apply grows_by_barriers_closeQueue | by apply grows_by_barriers_same].
  - eapply keeps_awaiting_trans; [apply keeps_awaiting_closeQueue | by apply keeps_awaiting_same].
  - apply closeQueue_counters.
Qed.

Lemma drain_facts (q : AQueue) :
  grows_by_barriers q (Tracker.getFinalResultAndCloseWhenAllTasksComplete q).1 /\
  keeps_awaiting q (Tracker.getFinalResultAndCloseWhenAllTasksComplete q).1 /\
  tasksComplete (Tracker.getFinalResultAndCloseWhenAllTasksComplete q).1 = tasksComplete q.
Proof.
  unfold Tracker.getFinalResultAndCloseWhenAllTasksComplete. case_match; simpl; split_and!.
  - eapply grows_by_barriers_trans; [apply grows_by_barriers_closeQueue | by apply grows_by_barriers_same].
  - eapply keeps_awaiting_trans; [apply keeps_awaiting_closeQueue | by apply keeps_awaiting_same].
  - apply closeQueue_counters.
  - by apply grows_by_barriers_same.
  - by apply keeps_awaiting_same.
  - done.
Qed.

Lemma open_facts (q : AQueue) :
  nodes (Gate.openQueue q) = nodes q /\ keeps_awaiting q (Gate.openQueue q) /\
  tasksComplete (Gate.openQueue q) = tasksComplete q.
Proof.
  split_and!; [| apply keeps_awaiting_openQueue | unfold Gate.openQueue; by case_match].
  unfold nodes. rewrite Gate.pipe_openQueue. apply nodes_release_all.
Qed.

Lemma settle_some (q : AQueue) i v :
  inv q -> status_at q i = Some (Awaiting (Fulfils v)) ->
  Chain.settle_step i q = Some (Tracker.registerTaskCompletion (set_status i (Fulfilled v) q)).
Proof.
  intros HI Hi. destruct (status_at_lookup q i _ Hi) as (c & Hc & Hst).
  destruct i as [|j].
  { destruct (inv_init q HI) as [v0 H0]. rewrite H0 in Hc. injection Hc as <-. discriminate. }
  assert (Hlt : j < length (pipe q)) by (apply lookup_lt_Some in Hc; lia).
  destruct (lookup_lt_is_Some_2 _ _ Hlt) as [c' Hc'].
  pose proof (inv_chain q HI j c c' Hc Hc') as Hok. rewrite Hst in Hok.
  unfold Chain.settle_step. rewrite Hc. destruct c as [n st]. simpl in *. subst st.
  by destruct n.
Qed.

Lemma app_wf_reset a : app_inv a -> app_wf (reset a).
Proof.
  intros [Hwf Hq].
  assert (Hfs : first_start a = None) by (unfold next_micro in Hq; by destruct (first_start a) as [[]|]).
  assert (Hall : all_queues (reset a) = all_queues a ++ [Chain.new 0%Z false]) by done.
  assert (Hqof : forall g q, queue_of a g = Some q -> queue_of (reset a) g = Some q).
  { intros g q H. unfold queue_of in *. rewrite Hall, lookup_app_l; [done | by eapply lookup_lt_Some]. }
  split.
  - simpl. unfold live_gen. simpl. rewrite length_app, (wf_gen a Hwf). unfold live_gen. simpl. lia.
  - rewrite Hall. apply Forall_app. split; [apply (wf_queues a Hwf) |]. repeat constructor.
    + apply Chain.reachable_new.
    + intros i n Hi. simpl in Hi. by destruct i.
  - eapply Forall_impl; [apply (wf_timers a Hwf) |]. intros t [Hs (q & Hq' & Hst)].
    split; [done |]. exists q. split; [by apply Hqof | done].
  - apply (wf_timers_nodup a Hwf).
  - intros g q Hg Hq'. unfold queue_of in Hq'. rewrite Hall in Hq'.
    apply lookup_app_Some in Hq' as [Hq' | [Hlen _]]; [by apply (first_start_None a Hfs g) |].
    unfold live_gen, all_queues in *. simpl in *. rewrite length_app in *. simpl in *. lia.
  - done.
Qed.

Lemma app_wf_submit a : app_wf a -> app_wf (onSubmit a).
Proof.
  intros Hwf. destruct (live_wf a Hwf) as [Hr Hc].
  apply (app_wf_live a); simpl; try done.
  - by apply reachable_pushPromise.
  - by apply app_chain_push.
  - eapply keeps_awaiting_trans; [| apply keeps_awaiting_append]. by apply keeps_awaiting_same.
  - apply completed_total_push. by apply reachable_inv.
Qed.

Lemma app_wf_halt_close a : app_wf a -> app_wf (halt_closeThenFinish a).
Proof.
  intros Hwf. destruct (live_wf a Hwf) as [Hr Hc]. unfold halt_closeThenFinish.
  destruct (close_facts (asyncChainQueue a)) as (Hg & Hk & Ht).
  pose proof (reachable_close _ Hr) as Hr'.
  destruct (Tracker.closeQueueAndGetFinalResult (asyncChainQueue a)) as [q r]. simpl in *.
  apply (app_wf_live a); simpl; try done.
  - by apply (app_chain_barriers (asyncChainQueue a)).
  - by apply completed_total_same.
Qed.

Lemma app_wf_halt_finish a : app_wf a -> app_wf (halt_finishThenClose a).
Proof.
  intros Hwf. destruct (live_wf a Hwf) as [Hr Hc]. unfold halt_finishThenClose. simpl.
  destruct (drain_facts (asyncChainQueue a)) as (Hg & Hk & Ht).
  pose proof (reachable_drain _ Hr) as Hr'.
  destruct (Tracker.getFinalResultAndCloseWhenAllTasksComplete (asyncChainQueue a)) as [q r]. simpl in *.
  apply (app_wf_live a); simpl; try done.
  - by apply (app_chain_barriers (asyncChainQueue a)).
  - by apply completed_total_same.
Qed.

Lemma app_wf_open a : app_wf a -> app_wf (openQueue a).
Proof.
  intros Hwf. destruct (live_wf a Hwf) as [Hr Hc].
  destruct (open_facts (asyncChainQueue a)) as (Hn & Hk & Ht).
  apply (app_wf_live a); simpl; try done.
  - by apply reachable_open.
  - by apply (app_chain_nodes (asyncChainQueue a)).
  - apply completed_total_same; [done | by apply grows_by_barriers_same].
Qed.

Lemma app_wf_same a a' :
  app_wf a -> asyncChainQueue a' = asyncChainQueue a -> discarded a' = discarded a ->
  resetCounter a' = resetCounter a -> timers a' = timers a -> runningTotal a' = runningTotal a ->
  app_wf a'.
Proof.
  intros Hwf Hl Hd Hr Ht Hrt. destruct (live_wf a Hwf) as [Hreach Hc].
  apply (app_wf_live a); rewrite ?Hl; try done. apply keeps_awaiting_refl.
Qed.

Lemma app_wf_tick a : app_wf a -> app_wf (tick a).
Proof. intros Hwf. unfold tick. case_match; by apply (app_wf_same a). Qed.

Lemma app_wf_timer a k a' : app_wf a -> timer_fires k a = Some a' -> app_wf a'.
Proof.
  intros Hwf H. unfold timer_fires in H. destruct (timers a !! k) as [t|] eqn:Hk; [| done].
  destruct (timer_due t <=? clock a); [| done].
  pose proof (wf_timers a Hwf) as Hts. rewrite Forall_lookup in Hts.
  destruct (Hts k t Hk) as [Hsig (q & Hq & Hst)].
  destruct (NoDup_delete_lookup (timer_key <$> timers a) k (timer_key t)) as [Hnd Hnot];
    [by rewrite list_lookup_fmap, Hk | apply (wf_timers_nodup a Hwf) |].
  rewrite <- list_fmap_delete in Hnd, Hnot.
  assert (Hold : forall t', t' ∈ delete k (timers a) -> timer_ok a t').
  { intros t' Ht'. apply (elem_of_delete_lookup _ k t) in Ht'; [| done].
    apply list_elem_of_lookup in Ht' as [j Hj]. by apply (Hts j). }
  destruct (Nat.eqb_spec (resetCounter a) (signalValue t)) as [Hr|Hr]; injection H as <-.
  - (* the task of the live queue is resolved *)
    assert (Hg : timer_gen t = live_gen a) by (rewrite <- Hsig, <- Hr; apply (wf_gen a Hwf)).
    rewrite Hg, queue_of_live in Hq. injection Hq as <-.
    destruct (live_wf a Hwf) as [Hreach Hchain]. pose proof (reachable_inv _ Hreach) as HI.
    pose proof (settle_some _ _ _ HI Hst) as Hs.
    set (a1 := set_runningTotal (timer_newRunningTotal t) (set_timers (delete k (timers a)) a)).
    assert (Hl1 : live_gen a1 = live_gen a) by done.
    rewrite Hg, <- Hl1. destruct (update_live a1 (fun q => default q (Chain.settle_step (timer_cell t) q)))
      as [Hlive Hdisc].
    destruct (update_queue_fields (live_gen a1) (fun q => default q (Chain.settle_step (timer_cell t) q)) a1)
      as (Htm & _ & Hrc & _ & Hrt & _).
    simpl in Hlive. rewrite Hs in Hlive. simpl in Hlive.
    apply (app_wf_change a); rewrite ?Hlive, ?Hdisc, ?Htm, ?Hrc, ?Hrt; try done.
    + eapply (reachable_exec (Chain.EvSettle (timer_cell t))); [exact Hreach | exact Hs].
    + eapply app_chain_barriers; [| exact Hchain].
      eapply grows_by_barriers_trans; [| apply grows_by_barriers_register].
      apply grows_by_barriers_same, nodes_set_status.
    + apply Forall_forall. intros t' Ht'. apply (timer_ok_live a); [by rewrite Hdisc | by apply Hold |].
      intros Hg' o Ho. rewrite Hlive. apply keeps_awaiting_register.
      rewrite status_at_set_status_ne; [done |]. intros Hc. apply Hnot.
      apply list_elem_of_fmap. exists t'. split; [| done]. unfold timer_key. by rewrite Hg, Hg', Hc.
    + symmetry. by apply (settle_completed_total (asyncChainQueue a) (timer_cell t)).
  - (* a timer of an older generation does nothing *)
    apply (app_wf_change a); simpl; try done.
    + apply (live_wf a Hwf).
    + apply (live_wf a Hwf).
    + apply Forall_forall. intros t' Ht'. apply (timer_ok_live a); [done | by apply Hold |]. done.
    + apply (wf_total a Hwf).
Qed.

Lemma app_wf_exec e a a1 : app_inv a -> exec e a = Some a1 -> app_wf a1.
Proof.
  intros [Hwf Hq] He. destruct e; simpl in He; try (injection He as <-).
  - by apply app_wf_reset.
  - by apply app_wf_submit.
  - by apply app_wf_halt_close.
  - by apply app_wf_halt_finish.
  - by apply app_wf_open.
  - by apply (app_wf_same a).
  - by apply (app_wf_timer a k).
  - by apply app_wf_tick.
Qed.

Lemma app_inv_step a a' : app_inv a -> step a a' -> app_inv a'.
Proof.
  intros Hinv Hs. destruct Hs as [e a0 a1 He]. unfold app_step in He.
  destruct (exec e a0) as [a2|] eqn:E; simpl in He; [| done].
  injection He as <-. apply quiesce_inv. by apply (app_wf_exec e a0).
Qed.

Lemma app_inv_init : app_inv init.
Proof.
  split; [| reflexivity]. split; try done.
  - repeat constructor; [apply Chain.reachable_new | intros i n Hi; simpl in Hi; by destruct i].
  - constructor.
  - intros g q Hg. unfold live_gen in Hg. simpl in Hg. lia.
Qed.

Lemma reachable_app_inv a : reachable a -> app_inv a.
Proof. intros Hr. eapply (star_inv step app_inv); [apply app_inv_step | exact Hr | apply app_inv_init]. Qed.

(** ** The discarded queues *)

Lemma timer_fires_discarded a k a' :
  app_wf a -> timer_fires k a = Some a' -> discarded a' = discarded a.
Proof.
  intros Hwf H. unfold timer_fires in H. destruct (timers a !! k) as [t|] eqn:Hk; [| done].
  destruct (timer_due t <=? clock a); [| done].
  pose proof (wf_timers a Hwf) as Hts. rewrite Forall_lookup in Hts. destruct (Hts k t Hk) as [Hsig _].
  destruct (Nat.eqb_spec (resetCounter a) (signalValue t)) as [Hr|Hr]; injection H as <-; [| done].
  assert (Hg : timer_gen t = live_gen a) by (rewrite <- Hsig, <- Hr; apply (wf_gen a Hwf)).
  rewrite Hg. set (a1 := set_runningTotal _ _). change (live_gen a) with (live_gen a1). apply (update_live a1).
Qed.

(** A timer of an older generation captured an older token. *)
Lemma stale_timer_mismatch a k t :
  app_wf a -> timers a !! k = Some t -> timer_gen t < live_gen a -> resetCounter a <> signalValue t.
Proof.
  intros Hwf Hk Hlt. pose proof (wf_timers a Hwf) as Hts. rewrite Forall_lookup in Hts.
  destruct (Hts k t Hk) as [Hsig _]. rewrite (wf_gen a Hwf), Hsig. lia.
Qed.

Lemma exec_discarded e a a1 : app_inv a -> exec e a = Some a1 -> discarded a `prefix_of` discarded a1.
Proof.
  intros [Hwf _] He. destruct e; simpl in He; try (injection He as <-).
  - by exists [asyncChainQueue a].
  - done.
  - unfold halt_closeThenFinish. by destruct (Tracker.closeQueueAndGetFinalResult _).
  - unfold halt_finishThenClose. by destruct (Tracker.getFinalResultAndCloseWhenAllTasksComplete _).
  - done.
  - done.
  - by rewrite (timer_fires_discarded a k a1).
  - unfold tick. by case_match.
Qed.

Lemma micro_discarded a m :
  app_wf a -> next_micro a = Some m -> discarded (run_micro m a) = discarded a.
Proof.
  intros Hwf Hn. unfold next_micro in Hn. destruct (first_start a) as [[g i]|] eqn:Hf.
  - injection Hn as <-. pose proof (first_start_live a g i (wf_stale a Hwf) Hf) as ->.
    destruct (next_start_runs a _ i (app_chains a Hwf) Hf) as (q & q' & Hq & Hq' & _).
    destruct (start_task_spec _ i a q q' Hq Hq') as (ts & Ht & _). simpl. rewrite Ht. apply (update_live a).
  - destruct (first_observer a) as [k|]; [| done]. injection Hn as <-. simpl.
    destruct (observers a !! k) as [o|]; [| done].
    by destruct (observer_callback_fields (obs_kind o) (set_observers (delete k (observers a)) a))
      as (_ & _ & _ & _ & _ & _ & _ & ->).
Qed.

Lemma quiesce_discarded fuel a : app_wf a -> discarded (quiesce fuel a) = discarded a.
Proof.
  intros Hwf. cut (app_wf (quiesce fuel a) /\ discarded (quiesce fuel a) = discarded a); [tauto |].
  apply (quiesce_ind (fun x => app_wf x /\ discarded x = discarded a)); [| done].
  intros x m [Hx Hd] Hn. split; [by apply app_wf_micro | by rewrite micro_discarded].
Qed.

Lemma step_discarded a a' : app_inv a -> step a a' -> discarded a `prefix_of` discarded a'.
Proof.
  intros Hinv Hs. destruct Hs as [e a0 a1 He]. unfold app_step in He.
  destruct (exec e a0) as [a2|] eqn:E; simpl in He; [| done]. injection He as <-.
  rewrite quiesce_discarded by (by apply (app_wf_exec e a0)). by apply (exec_discarded e).
Qed.

(** ** Runs of events *)

Lemma app_run_events_star es a a' : run_events es a = Some a' -> star step a a'.
Proof.
  revert a. induction es as [|e es IH]; intros a H; simpl in H; [injection H as ->; constructor |].
  destruct (app_step e a) as [a1|] eqn:He; simpl in H; [| done].
  eapply star_step; [by econstructor | by apply IH].
Qed.

(** The state a run of events from the constructor reaches (the
    constructor's state if an event of the run is not enabled). *)
Lemma reachable_run es : reachable (default init (run_events es init)).
Proof.
  destruct (run_events es init) as [a|] eqn:E; simpl; [by apply (app_run_events_star es) | constructor].
Qed.
End AppProofs.
