(* ===== verification/AppObservers.v ===== *)
(** * The observers of the halting handlers after a reset

    The callbacks that [halt_closeThenFinish] and [halt_finishThenClose]
    attach to the returned promise ([App.observers]) do not check the
    reset token: they read the live component's [runningTotal] and
    [IsClosed].  This file shows that they need not: a queue replaced by
    [reset()] never changes again, and at every checkpoint none of its
    observers was ready, so an observer of a replaced queue is never
    selected by [App.next_micro] and stays registered forever
    ([step_keeps_stale_observer]). *)

From stdpp Require Import base list.
From S2P Require Import Prelude Types Tracker Chain App AppProofs.

Module AppObservers.
Import App AppProofs.

(** The halting handlers, with the pair they destructure projected. *)
Lemma halt_close_eq a :
  halt_closeThenFinish a =
  set_observers (observers a ++
      [mkObserver CloseThenFinish (live_gen a) (Tracker.closeQueueAndGetFinalResult (asyncChainQueue a)).2])
    (set_asyncChainQueue (Tracker.closeQueueAndGetFinalResult (asyncChainQueue a)).1 a).
Proof. unfold halt_closeThenFinish. by destruct (Tracker.closeQueueAndGetFinalResult (asyncChainQueue a)). Qed.

Lemma halt_finish_eq a :
  halt_finishThenClose a =
  set_observers (observers a ++
      [mkObserver FinishThenClose (live_gen a)
         (Tracker.getFinalResultAndCloseWhenAllTasksComplete (asyncChainQueue a)).2])
    (set_asyncChainQueue (Tracker.getFinalResultAndCloseWhenAllTasksComplete (asyncChainQueue a)).1
       (set_waitingToFinish true a)).
Proof.
  unfold halt_finishThenClose.
  change (asyncChainQueue (set_waitingToFinish true a)) with (asyncChainQueue a).
  change (observers (set_waitingToFinish true a)) with (observers a).
  change (live_gen (set_waitingToFinish true a)) with (live_gen a).
  by destruct (Tracker.getFinalResultAndCloseWhenAllTasksComplete (asyncChainQueue a)).
Qed.

(** An observer of a replaced queue. *)
Definition stale (a : App) (o : Observer) : Prop := obs_gen o < live_gen a.

(** A macrotask keeps the discarded queues, or (a reset) discards the
    live one. *)
Lemma exec_discarded_cases e a a1 :
  app_inv a -> exec e a = Some a1 -> discarded a1 = discarded a \/ discarded a1 = all_queues a.
Proof.
  intros [Hwf _] He. destruct e; simpl in He; try (injection He as <-); [by right | left ..].
  all: first [done | by apply (timer_fires_discarded a k) | unfold halt_finishThenClose; by case_match
             | unfold tick; by case_match].
Qed.

(** The queues of the generations older than [b]'s live one are [a]'s. *)
Lemma queue_of_stale a b g :
  discarded b = discarded a \/ discarded b = all_queues a -> g < live_gen b -> queue_of b g = queue_of a g.
Proof.
  intros [Hd | Hd] Hg; rewrite queue_of_discarded, Hd by done; [| done].
  rewrite <- queue_of_discarded; [done |]. unfold live_gen in *. by rewrite <- Hd.
Qed.

Lemma observer_ready_same a b o :
  queue_of b (obs_gen o) = queue_of a (obs_gen o) -> observer_ready b o = observer_ready a o.
Proof. unfold observer_ready. by intros ->. Qed.

(** At a checkpoint no observer is ready. *)
Lemma quiescent_not_ready a o : next_micro a = None -> o ∈ observers a -> observer_ready a o = false.
Proof.
  intros Hn Ho. unfold next_micro in Hn. destruct (first_start a) as [[]|]; [done |].
  apply fmap_None in Hn. apply list_elem_of_lookup in Ho as [k Hk]. by apply (first_observer_None a Hn k).
Qed.

Lemma exec_observers e a a1 : exec e a = Some a1 -> observers a `prefix_of` observers a1.
Proof.
  intros He. destruct e; simpl in He; try (injection He as <-); try done.
  - unfold halt_closeThenFinish. case_match. by eexists.
  - unfold halt_finishThenClose. case_match. by eexists.
  - unfold timer_fires in He. destruct (timers a !! k) as [t|]; [| done].
    destruct (timer_due t <=? clock a); [| done].
    destruct (resetCounter a =? signalValue t); injection He as <-; [| done].
    by rewrite (proj1 (proj2 (proj2 (proj2 (update_queue_fields _ _ _))))).
  - unfold tick. by case_match.
Qed.

Lemma elem_of_delete_ne {A} (l : list A) k x y : l !! k = Some x -> y ∈ l -> y <> x -> y ∈ delete k l.
Proof.
  intros Hk Hy Hne. rewrite (delete_Permutation l k x Hk) in Hy.
  apply elem_of_cons in Hy as [-> | Hy]; [done | exact Hy].
Qed.

(** A microtask removes only the observer it runs, which is ready. *)
Lemma micro_keeps_observer a m o :
  app_wf a -> next_micro a = Some m -> o ∈ observers a -> observer_ready a o = false ->
  o ∈ observers (run_micro m a).
Proof.
  intros Hwf Hn Ho Hnr. unfold next_micro in Hn. destruct (first_start a) as [[g i]|] eqn:Hf.
  - injection Hn as <-. destruct (next_start_runs a g i (app_chains a Hwf) Hf) as (q & q' & Hq & Hq' & _).
    destruct (start_task_spec g i a q q' Hq Hq') as (ts & Ht & _). simpl. rewrite Ht. simpl.
    by rewrite (proj1 (proj2 (proj2 (proj2 (update_queue_fields _ _ _))))).
  - destruct (first_observer a) as [k|] eqn:Hk; [| done]. injection Hn as <-.
    destruct (first_observer_Some a k Hk) as (o' & Ho' & Hr). simpl. rewrite Ho'.
    rewrite (proj1 (proj2 (observer_callback_fields _ _))). simpl.
    apply (elem_of_delete_ne _ k o'); [done | done |]. intros ->. congruence.
Qed.

(** The microtasks of a checkpoint keep an observer of a queue they
    do not change, when it is not ready. *)
Lemma quiesce_keeps_observer fuel a o :
  app_wf a -> o ∈ observers a -> obs_gen o < live_gen a -> observer_ready a o = false ->
  o ∈ observers (quiesce fuel a).
Proof.
  intros Hwf Ho Hg Hnr.
  cut (app_wf (quiesce fuel a) /\ discarded (quiesce fuel a) = discarded a /\ o ∈ observers (quiesce fuel a));
    [tauto |].
  apply (quiesce_ind (fun b => app_wf b /\ discarded b = discarded a /\ o ∈ observers b)); [| done].
  intros b m (Hb & Hd & Hob) Hn. split_and!.
  - by apply app_wf_micro.
  - by rewrite micro_discarded.
  - apply micro_keeps_observer; [done | done | done |].
    rewrite (observer_ready_same a b o); [done |].
    apply queue_of_stale; [by left | unfold live_gen; by rewrite Hd].
Qed.

Lemma live_gen_step a a' : app_inv a -> step a a' -> live_gen a <= live_gen a'.
Proof.
  intros Hinv Hs. destruct (step_discarded a a' Hinv Hs) as [l Hl].
  unfold live_gen. rewrite Hl, length_app. lia.
Qed.

(** One step keeps every observer whose queue is replaced after it. *)
Lemma step_keeps_stale_observer a a' o :
  app_inv a -> step a a' -> o ∈ observers a -> stale a' o -> o ∈ observers a'.
Proof.
  intros Hinv Hs Ho Hg. destruct Hs as [e a0 a1 He]. unfold app_step in He.
  destruct (exec e a0) as [a2|] eqn:E; simpl in He; [| done]. injection He as <-.
  pose proof (app_wf_exec e a0 a2 Hinv E) as Hwf2.
  unfold stale, live_gen in Hg. rewrite quiesce_discarded in Hg by done.
  fold (live_gen a2) in Hg.
  apply quiesce_keeps_observer; [done | | done |].
  - destruct (exec_observers e a0 a2 E) as [l ->]. apply elem_of_app. by left.
  - rewrite (observer_ready_same a0 a2 o); [apply quiescent_not_ready; [apply Hinv | done] |].
    by apply queue_of_stale; [apply (exec_discarded_cases e) |].
Qed.

(** ** The "waiting to finish" indicator *)

(** [waitingToFinish] is set only while a callback of
    [halt_finishThenClose] on the live queue is pending. *)
Definition waiting_ok (a : App) : Prop :=
  waitingToFinish a = true ->
  exists o, o ∈ observers a /\ obs_kind o = FinishThenClose /\ obs_gen o = live_gen a.

Lemma waiting_ok_keep a a1 :
  (waitingToFinish a1 = true -> waitingToFinish a = true) -> live_gen a1 = live_gen a ->
  (forall o, o ∈ observers a -> obs_kind o = FinishThenClose -> o ∈ observers a1) ->
  waiting_ok a -> waiting_ok a1.
Proof.
  intros Hw Hl Hobs Hok Hw1. destruct (Hok (Hw Hw1)) as (o & Ho & Hk & Hg).
  exists o. split_and!; [by apply Hobs | done | congruence].
Qed.

Lemma update_queue_waiting g f a : waitingToFinish (update_queue g f a) = waitingToFinish a.
Proof. unfold update_queue. by case_match. Qed.

Lemma waiting_ok_exec e a a1 : app_inv a -> exec e a = Some a1 -> waiting_ok a -> waiting_ok a1.
Proof.
  intros Hinv He Hok. destruct e; simpl in He; try (injection He as <-).
  - intros H; discriminate.
  - by apply (waiting_ok_keep a).
  - rewrite halt_close_eq. apply (waiting_ok_keep a); [done | done | | done].
    intros o Ho _. apply elem_of_app. by left.
  - rewrite halt_finish_eq. intros _. eexists. split_and!; [apply elem_of_app; right; by left | done | done].
  - intros H; discriminate.
  - by apply (waiting_ok_keep a).
  - unfold timer_fires in He. destruct (timers a !! k) as [t|]; [| done].
    destruct (timer_due t <=? clock a); [| done].
    destruct (resetCounter a =? signalValue t); injection He as <-; [| by apply (waiting_ok_keep a)].
    destruct (update_queue_fields (timer_gen t) (fun q => default q (Chain.settle_step (timer_cell t) q))
      (set_runningTotal (timer_newRunningTotal t) (set_timers (delete k (timers a)) a))) as (_ & _ & _ & Hobs & _ & Hl).
    apply (waiting_ok_keep a); [by rewrite update_queue_waiting | by rewrite Hl | | done].
    intros o Ho _. by rewrite Hobs.
  - apply (waiting_ok_keep a); [unfold tick; by case_match | unfold tick; by case_match | | done].
    intros o Ho _. unfold tick. by case_match.
Qed.

Lemma waiting_ok_micro a m : app_wf a -> next_micro a = Some m -> waiting_ok a -> waiting_ok (run_micro m a).
Proof.
  intros Hwf Hn Hok. unfold next_micro in Hn. destruct (first_start a) as [[g i]|] eqn:Hf.
  - injection Hn as <-. destruct (next_start_runs a g i (app_chains a Hwf) Hf) as (q & q' & Hq & Hq' & _).
    destruct (start_task_spec g i a q q' Hq Hq') as (ts & Ht & _). simpl. rewrite Ht.
    destruct (update_queue_fields g (fun _ => q') a) as (_ & _ & _ & Hobs & _ & Hl).
    apply (waiting_ok_keep a); [simpl; by rewrite update_queue_waiting | exact Hl | | done].
    intros o Ho _. simpl. by rewrite Hobs.
  - destruct (first_observer a) as [k|] eqn:Hk; [| done]. injection Hn as <-.
    destruct (first_observer_Some a k Hk) as (o' & Ho' & _). simpl. rewrite Ho'.
    destruct (obs_kind o') eqn:Ek; [| intros H; discriminate].
    apply (waiting_ok_keep a); [done | done | | done].
    intros o Ho Hko. apply (elem_of_delete_ne _ k o'); [done | done |]. intros ->. congruence.
Qed.

Lemma reachable_waiting_ok a : reachable a -> waiting_ok a.
Proof.
  intros Hr. cut (app_inv a /\ waiting_ok a); [tauto |].
  eapply (star_inv step (fun a => app_inv a /\ waiting_ok a)); [| exact Hr | split; [apply app_inv_init | intros H; discriminate]].
  intros b b' [Hinv Hok] Hs. split; [by apply (app_inv_step b) |].
  destruct Hs as [e b0 b1 He]. unfold app_step in He.
  destruct (exec e b0) as [b2|] eqn:E; simpl in He; [| done]. injection He as <-.
  pose proof (app_wf_exec e b0 b2 Hinv E) as Hwf2.
  cut (app_wf (quiesce (micro_measure b2) b2) /\ waiting_ok (quiesce (micro_measure b2) b2)); [tauto |].
  apply (quiesce_ind (fun x => app_wf x /\ waiting_ok x)); [| split; [done | by apply (waiting_ok_exec e b0)]].
  intros x m [Hx Hxo] Hn. split; [by apply app_wf_micro | by apply waiting_ok_micro].
Qed.
End AppObservers.
