(* ===== verification/AppDrain.v ===== *)
(** * The drain waiters of the component and [openQueue()]

    [halt_finishThenClose()] (lines 124-133) subscribes a drain waiter to
    the live queue when tasks are outstanding
    ([getFinalResultAndCloseWhenAllTasksComplete], lines 71-77) and
    attaches a callback to the promise it returns.  This file shows that
    every drain waiter of the live queue has that callback pending
    ([drain_observed], [reachable_drain_observed]), and that
    [openQueue()] (lines 135-139) clears [waitingToFinish] without
    touching the waiter or its callback ([openQueue_keeps_drain]): the
    queue will close again when the backlog drains. *)

From stdpp Require Import base list.
From S2P Require Import Prelude Types Gate Tracker Chain App Returns AppProofs AppObservers.

Module AppDrain.
Import App Returns AppProofs AppObservers.

(** Every drain waiter of the live queue has its callback pending. *)
Definition drain_observed (a : App) : Prop :=
  forall r, r ∈ drainSubs (asyncChainQueue a) ->
  exists o, o ∈ observers a /\ obs_kind o = FinishThenClose /\ obs_gen o = live_gen a /\ obs_ret o = r.

Lemma drain_observed_keep a a1 :
  (forall r, r ∈ drainSubs (asyncChainQueue a1) -> r ∈ drainSubs (asyncChainQueue a)) ->
  live_gen a1 = live_gen a ->
  (forall o, o ∈ observers a -> obs_kind o = FinishThenClose -> obs_gen o = live_gen a -> o ∈ observers a1) ->
  drain_observed a -> drain_observed a1.
Proof.
  intros Hd Hl Hobs Hok r Hr. destruct (Hok r (Hd r Hr)) as (o & Ho & Hk & Hg & Hret).
  exists o. split_and!; [by apply Hobs | done | congruence | done].
Qed.

(** Registering a completion keeps the drain waiters, or fires them all. *)
Lemma register_drainSubs (q : AQueue) r :
  r ∈ drainSubs (Tracker.registerTaskCompletion q) -> r ∈ drainSubs q.
Proof.
  unfold Tracker.registerTaskCompletion, Tracker.emit_taskComplete. case_match; simpl; [| done].
  intros Hr. by apply elem_of_nil in Hr.
Qed.

Lemma settle_drainSubs (q q' : AQueue) i r :
  Chain.settle_step i q = Some q' -> r ∈ drainSubs q' -> r ∈ drainSubs q.
Proof.
  unfold Chain.settle_step. intros H Hr. repeat case_match; simplify_eq;
    [apply register_drainSubs in Hr |]; by rewrite (proj2 (set_status_rets _ _ _)) in Hr.
Qed.

Lemma drain_observed_exec e a a1 : exec e a = Some a1 -> drain_observed a -> drain_observed a1.
Proof.
  intros He Hok. destruct e; simpl in He; try (injection He as <-).
  - intros r Hr. by apply elem_of_nil in Hr.
  - by apply (drain_observed_keep a).
  - rewrite halt_close_eq. apply (drain_observed_keep a); [| done | | done].
    + intros r. simpl. by rewrite (proj2 (closeQueue_rets _)).
    + intros o Ho _ _. apply elem_of_app. by left.
  - rewrite halt_finish_eq. intros r Hr. simpl in Hr.
    unfold Tracker.getFinalResultAndCloseWhenAllTasksComplete in *. case_match; simpl in Hr.
    + rewrite (proj2 (closeQueue_rets _)) in Hr. destruct (Hok r Hr) as (o & Ho & Hk & Hg & Hret).
      exists o. split_and!; [apply elem_of_app; by left | done | done | done].
    + apply elem_of_app in Hr as [Hr | Hr].
      * destruct (Hok r Hr) as (o & Ho & Hk & Hg & Hret).
        exists o. split_and!; [apply elem_of_app; by left | done | done | done].
      * apply list_elem_of_singleton in Hr as ->.
        eexists. split_and!; [apply elem_of_app; right; by left | done | done | done].
  - apply (drain_observed_keep a); [| done | done | done].
    intros r. change (asyncChainQueue (openQueue a)) with (Gate.openQueue (asyncChainQueue a)). by rewrite (proj2 (openQueue_rets _)).
  - by apply (drain_observed_keep a).
  - unfold timer_fires in He. destruct (timers a !! k) as [t|]; [| done].
    destruct (timer_due t <=? clock a); [| done].
    destruct (resetCounter a =? signalValue t); injection He as <-; [| by apply (drain_observed_keep a)].
    set (a2 := set_runningTotal (timer_newRunningTotal t) (set_timers (delete k (timers a)) a)).
    set (f := fun q => default q (Chain.settle_step (timer_cell t) q)).
    destruct (update_queue_fields (timer_gen t) f a2) as (_ & _ & _ & Hobs & _ & Hl).
    apply (drain_observed_keep a); [| by rewrite Hl | by rewrite Hobs | done].
    intros r. unfold update_queue. case_match; simpl; [| done].
    unfold f. destruct (Chain.settle_step (timer_cell t) (asyncChainQueue a)) eqn:E; simpl; [| done].
    by apply (settle_drainSubs _ _ (timer_cell t)).
  - apply (drain_observed_keep a); [unfold tick; by case_match | unfold tick; by case_match | | done].
    intros o Ho _ _. unfold tick. by case_match.
Qed.

(** A [then] callback keeps the closed flag and the drain waiters. *)
Lemma start_step_gate (q q' : AQueue) i :
  Chain.start_step i q = Some q' -> queueIsClosed q' = queueIsClosed q /\ drainSubs q' = drainSubs q.
Proof.
  intros Hs. split; [| apply (start_step_rets _ _ _ Hs)]. revert Hs. unfold Chain.start_step.
  repeat case_match; intros Hs; simplify_eq; unfold Gate.barrier_reached, set_status; simpl; by repeat case_match.
Qed.

(** A microtask keeps the live queue's flag and drain waiters, and never
    sets [waitingToFinish]. *)
Lemma micro_live_gate a m :
  app_wf a -> next_micro a = Some m ->
  queueIsClosed (asyncChainQueue (run_micro m a)) = queueIsClosed (asyncChainQueue a) /\
  drainSubs (asyncChainQueue (run_micro m a)) = drainSubs (asyncChainQueue a) /\
  live_gen (run_micro m a) = live_gen a /\
  (waitingToFinish (run_micro m a) = true -> waitingToFinish a = true).
Proof.
  intros Hwf Hn. unfold next_micro in Hn. destruct (first_start a) as [[g i]|] eqn:Hf.
  - injection Hn as <-. destruct (next_start_runs a g i (app_chains a Hwf) Hf) as (q & q' & Hq & Hq' & _).
    destruct (start_task_spec g i a q q' Hq Hq') as (ts & Ht & _). simpl. rewrite Ht.
    unfold update_queue, live_gen. destruct (Nat.eqb_spec g (length (discarded a))) as [->|Hne]; simpl.
    + fold (live_gen a) in Hq. rewrite queue_of_live in Hq. injection Hq as <-.
      destruct (start_step_gate _ _ _ Hq') as [-> ->]. done.
    + by rewrite length_alter.
  - destruct (first_observer a) as [k|] eqn:Hk; [| done]. injection Hn as <-. simpl. case_match; [| done].
    destruct (observer_callback_fields (obs_kind o) (set_observers (delete k (observers a)) a))
      as (_ & _ & _ & _ & _ & Hl & Ha & _). rewrite Hl, Ha. split_and!; [done | done | done |].
    destruct (obs_kind o); simpl; [done | discriminate].
Qed.

Lemma drain_observed_micro a m :
  app_wf a -> next_micro a = Some m -> drain_observed a -> drain_observed (run_micro m a).
Proof.
  intros Hwf Hn Hok r Hr. destruct (micro_live_gate a m Hwf Hn) as (_ & Hd & Hl & _).
  rewrite Hd in Hr. destruct (Hok r Hr) as (o & Ho & Hko & Hg & Hret).
  exists o. split_and!; [| done | congruence | done].
  apply (micro_keeps_observer a m); [done | done | done |].
  unfold observer_ready. rewrite Hg, queue_of_live, Hret, ret_status_waiting; [done |].
  apply (reachable_rets_ok _ (proj1 (live_wf a Hwf))), Hr.
Qed.

Lemma reachable_drain_observed a : reachable a -> drain_observed a.
Proof.
  intros Hr. cut (app_inv a /\ drain_observed a); [tauto |].
  eapply (star_inv step (fun a => app_inv a /\ drain_observed a)); [| exact Hr |].
  2: { split; [apply app_inv_init | intros r Hr'; by apply elem_of_nil in Hr']. }
  intros b b' [Hinv Hok] Hs. split; [by apply (app_inv_step b) |].
  inversion Hs as [e b0 b1 He]; subst. unfold app_step in He.
  destruct (exec e b) as [b2|] eqn:E; simpl in He; [| done]. injection He as <-.
  pose proof (app_wf_exec e b b2 Hinv E) as Hwf2.
  cut (app_wf (quiesce (micro_measure b2) b2) /\ drain_observed (quiesce (micro_measure b2) b2)); [tauto |].
  apply (quiesce_ind (fun x => app_wf x /\ drain_observed x)); [| split; [done | by apply (drain_observed_exec e b)]].
  intros x m [Hx Hxo] Hn. split; [by apply app_wf_micro | by apply drain_observed_micro].
Qed.

(** [openQueue()] while a drain waiter is subscribed: after the
    macrotask and its microtasks, the indicator is cleared and the queue
    is open, but the waiter is still subscribed and, with it, the
    callback of [halt_finishThenClose()]. *)
Lemma openQueue_keeps_drain a a' :
  reachable a -> app_step EOpenQueue a = Some a' ->
  waitingToFinish a' = false /\ queueIsClosed (asyncChainQueue a') = false /\
  drainSubs (asyncChainQueue a') = drainSubs (asyncChainQueue a) /\ live_gen a' = live_gen a /\
  drain_observed a'.
Proof.
  intros Hr Hs. assert (Hr' : reachable a') by (eapply star_snoc; [exact Hr | by econstructor]).
  cut (waitingToFinish a' = false /\ queueIsClosed (asyncChainQueue a') = false /\
       drainSubs (asyncChainQueue a') = drainSubs (asyncChainQueue a) /\ live_gen a' = live_gen a);
    [intros (? & ? & ? & ?); split_and!; try done; by apply reachable_drain_observed |].
  unfold app_step in Hs. simpl in Hs. injection Hs as <-.
  pose proof (app_wf_exec EOpenQueue a (openQueue a) (reachable_app_inv a Hr) eq_refl) as Hwf.
  cut (app_wf (quiesce (micro_measure (openQueue a)) (openQueue a)) /\
       waitingToFinish (quiesce (micro_measure (openQueue a)) (openQueue a)) = false /\
       queueIsClosed (asyncChainQueue (quiesce (micro_measure (openQueue a)) (openQueue a))) = false /\
       drainSubs (asyncChainQueue (quiesce (micro_measure (openQueue a)) (openQueue a))) = drainSubs (asyncChainQueue a) /\
       live_gen (quiesce (micro_measure (openQueue a)) (openQueue a)) = live_gen a); [tauto |].
  apply (quiesce_ind (fun x => app_wf x /\ waitingToFinish x = false /\ queueIsClosed (asyncChainQueue x) = false /\
                               drainSubs (asyncChainQueue x) = drainSubs (asyncChainQueue a) /\ live_gen x = live_gen a)).
  - intros x m (Hx & Hw & Hc & Hd & Hl) Hn. destruct (micro_live_gate x m Hx Hn) as (Hc' & Hd' & Hl' & Hw').
    split_and!; [by apply app_wf_micro | | congruence | congruence | congruence].
    destruct (waitingToFinish (run_micro m x)); [by rewrite <- Hw, Hw' | done].
  - split_and!; [done | done | change (asyncChainQueue (openQueue a)) with (Gate.openQueue (asyncChainQueue a)); unfold Gate.openQueue; by destruct (_ <=? _) | | done].
    change (asyncChainQueue (openQueue a)) with (Gate.openQueue (asyncChainQueue a)).
    apply openQueue_rets.
Qed.

End AppDrain.
