(* ===== verification/AppTotals.v ===== *)
(** * The total the halting handlers' callbacks display

    The callbacks that [halt_closeThenFinish] and [halt_finishThenClose]
    attach to the returned promise ([app.component.ts] lines 115-121 and
    125-132) ignore their argument [res] and copy [this.runningTotal]
    into [lastTotal].  This file shows that the two agree: whenever such
    a callback runs, its promise was fulfilled with the total it
    displays ([observer_total]).  Between two macrotasks no observer of
    the live queue is ready, so its promise follows a promise of the
    chain that covers every completed task ([Returns.covers]); the only
    completion in a macrotask is the timer's, which settles a task no
    later than that promise; microtasks complete no task; and a
    fulfilled promise that covers the completed tasks holds their sum,
    which is [runningTotal]. *)

From Stdlib Require Import ZArith.
From stdpp Require Import base list.
From S2P Require Import Prelude Types Tracker Chain Invariants Reachable Monotone Spec Refinement Returns.
From S2P Require Import App AppProofs AppObservers.

Module AppTotals.
Import App AppProofs.

(** The invariant of the states inside a checkpoint. *)
Record obs_wf (a : App) : Prop := {
  ow_wf : app_wf a;
  ow_covers : forall o, o ∈ observers a -> obs_gen o = live_gen a ->
    Returns.covers (asyncChainQueue a) (obs_ret o);
  ow_stale : forall o, o ∈ observers a -> obs_gen o < live_gen a -> observer_ready a o = false
}.

(** The states a checkpoint passes through: a macrotask from a
    reachable state, then some of the microtasks it queued. *)
Definition in_checkpoint (b : App) : Prop :=
  exists a e a1 n, reachable a /\ exec e a = Some a1 /\ b = quiesce n a1.

(** ** Between two macrotasks *)

(** An observer of the live queue that is not ready follows a promise
    that is not fulfilled. *)
Lemma live_not_ready a o x i c :
  observer_ready a o = false -> obs_gen o = live_gen a ->
  rets (asyncChainQueue a) !! obs_ret o = Some x -> Returns.ret_cell x = Some i ->
  pipe (asyncChainQueue a) !! i = Some c -> is_fulfilled (status c) = false.
Proof.
  unfold observer_ready. intros Hnr Hg. rewrite Hg, queue_of_live in Hnr.
  by apply Returns.ret_status_unfulfilled.
Qed.

Lemma quiescent_covers a o :
  app_inv a -> o ∈ observers a -> obs_gen o = live_gen a -> Returns.covers (asyncChainQueue a) (obs_ret o).
Proof.
  intros [Hwf Hn] Ho Hg x i Hx Hi. pose proof (reachable_inv _ (proj1 (live_wf a Hwf))) as HI.
  apply Returns.unfulfilled_count; [done |]. intros c Hc.
  exact (live_not_ready a o x i c (AppObservers.quiescent_not_ready a o Hn Ho) Hg Hx Hi Hc).
Qed.

(** ** What a macrotask does to the live queue *)

(** A timer leaves the live queue, or settles one of its running tasks. *)
Lemma timer_fires_live a k a1 :
  app_wf a -> timer_fires k a = Some a1 ->
  observers a1 = observers a /\ live_gen a1 = live_gen a /\
  (asyncChainQueue a1 = asyncChainQueue a \/
   exists c v, status_at (asyncChainQueue a) c = Some (Awaiting (Fulfils v)) /\
     Chain.settle_step c (asyncChainQueue a) = Some (asyncChainQueue a1)).
Proof.
  intros Hwf H. pose proof (timer_fires_discarded a k a1 Hwf H) as Hd.
  unfold timer_fires in H. destruct (timers a !! k) as [t|] eqn:Hk; [| done].
  destruct (timer_due t <=? clock a); [| done].
  destruct (Nat.eqb_spec (resetCounter a) (signalValue t)) as [Hr|Hr]; injection H as <-; [| by split_and!; [..| left]].
  pose proof (wf_timers a Hwf) as Hts. rewrite Forall_lookup in Hts. destruct (Hts k t Hk) as [Hsig (q & Hq & Hst)].
  assert (Hg : timer_gen t = live_gen a) by (rewrite <- Hsig, <- Hr; apply (wf_gen a Hwf)).
  rewrite Hg, queue_of_live in Hq. injection Hq as <-.
  pose proof (settle_some _ _ _ (reachable_inv _ (proj1 (live_wf a Hwf))) Hst) as Hs.
  set (a2 := set_runningTotal (timer_newRunningTotal t) (set_timers (delete k (timers a)) a)).
  change (live_gen a) with (live_gen a2) in Hg. rewrite Hg.
  destruct (update_live a2 (fun q => default q (Chain.settle_step (timer_cell t) q))) as [Hlive _].
  destruct (update_queue_fields (live_gen a2) (fun q => default q (Chain.settle_step (timer_cell t) q)) a2)
    as (_ & _ & _ & Hobs & _ & Hl).
  rewrite Hobs, Hl, Hlive. split_and!; [done | done |]. right. exists (timer_cell t), (timer_newRunningTotal t).
  simpl. rewrite Hs. by split.
Qed.

(** After an operation of the live queue that completes no task, the
    live observers still cover the completed tasks. *)
Lemma covers_live_exec a a1 e' :
  app_inv a -> Chain.exec e' (asyncChainQueue a) = Some (asyncChainQueue a1) ->
  tasksComplete (asyncChainQueue a1) <= tasksComplete (asyncChainQueue a) -> live_gen a1 = live_gen a ->
  (forall o, o ∈ observers a1 -> o ∈ observers a \/ rets (asyncChainQueue a) !! obs_ret o = None) ->
  forall o, o ∈ observers a1 -> obs_gen o = live_gen a1 -> Returns.covers (asyncChainQueue a1) (obs_ret o).
Proof.
  intros Hinv He Ht Hl Hobs o Ho Hg. apply (Returns.covers_exec e' (asyncChainQueue a)); try done.
  - apply (live_wf a (proj1 Hinv)).
  - destruct (Hobs o Ho) as [Ho' | Hnone].
    + apply quiescent_covers; [done | done | congruence].
    + intros x i Hx. by rewrite Hnone in Hx.
Qed.

(** After a macrotask, the observers of the replaced queues are still
    not ready. *)
Lemma stale_after_exec a a1 :
  app_inv a -> discarded a1 = discarded a \/ discarded a1 = all_queues a ->
  (forall o, o ∈ observers a1 -> o ∈ observers a \/ obs_gen o = live_gen a1) ->
  forall o, o ∈ observers a1 -> obs_gen o < live_gen a1 -> observer_ready a1 o = false.
Proof.
  intros [_ Hn] Hd Hobs o Ho Hg. destruct (Hobs o Ho) as [Ho' | Hg']; [| lia].
  rewrite (AppObservers.observer_ready_same a a1 o); [by apply AppObservers.quiescent_not_ready |].
  by apply AppObservers.queue_of_stale.
Qed.

(** A halting handler registers an observer on a promise it creates. *)
Lemma fresh_ret_close (q : AQueue) :
  rets q !! (Tracker.closeQueueAndGetFinalResult q).2 = None.
Proof. simpl. apply lookup_ge_None. by rewrite (proj1 (Returns.closeQueue_rets q)). Qed.

Lemma fresh_ret_drain (q : AQueue) :
  rets q !! (Tracker.getFinalResultAndCloseWhenAllTasksComplete q).2 = None.
Proof.
  unfold Tracker.getFinalResultAndCloseWhenAllTasksComplete. case_match; simpl; apply lookup_ge_None;
    [rewrite (proj1 (Returns.closeQueue_rets q)) |]; lia.
Qed.

(** The observers after a halting handler: the old ones and one on a
    promise it creates. *)
Lemma observers_snoc a o' o :
  o ∈ observers a ++ [o'] -> o ∈ observers a \/ o = o'.
Proof. intros [Ho | Ho]%elem_of_app; [by left | right; by apply list_elem_of_singleton]. Qed.

(** A macrotask that leaves the live queue and the observers. *)
Lemma obs_wf_same a a1 :
  app_inv a -> app_wf a1 -> asyncChainQueue a1 = asyncChainQueue a -> discarded a1 = discarded a ->
  observers a1 = observers a -> obs_wf a1.
Proof.
  intros Hinv Hwf Hq Hd Hobs. assert (Hl : live_gen a1 = live_gen a) by (unfold live_gen; by rewrite Hd).
  split; [done | |].
  - intros o Ho Hg. rewrite Hq. apply quiescent_covers; [done | by rewrite <- Hobs | congruence].
  - apply (stale_after_exec a); [done | by left |]. intros o Ho. left. by rewrite <- Hobs.
Qed.

Lemma obs_wf_exec e a a1 : app_inv a -> exec e a = Some a1 -> obs_wf a1.
Proof.
  intros Hinv He. pose proof (app_wf_exec e a a1 Hinv He) as Hwf1.
  pose proof (AppObservers.exec_discarded_cases e a a1 Hinv He) as Hd.
  destruct e; simpl in He; try (injection He as <-).
  - (* reset *)
    split; [done | intros o _ _ x i Hx; simpl in Hx; by rewrite lookup_nil in Hx |].
    apply (stale_after_exec a); [done | done | intros o Ho; by left].
  - (* onSubmit *)
    split; [done | |apply (stale_after_exec a); [done | done | intros o Ho; by left]].
    apply (covers_live_exec a _ (Chain.EvPushPromise (form a) createArgumentsForTask task_promise));
      [done | done | simpl; lia | done | intros o Ho; by left].
  - (* halt_closeThenFinish *)
    rewrite AppObservers.halt_close_eq in *. split; [done | |].
    + apply (covers_live_exec a _ Chain.EvCloseAndGetResult); [done | done | | done |].
      * apply Nat.eq_le_incl. exact (proj2 (proj2 (close_facts (asyncChainQueue a)))).
      * intros o [Ho | ->]%observers_snoc; [by left | right; apply fresh_ret_close].
    + apply (stale_after_exec a); [done | done |]. intros o [Ho | ->]%observers_snoc; [by left | by right].
  - (* halt_finishThenClose *)
    rewrite AppObservers.halt_finish_eq in *. split; [done | |].
    + apply (covers_live_exec a _ Chain.EvDrainThenClose); [done | done | | done |].
      * apply Nat.eq_le_incl. exact (proj2 (proj2 (drain_facts (asyncChainQueue a)))).
      * intros o [Ho | ->]%observers_snoc; [by left | right; apply fresh_ret_drain].
    + apply (stale_after_exec a); [done | done |]. intros o [Ho | ->]%observers_snoc; [by left | by right].
  - (* openQueue *)
    split; [done | |apply (stale_after_exec a); [done | done | intros o Ho; by left]].
    apply (covers_live_exec a _ Chain.EvOpen); [done | done | | done | intros o Ho; by left].
    apply Nat.eq_le_incl. exact (proj2 (proj2 (open_facts (asyncChainQueue a)))).
  - (* the form *) by apply (obs_wf_same a).
  - (* a timer *)
    destruct (timer_fires_live a k a1 (proj1 Hinv) He) as (Hobs & Hl & [Hq | (c & v & Hc & Hs)]).
    + apply (obs_wf_same a); [done | done | done | exact (timer_fires_discarded a k a1 (proj1 Hinv) He) | done].
    + split; [done | |apply (stale_after_exec a); [done | done | intros o Ho; left; by rewrite <- Hobs]].
      intros o Ho Hg. rewrite Hobs in Ho.
      apply (Returns.covers_settle c (asyncChainQueue a) _ _ v); [apply (live_wf a (proj1 Hinv)) | done | done |].
      intros x i ci Hx Hi Hci. apply (live_not_ready a o x i ci); [| congruence | done | done | done].
      apply AppObservers.quiescent_not_ready; [apply Hinv | done].
  - (* a millisecond *)
    apply (obs_wf_same a); [done | done | unfold tick; by case_match | unfold tick; by case_match | unfold tick; by case_match].
Qed.

(** ** The microtasks of a checkpoint *)

Lemma stale_same_discarded a a1 :
  discarded a1 = discarded a -> (forall o, o ∈ observers a1 -> o ∈ observers a) ->
  (forall o, o ∈ observers a -> obs_gen o < live_gen a -> observer_ready a o = false) ->
  forall o, o ∈ observers a1 -> obs_gen o < live_gen a1 -> observer_ready a1 o = false.
Proof.
  intros Hd Hobs Hs o Ho Hg. assert (Hl : live_gen a1 = live_gen a) by (unfold live_gen; by rewrite Hd).
  rewrite (AppObservers.observer_ready_same a a1 o); [apply Hs; [auto | lia] |].
  apply AppObservers.queue_of_stale; [by left | done].
Qed.

Lemma obs_wf_micro b m : obs_wf b -> next_micro b = Some m -> obs_wf (run_micro m b).
Proof.
  intros Hb Hn. pose proof (ow_wf b Hb) as Hwf.
  pose proof (app_wf_micro b m Hwf Hn) as Hwf1. pose proof (micro_discarded b m Hwf Hn) as Hd.
  unfold next_micro in Hn. destruct (first_start b) as [[g i]|] eqn:Hf.
  - injection Hn as <-. pose proof (first_start_live b g i (wf_stale b Hwf) Hf) as ->.
    destruct (next_start_runs b _ i (app_chains b Hwf) Hf) as (q & q' & Hq & Hq' & _).
    rewrite queue_of_live in Hq. injection Hq as <-.
    destruct (start_task_spec _ i b _ q' (queue_of_live b) Hq') as (ts & Ht & _).
    destruct (update_live b (fun _ => q')) as [Hlive _].
    destruct (update_queue_fields (live_gen b) (fun _ => q') b) as (_ & _ & _ & Hobs & _ & Hl).
    change (run_micro (MStart (live_gen b) i) b) with (start_task (live_gen b) i b) in *. rewrite Ht in *.
    set (b1 := update_queue (live_gen b) (fun _ => q') b) in *.
    assert (Hobs1 : observers (set_timers (timers b ++ ts) b1) = observers b) by exact Hobs.
    assert (Hl1 : live_gen (set_timers (timers b ++ ts) b1) = live_gen b) by exact Hl.
    assert (Hq1 : asyncChainQueue (set_timers (timers b ++ ts) b1) = q') by exact Hlive.
    split; [done | |].
    + rewrite Hq1, Hl1, Hobs1. intros o Ho Hg.
      apply (Returns.covers_exec (Chain.EvStart i) (asyncChainQueue b)); [apply (live_wf b Hwf) | done | |].
      * apply Nat.eq_le_incl. exact (proj1 (proj2 (start_step_fields _ _ i Hq'))).
      * by apply (ow_covers b Hb).
    + apply (stale_same_discarded b); [done | by rewrite Hobs1 | apply (ow_stale b Hb)].
  - destruct (first_observer b) as [k|]; [| done]. injection Hn as <-. simpl in Hwf1, Hd |- *.
    destruct (observers b !! k) as [o'|] eqn:Hk; [| done].
    destruct (observer_callback_fields (obs_kind o') (set_observers (delete k (observers b)) b))
      as (_ & Hobs & _ & _ & _ & Hl & Hq & _).
    assert (Hsub : forall o, o ∈ observers (observer_callback (obs_kind o') (set_observers (delete k (observers b)) b)) ->
              o ∈ observers b) by (intros o; rewrite Hobs; apply elem_of_delete_lookup with o'; done).
    split; [done | |].
    + intros o Ho Hg. rewrite Hq. apply (ow_covers b Hb); [by apply Hsub | by rewrite Hg, Hl].
    + apply (stale_same_discarded b); [done | done | apply (ow_stale b Hb)].
Qed.

Lemma in_checkpoint_wf b : in_checkpoint b -> obs_wf b.
Proof.
  intros (a & e & a1 & n & Hr & He & ->). apply (quiesce_ind obs_wf); [intros; by apply obs_wf_micro |].
  apply (obs_wf_exec e a); [by apply reachable_app_inv | done].
Qed.

(** ** The total an observer displays *)

(** When an observer runs, it belongs to the live queue, and the total
    it copies into [lastTotal] is the value its promise was fulfilled
    with. *)
Lemma observer_total b k o :
  obs_wf b -> next_micro b = Some (MObserve k) -> observers b !! k = Some o ->
  obs_gen o = live_gen b /\
  exists v, Tracker.ret_status (asyncChainQueue b) (obs_ret o) = Fulfilled v /\
    lastTotal (run_micro (MObserve k) b) = v.
Proof.
  intros Hb Hn Hk. pose proof (ow_wf b Hb) as Hwf. destruct (live_wf b Hwf) as [Hreach Hchain].
  pose proof (reachable_inv _ Hreach) as HI.
  assert (Hready : observer_ready b o = true).
  { unfold next_micro in Hn. destruct (first_start b) as [[]|]; [done |].
    destruct (first_observer b) as [k'|] eqn:Hf; [| done]. injection Hn as ->.
    destruct (first_observer_Some b k Hf) as (o' & Ho' & Hr). rewrite Hk in Ho'. by injection Ho' as <-. }
  assert (Ho : o ∈ observers b) by (by eapply list_elem_of_lookup_2).
  assert (Hg : obs_gen o = live_gen b).
  { destruct (queue_of b (obs_gen o)) as [q|] eqn:Hq; [| unfold observer_ready in Hready; by rewrite Hq in Hready].
    pose proof (queue_of_le _ _ _ Hq). destruct (decide (obs_gen o < live_gen b)) as [Hlt|]; [| lia].
    by rewrite (ow_stale b Hb o Ho Hlt) in Hready. }
  split; [done |].
  unfold observer_ready in Hready. rewrite Hg, queue_of_live in Hready.
  destruct (Tracker.ret_status (asyncChainQueue b) (obs_ret o)) as [| | | |v| |] eqn:Hs; try discriminate.
  exists v. split; [done |].
  destruct (Returns.ret_status_fulfilled _ _ _ Hs) as (x & i & Hx & Hi & Hst).
  pose proof (Returns.covers_fulfilled _ _ x i v HI (ow_covers b Hb o Ho Hg) Hx Hi Hst) as Htc.
  pose proof (Returns.ret_status_fold _ _ x i v Hreach Hx Hi Hs) as Hf.
  rewrite (app_chain_take _ (S i) Hchain) in Hf by lia. injection Hf as <-.
  simpl. rewrite Hk. destruct (obs_kind o); simpl; rewrite (wf_total b Hwf); unfold completed_total;
    by rewrite Htc, <- length_task_values, take_task_values.
Qed.
End AppTotals.
