(* ===== verification/AppLiveness.v ===== *)
(** * Progress of the component

    Every task submitted to the live queue completes if the clock runs
    and the timers fire, unless the queue waits at a closure that has not
    been opened.  Between two macrotasks, every running task of the live
    queue has its timer pending ([timers_cover]); a queue with an
    incomplete task and no waiting barrier has a running task
    ([progress]); its timer, once due, completes it.  From these,
    [drive_completes] builds, by induction on the number of incomplete
    tasks, a run of [ETick] and [ETimer] macrotasks after which every
    task of the live queue has completed. *)

From Stdlib Require Import ZArith.
From stdpp Require Import base list.
From S2P Require Import Prelude Types Gate Tracker Chain Invariants Reachable Monotone Returns.
From S2P Require Import App AppProofs AppObservers AppTotals.

Module AppLiveness.
Import App AppProofs.

(** Every running task of the live queue has its timer pending. *)
Definition timers_cover (a : App) : Prop :=
  forall i o, status_at (asyncChainQueue a) i = Some (Awaiting o) ->
  exists t, t ∈ timers a /\ timer_gen t = live_gen a /\ timer_cell t = i.

Lemma timers_cover_keep a a1 :
  keeps_awaiting (asyncChainQueue a1) (asyncChainQueue a) -> live_gen a1 = live_gen a ->
  (forall t, t ∈ timers a -> timer_gen t = live_gen a -> t ∈ timers a1) ->
  timers_cover a -> timers_cover a1.
Proof.
  intros Hk Hl Ht Hc i o Hi. destruct (Hc i o (Hk i o Hi)) as (t & Hin & Hg & Hcell).
  exists t. split_and!; [by apply Ht | congruence | done].
Qed.

(** A start changes its own cell only; a task it makes [Awaiting] has
    its timer registered by [start_task]. *)
Lemma start_step_other (q q' : AQueue) i j :
  Chain.start_step i q = Some q' -> j <> i -> status_at q' j = status_at q j.
Proof.
  unfold Chain.start_step. intros H Hne. repeat case_match; simplify_eq; unfold status_at;
    try unfold Gate.barrier_reached; cbn [pipe set_openSubs]; by rewrite lookup_set_status_ne.
Qed.

Lemma start_task_timer a g i q q' o :
  queue_of a g = Some q -> Chain.start_step i q = Some q' -> status_at q' i = Some (Awaiting o) ->
  exists t, t ∈ timers (start_task g i a) /\ timer_gen t = g /\ timer_cell t = i.
Proof.
  intros Hq Hs Hi. unfold start_task. rewrite Hq, Hs.
  unfold Chain.start_step in Hs. destruct i as [|j]; [done |].
  destruct (pipe q !! S j) as [[n st]|] eqn:Hc; [| done]. destruct st; try done.
  destruct (status <$> pipe q !! j) as [prev|] eqn:Hp; [| done].
  assert (Hst : forall st', status_at (set_status (S j) st' q) (S j) = Some st')
    by (intros st'; unfold status_at; by rewrite (lookup_set_status_eq q _ _ _ Hc)).
  assert (Hbar : forall k s, status_at (Gate.barrier_reached (S j) k s q) (S j) <> Some (Awaiting o)).
  { intros k s. unfold Gate.barrier_reached, status_at. cbn [pipe set_openSubs].
    rewrite (lookup_set_status_eq q _ _ _ Hc). simpl. destruct (k <=? numberOfOpenings q); congruence. }
  destruct n, prev; simplify_eq; try (rewrite Hst in Hi; discriminate); try (by destruct (Hbar _ _ Hi)).
  change (pred (S j)) with j. unfold status_at. rewrite Hp. unfold promiseToPushToQueue.
  eexists. split; [simpl; apply elem_of_app; right; by left | split; reflexivity].
Qed.

(** The live queue after a halting handler, a submission or an opening
    has no task running that did not run before. *)
Lemma keeps_awaiting_push (q : AQueue) d ci p : keeps_awaiting (Chain.pushPromiseToQueue d ci p q) q.
Proof. eapply keeps_awaiting_trans; [apply keeps_awaiting_append_back | by apply keeps_awaiting_same]. Qed.

Lemma keeps_awaiting_close (q : AQueue) : keeps_awaiting (Tracker.closeQueueAndGetFinalResult q).1 q.
Proof.
  eapply keeps_awaiting_trans; [by apply keeps_awaiting_same | apply keeps_awaiting_closeQueue_back].
Qed.

Lemma keeps_awaiting_drain (q : AQueue) : keeps_awaiting (Tracker.getFinalResultAndCloseWhenAllTasksComplete q).1 q.
Proof.
  unfold Tracker.getFinalResultAndCloseWhenAllTasksComplete. case_match; [| by apply keeps_awaiting_same].
  eapply keeps_awaiting_trans; [by apply keeps_awaiting_same | apply keeps_awaiting_closeQueue_back].
Qed.

(** A timer settles the task it was registered for, and removes only
    itself. *)
Lemma timers_cover_timer a k a1 :
  app_wf a -> timers_cover a -> timer_fires k a = Some a1 -> timers_cover a1.
Proof.
  intros Hwf Hc H. unfold timer_fires in H. destruct (timers a !! k) as [t|] eqn:Hk; [| done].
  destruct (timer_due t <=? clock a); [| done].
  pose proof (wf_timers a Hwf) as Hts. rewrite Forall_lookup in Hts. destruct (Hts k t Hk) as [Hsig (q & Hq & Hst)].
  destruct (Nat.eqb_spec (resetCounter a) (signalValue t)) as [Hr|Hr]; injection H as <-.
  - assert (Hg : timer_gen t = live_gen a) by (rewrite <- Hsig, <- Hr; apply (wf_gen a Hwf)).
    rewrite Hg, queue_of_live in Hq. injection Hq as <-.
    pose proof (settle_some _ _ _ (reachable_inv _ (proj1 (live_wf a Hwf))) Hst) as Hs.
    set (a2 := set_runningTotal (timer_newRunningTotal t) (set_timers (delete k (timers a)) a)).
    change (live_gen a) with (live_gen a2) in Hg. rewrite Hg.
    destruct (update_live a2 (fun q => default q (Chain.settle_step (timer_cell t) q))) as [Hlive _].
    destruct (update_queue_fields (live_gen a2) (fun q => default q (Chain.settle_step (timer_cell t) q)) a2)
      as (Htm & _ & _ & _ & _ & Hl).
    intros i o Hi. rewrite Hlive in Hi. simpl in Hi. rewrite Hs in Hi. simpl in Hi.
    apply keeps_awaiting_register_back in Hi.
    assert (Hne : timer_cell t <> i).
    { intros <-. destruct (status_at_lookup _ _ _ Hst) as (c & Hcl & _). unfold status_at in Hi.
      rewrite (lookup_set_status_eq _ _ _ _ Hcl) in Hi. discriminate. }
    rewrite status_at_set_status_ne in Hi by done.
    destruct (Hc i o Hi) as (t' & Ht' & Hg' & Hcell). exists t'. rewrite Htm, Hl. split_and!; [| done | done].
    apply (AppObservers.elem_of_delete_ne _ k t); [done | done |]. intros ->. congruence.
  - intros i o Hi. destruct (Hc i o Hi) as (t' & Ht' & Hg' & Hcell). exists t'. split_and!; [| done | done].
    apply (AppObservers.elem_of_delete_ne _ k t); [done | done |]. intros ->. apply Hr. rewrite (wf_gen a Hwf), Hsig. done.
Qed.

Lemma timers_cover_exec e a a1 : app_inv a -> timers_cover a -> exec e a = Some a1 -> timers_cover a1.
Proof.
  intros Hinv Hc He. destruct e; simpl in He; try (injection He as <-).
  - intros i o Hi. unfold status_at in Hi. destruct i; simpl in Hi; discriminate.
  - apply (timers_cover_keep a); [apply keeps_awaiting_push | done | by intros | done].
  - rewrite AppObservers.halt_close_eq. apply (timers_cover_keep a); [apply keeps_awaiting_close | done | by intros | done].
  - rewrite AppObservers.halt_finish_eq. apply (timers_cover_keep a); [apply keeps_awaiting_drain | done | by intros | done].
  - apply (timers_cover_keep a); [apply keeps_awaiting_openQueue_back | done | by intros | done].
  - done.
  - by apply (timers_cover_timer a k); [apply Hinv | ..].
  - unfold tick. by case_match.
Qed.

Lemma timers_cover_micro b m : app_wf b -> next_micro b = Some m -> timers_cover b -> timers_cover (run_micro m b).
Proof.
  intros Hwf Hn Hc. unfold next_micro in Hn. destruct (first_start b) as [[g i]|] eqn:Hf.
  - injection Hn as <-. pose proof (first_start_live b g i (wf_stale b Hwf) Hf) as ->.
    destruct (next_start_runs b _ i (app_chains b Hwf) Hf) as (q & q' & Hq & Hq' & _).
    rewrite queue_of_live in Hq. injection Hq as <-.
    destruct (start_task_spec _ i b _ q' (queue_of_live b) Hq') as (ts & Ht & _).
    destruct (update_live b (fun _ => q')) as [Hlive _].
    destruct (update_queue_fields (live_gen b) (fun _ => q') b) as (Htm & _ & _ & _ & _ & Hl).
    change (run_micro (MStart (live_gen b) i) b) with (start_task (live_gen b) i b).
    intros j o Hj. destruct (decide (j = i)) as [->|Hne].
    + rewrite Ht in Hj. simpl in Hj. rewrite Hlive in Hj.
      destruct (start_task_timer b _ i _ q' o (queue_of_live b) Hq' Hj) as (t & Hin & Hg & Hcell).
      exists t. split_and!; [done | rewrite Hg, Ht; exact (eq_sym Hl) | done].
    + rewrite Ht in Hj |- *. simpl in Hj. rewrite Hlive, (start_step_other _ _ i j Hq' Hne) in Hj.
      destruct (Hc j o Hj) as (t & Hin & Hg & Hcell). exists t.
      split_and!; [simpl; apply elem_of_app; by left | rewrite Hg; exact (eq_sym Hl) | done].
  - destruct (first_observer b) as [k|]; [| done]. injection Hn as <-. simpl.
    destruct (observers b !! k) as [o'|]; [| done].
    destruct (observer_callback_fields (obs_kind o') (set_observers (delete k (observers b)) b))
      as (_ & _ & Htm & _ & _ & Hl & Hq & _).
    intros j o Hj. rewrite Hq in Hj. rewrite Htm, Hl. exact (Hc j o Hj).
Qed.

Lemma reachable_timers_cover a : reachable a -> timers_cover a.
Proof.
  intros Hr. cut (app_inv a /\ timers_cover a); [tauto |].
  eapply (star_inv step (fun a => app_inv a /\ timers_cover a)); [| exact Hr |].
  2: { split; [apply app_inv_init | intros i o Hi; unfold status_at in Hi; destruct i; simpl in Hi; discriminate]. }
  intros b b' [Hinv Hc] Hs. split; [by apply (app_inv_step b) |].
  destruct Hs as [e b0 b1 He]. unfold app_step in He.
  destruct (exec e b0) as [b2|] eqn:E; simpl in He; [| done]. injection He as <-.
  cut (app_wf (quiesce (micro_measure b2) b2) /\ timers_cover (quiesce (micro_measure b2) b2)); [tauto |].
  apply (quiesce_ind (fun x => app_wf x /\ timers_cover x)).
  - intros x m [Hx Hxc] Hn. split; [by apply app_wf_micro | by apply timers_cover_micro].
  - split; [by apply (app_wf_exec e b0) | by apply (timers_cover_exec e b0)].
Qed.

(** ** Progress *)

(** No closure of the live queue waits for an opening that has not come. *)
Definition closures_opened (q : AQueue) : Prop :=
  forall i k, nodes q !! i = Some (NBarrier k) -> k <= numberOfOpenings q.

(** The first promise of a chain that is not fulfilled follows a
    fulfilled one. *)
Lemma first_unfulfilled (q : AQueue) :
  inv q -> tasksComplete q < queueLength q ->
  exists j c c', pipe q !! S j = Some c /\ pipe q !! j = Some c' /\
    is_fulfilled (status c) = false /\ is_fulfilled (status c') = true.
Proof.
  intros HI Hlt. destruct (list_find (fun c => negb (is_fulfilled (status c))) (pipe q)) as [[j c]|] eqn:Hf.
  - apply list_find_Some in Hf as (Hc & Hnf & Hbefore).
    assert (Hnf' : is_fulfilled (status c) = false) by (destruct (is_fulfilled (status c)); [contradiction | done]).
    destruct j as [|j].
    { destruct (inv_init q HI) as [v Hv]. rewrite Hv in Hc. injection Hc as <-. discriminate. }
    assert (Hlt' : j < length (pipe q)) by (apply lookup_lt_Some in Hc; lia).
    destruct (lookup_lt_is_Some_2 _ _ Hlt') as [c' Hc'].
    exists j, c, c'. split_and!; try done. specialize (Hbefore j c' Hc' ltac:(lia)).
    destruct (is_fulfilled (status c')); [done | by contradiction Hbefore].
  - exfalso. apply list_find_None in Hf. rewrite Forall_lookup in Hf.
    rewrite (inv_queueLength q HI), (inv_tasksComplete q HI) in Hlt.
    rewrite <- (take_ge (pipe q) (length (pipe q))), <- (take_ge (nodes q) (length (pipe q))) in Hlt
      by (unfold nodes; rewrite ?length_fmap; lia).
    rewrite (Returns.count_fulfilled_prefix q (length (pipe q))) in Hlt; [lia |].
    intros k x _ Hx. specialize (Hf k x Hx). destruct (is_fulfilled (status x)); [done | by contradiction Hf].
Qed.

(** Between two macrotasks, a live queue with an incomplete task has the
    timer of a running task pending, unless a barrier waits for an
    opening. *)
Lemma progress a :
  app_inv a -> timers_cover a -> tasksComplete (asyncChainQueue a) < queueLength (asyncChainQueue a) ->
  (exists k t, timers a !! k = Some t /\ timer_gen t = live_gen a /\ signalValue t = resetCounter a) \/
  (exists i c s, pipe (asyncChainQueue a) !! i = Some c /\ status c = Subscribed s).
Proof.
  intros [Hwf Hn] Hcov Hlt. destruct (live_wf a Hwf) as [Hreach [_ Hnodes]].
  pose proof (reachable_inv _ Hreach) as HI.
  destruct (first_unfulfilled _ HI Hlt) as (j & c & c' & Hc & Hc' & Hnf & Hf).
  pose proof (inv_chain _ HI j c c' Hc Hc') as Hok.
  assert (Happ : app_node (node c)) by (apply (Hnodes j); unfold nodes; by rewrite list_lookup_fmap, Hc).
  destruct (status c') as [| | | |v| |] eqn:Ec'; try discriminate.
  destruct (status c) as [|? ?|o|s|?| |] eqn:Ec; try discriminate.
  - (* not started: the checkpoint would have started it *)
    exfalso. unfold next_micro in Hn. destruct (first_start a) as [[]|] eqn:Hfs; [done |].
    apply (queue_startable_None _ (first_start_None a Hfs _ _ (queue_of_live a)) j c c' Hc' Hc);
      [by rewrite Ec' | done].
  - destruct (node c); simpl in Hok, Happ; done.
  - (* running: its timer is pending *)
    left. destruct (Hcov (S j) o) as (t & Hin & Hg & _); [unfold status_at; rewrite Hc; simpl; by rewrite Ec |].
    apply list_elem_of_lookup in Hin as [k Hk]. exists k, t. split_and!; [done | done |].
    pose proof (wf_timers a Hwf) as Hts. rewrite Forall_lookup in Hts. destruct (Hts k t Hk) as [Hsig _].
    rewrite Hsig, Hg. symmetry. apply (wf_gen a Hwf).
  - right. by exists (S j), c, s.
  - destruct (node c) as [| | d ci pr |]; simpl in Hok, Happ; try done.
    destruct Happ as [-> ->]. destruct Hok as [Hr | (s & Hs & Hpr)]; [discriminate | done].
  - destruct (node c); simpl in Hok, Happ; try done.
Qed.

(** ** Runs of clock ticks and timers *)

(** The macrotasks that only let time pass. *)
Definition is_drive (e : Event) : bool :=
  match e with ETick | ETimer _ => true | _ => false end.

Lemma quiesce_none fuel b : next_micro b = None -> quiesce fuel b = b.
Proof. intros Hn. destruct fuel; simpl; [done | by rewrite Hn]. Qed.

Lemma run_events_app es es' b :
  run_events (es ++ es') b = run_events es b ≫= run_events es'.
Proof.
  revert b. induction es as [|e es IH]; intros b; simpl; [done |].
  destruct (app_step e b) as [b1|]; simpl; [apply IH | done].
Qed.

(** A millisecond changes only the clocks, and queues no microtask. *)
Lemma tick_fields a :
  asyncChainQueue (tick a) = asyncChainQueue a /\ discarded (tick a) = discarded a /\
  timers (tick a) = timers a /\ resetCounter (tick a) = resetCounter a /\
  observers (tick a) = observers a /\ clock (tick a) = S (clock a) /\ next_micro (tick a) = next_micro a.
Proof. unfold tick. by case_match. Qed.

Lemma run_ticks n a :
  reachable a ->
  exists a', run_events (replicate n ETick) a = Some a' /\ reachable a' /\
    asyncChainQueue a' = asyncChainQueue a /\ discarded a' = discarded a /\ timers a' = timers a /\
    resetCounter a' = resetCounter a /\ clock a' = n + clock a.
Proof.
  revert a. induction n as [|n IH]; intros a Hr; [by exists a |].
  destruct (tick_fields a) as (Hq & Hd & Ht & Hrc & _ & Hc & Hn).
  assert (Hs : app_step ETick a = Some (tick a)).
  { unfold app_step. simpl. rewrite quiesce_none; [done |]. rewrite Hn. apply (reachable_app_inv a Hr). }
  assert (Hr1 : reachable (tick a)) by (eapply star_trans; [exact Hr | apply star_one; by econstructor]).
  destruct (IH (tick a) Hr1) as (a' & Hrun & Hr' & Hq' & Hd' & Ht' & Hrc' & Hc').
  exists a'. cbn [run_events replicate]. rewrite Hs. simpl. split_and!; try congruence. lia.
Qed.

(** ** What a checkpoint keeps of the live queue *)

Definition live_summary (b : App) : nat * nat * nat * list ANode * nat :=
  (live_gen b, tasksComplete (asyncChainQueue b), queueLength (asyncChainQueue b),
   nodes (asyncChainQueue b), numberOfOpenings (asyncChainQueue b)).

Lemma set_status_fields (q : AQueue) i st :
  queueLength (set_status i st q) = queueLength q /\ numberOfOpenings (set_status i st q) = numberOfOpenings q.
Proof. unfold set_status. by case_match. Qed.

Lemma start_step_counters (q q' : AQueue) i :
  Chain.start_step i q = Some q' -> queueLength q' = queueLength q /\ numberOfOpenings q' = numberOfOpenings q.
Proof. unfold Chain.start_step. intros H. repeat case_match; simplify_eq; exact (set_status_fields _ _ _). Qed.

Lemma micro_live_same b m : app_wf b -> next_micro b = Some m -> live_summary (run_micro m b) = live_summary b.
Proof.
  intros Hwf Hn. unfold next_micro in Hn. destruct (first_start b) as [[g i]|] eqn:Hf.
  - injection Hn as <-. pose proof (first_start_live b g i (wf_stale b Hwf) Hf) as ->.
    destruct (next_start_runs b _ i (app_chains b Hwf) Hf) as (q & q' & Hq & Hq' & _).
    rewrite queue_of_live in Hq. injection Hq as <-.
    destruct (start_task_spec _ i b _ q' (queue_of_live b) Hq') as (ts & Ht & _).
    destruct (update_live b (fun _ => q')) as [Hlive _].
    destruct (update_queue_fields (live_gen b) (fun _ => q') b) as (_ & _ & _ & _ & _ & Hl).
    change (run_micro (MStart (live_gen b) i) b) with (start_task (live_gen b) i b).
    assert (Hq1 : asyncChainQueue (start_task (live_gen b) i b) = q') by (rewrite Ht; exact Hlive).
    assert (Hl1 : live_gen (start_task (live_gen b) i b) = live_gen b) by (rewrite Ht; exact Hl).
    destruct (start_step_fields _ _ i Hq') as (Hnodes & Htc & _).
    destruct (start_step_counters _ _ i Hq') as [Hql Hop].
    unfold live_summary. by rewrite Hq1, Hl1, Hnodes, Htc, Hql, Hop.
  - destruct (first_observer b) as [k|]; [| done]. injection Hn as <-. simpl.
    destruct (observers b !! k) as [o'|]; [| done].
    destruct (observer_callback_fields (obs_kind o') (set_observers (delete k (observers b)) b))
      as (_ & _ & _ & _ & _ & Hl & Hq & _).
    unfold live_summary. by rewrite Hl, Hq.
Qed.

Lemma quiesce_live_same fuel b : app_wf b -> live_summary (quiesce fuel b) = live_summary b.
Proof.
  intros Hwf. cut (app_wf (quiesce fuel b) /\ live_summary (quiesce fuel b) = live_summary b); [tauto |].
  apply (quiesce_ind (fun x => app_wf x /\ live_summary x = live_summary b)); [| done].
  intros x m [Hx Hs] Hn. split; [by apply app_wf_micro | by rewrite micro_live_same].
Qed.

(** Registering a completion keeps the counters of submissions and
    openings, and the chain unless it drains the queue. *)
Lemma register_fields (q : AQueue) :
  queueLength (Tracker.registerTaskCompletion q) = queueLength q /\
  numberOfOpenings (Tracker.registerTaskCompletion q) = numberOfOpenings q /\
  (queueLength q <> S (tasksComplete q) -> nodes (Tracker.registerTaskCompletion q) = nodes q).
Proof.
  unfold Tracker.registerTaskCompletion, Tracker.emit_taskComplete. simpl.
  destruct (Nat.eqb_spec (queueLength q) (S (tasksComplete q))) as [E|E]; [| done]. simpl.
  split_and!; [| | done];
    apply (fold_left_inv _ (fun q' : AQueue => _ q' = _ q)); try done;
    intros q1 r H1; destruct (Tracker.drain_fire_fields q1 r) as (Hql & _ & Hop & _); congruence.
Qed.

(** The timer of a running task of the live queue, once due, completes
    that task. *)
Lemma timer_step_completes a k t :
  reachable a -> timers a !! k = Some t -> signalValue t = resetCounter a -> timer_due t <= clock a ->
  exists a', app_step (ETimer k) a = Some a' /\ live_gen a' = live_gen a /\
    tasksComplete (asyncChainQueue a') = S (tasksComplete (asyncChainQueue a)) /\
    queueLength (asyncChainQueue a') = queueLength (asyncChainQueue a) /\
    (tasksComplete (asyncChainQueue a') = queueLength (asyncChainQueue a') \/
     nodes (asyncChainQueue a') = nodes (asyncChainQueue a) /\
     numberOfOpenings (asyncChainQueue a') = numberOfOpenings (asyncChainQueue a)).
Proof.
  intros Hr Hk Hsig Hdue. pose proof (reachable_app_inv a Hr) as Hinv. pose proof (proj1 Hinv) as Hwf.
  pose proof (wf_timers a Hwf) as Hts. rewrite Forall_lookup in Hts. destruct (Hts k t Hk) as [Hsg (q & Hq & Hst)].
  assert (Hg : timer_gen t = live_gen a) by (rewrite <- Hsg, Hsig; apply (wf_gen a Hwf)).
  rewrite Hg, queue_of_live in Hq. injection Hq as <-.
  pose proof (reachable_inv _ (proj1 (live_wf a Hwf))) as HI.
  pose proof (settle_some _ _ _ HI Hst) as Hs.
  set (q := asyncChainQueue a) in *.
  set (a2 := set_runningTotal (timer_newRunningTotal t) (set_timers (delete k (timers a)) a)).
  set (a1 := update_queue (timer_gen t) (fun q0 => default q0 (Chain.settle_step (timer_cell t) q0)) a2).
  assert (He : exec (ETimer k) a = Some a1).
  { simpl. unfold timer_fires. rewrite Hk. rewrite (proj2 (Nat.leb_le _ _) Hdue), Hsig, Nat.eqb_refl. done. }
  pose proof (app_wf_exec _ a a1 Hinv He) as Hwf1.
  assert (Hl1 : live_gen a1 = live_gen a) by apply (update_queue_fields _ _ a2).
  assert (Hq1 : asyncChainQueue a1 = Tracker.registerTaskCompletion (set_status (timer_cell t) (Fulfilled (timer_newRunningTotal t)) q)).
  { unfold a1. change (live_gen a) with (live_gen a2) in Hg. rewrite Hg, (proj1 (update_live a2 _)). cbv beta.
    change (asyncChainQueue a2) with q. by rewrite Hs. }
  exists (quiesce (micro_measure a1) a1). split; [unfold app_step; by rewrite He |].
  pose proof (quiesce_live_same (micro_measure a1) a1 Hwf1) as Hsum. unfold live_summary in Hsum.
  injection Hsum as Hl' Htc' Hql' Hn' Hop'. rewrite Hl', Htc', Hql', Hn', Hop', Hl1, Hq1.
  destruct (Reachable.set_status_counters q (timer_cell t) (Fulfilled (timer_newRunningTotal t))) as (_ & Hql0 & Htc0).
  destruct (set_status_fields q (timer_cell t) (Fulfilled (timer_newRunningTotal t))) as [_ Hop0].
  destruct (register_fields (set_status (timer_cell t) (Fulfilled (timer_newRunningTotal t)) q)) as (Hql & Hop & Hn).
  rewrite Returns.tasksComplete_register, Htc0, Hql, Hql0. split_and!; [done | done | done |].
  destruct (decide (queueLength q = S (tasksComplete q))) as [E|E]; [by left | right].
  rewrite Hn, nodes_set_status, Hop, Hop0 by (rewrite Hql0, Htc0; done). done.
Qed.

(** ** Every task of the live queue completes *)

Lemma no_waiting_barrier a i c s :
  app_wf a -> closures_opened (asyncChainQueue a) ->
  pipe (asyncChainQueue a) !! i = Some c -> status c <> Subscribed s.
Proof.
  intros Hwf Hcl Hc Hs. pose proof (reachable_inv _ (proj1 (live_wf a Hwf))) as HI.
  destruct (inv_subscribed _ HI i c s Hc Hs) as [(k & Hn & Hlt) _].
  assert (Hk : k <= numberOfOpenings (asyncChainQueue a)) by (apply (Hcl i k); unfold nodes; by rewrite list_lookup_fmap, Hc, <- Hn).
  lia.
Qed.

(** From a reachable state whose live queue waits at no closure, ticks
    and timers complete every task it holds. *)
Lemma drive_completes a :
  reachable a -> closures_opened (asyncChainQueue a) ->
  exists es a', Forall (fun e => is_drive e = true) es /\ run_events es a = Some a' /\
    live_gen a' = live_gen a /\ queueLength (asyncChainQueue a') = queueLength (asyncChainQueue a) /\
    tasksComplete (asyncChainQueue a') = queueLength (asyncChainQueue a').
Proof.
  remember (queueLength (asyncChainQueue a) - tasksComplete (asyncChainQueue a)) as d eqn:Hd.
  revert a Hd. induction d as [|d IH]; intros a Hd Hr Hcl;
    pose proof (reachable_app_inv a Hr) as Hinv;
    pose proof (completed_le_submitted_inv _ (reachable_inv _ (proj1 (live_wf a (proj1 Hinv))))) as Hle.
  { exists [], a. split_and!; try done. lia. }
  destruct (progress a Hinv (reachable_timers_cover a Hr) ltac:(lia)) as [(k & t & Hk & Hg & Hsig) | (i & c & s & Hc & Hs)];
    [| by destruct (no_waiting_barrier a i c s (proj1 Hinv) Hcl Hc)].
  destruct (run_ticks (timer_due t - clock a) a Hr) as (a2 & Hrun2 & Hr2 & Hq2 & Hd2 & Ht2 & Hrc2 & Hc2).
  destruct (timer_step_completes a2 k t Hr2 ltac:(by rewrite Ht2) ltac:(by rewrite Hrc2) ltac:(lia))
    as (a3 & Hs3 & Hl3 & Htc3 & Hql3 & Hend).
  assert (Hr3 : reachable a3) by (eapply star_trans; [exact Hr2 | apply star_one; by econstructor]).
  assert (Hl2 : live_gen a2 = live_gen a) by (unfold live_gen; by rewrite Hd2).
  assert (Hdrive : Forall (fun e => is_drive e = true) (replicate (timer_due t - clock a) ETick ++ [ETimer k]))
    by (apply Forall_app; split; [by apply Forall_replicate | by repeat constructor]).
  assert (Hrun3 : run_events (replicate (timer_due t - clock a) ETick ++ [ETimer k]) a = Some a3)
    by (rewrite run_events_app, Hrun2; simpl; by rewrite Hs3).
  rewrite Hq2 in Htc3, Hql3, Hend. destruct Hend as [Hdone | [Hn3 Hop3]].
  { exists (replicate (timer_due t - clock a) ETick ++ [ETimer k]), a3. split_and!; try done. congruence. }
  destruct (IH a3 ltac:(lia) Hr3) as (es & a' & Hes & Hrun & Hl' & Hql' & Hdone).
  { intros i kk Hi. rewrite Hop3. apply (Hcl i kk). by rewrite <- Hn3. }
  exists ((replicate (timer_due t - clock a) ETick ++ [ETimer k]) ++ es), a'. split_and!.
  - by apply Forall_app.
  - by rewrite run_events_app, Hrun3.
  - congruence.
  - congruence.
  - done.
Qed.
End AppLiveness.
