(* ===== verification/AppView.v ===== *)
(** * The component's view: its getters and the clock round trip

    The getters of [app.component.ts] (lines 60-90) as functions of the
    state [App.App]: [Clock], [RunningTotal], [QueueIsClosed],
    [WaitingToFinish], [ShowFinalMessage], [FinalMessage] and
    [OpenOrClosedStatus].  JavaScript's number formatting is modelled on
    the values the component formats: [toFixed1] is
    [Number.prototype.toFixed(1)] of the exact value [0.001 * ms]
    (rounding half up, as its specification picks the larger [n] on a
    tie), [parseFloat] reads the unsigned decimal literal at the start of
    a string, and [number_toString] / [tenths_toString] print an integer
    and a number of tenths as [Number.prototype.toString] does.  The
    rounding of the double [0.001 * ms] is not modelled: on multiples of
    [tickPeriod] it is far below the half tenth at which [toFixed] would
    round differently.

    The round trip [parseFloat_toFixed1] reads back the tenths a
    [toFixed(1)] string prints; with the invariant that [elapsedTime] is a
    multiple of [tickPeriod] ([reachable_elapsed]), it shows that
    [parseFloat(this.Clock)] (lines 119, 130) is [App.Clock], the value
    [App.observer_callback] stores in [lastTimeCheck]. *)

From Stdlib Require Import ZArith Ascii String DecimalString DecimalNat.
From stdpp Require Import base list.
From S2P Require Import Prelude Types Gate Chain App AppProofs AppTotals.

Module AppView.
Import App AppProofs AppTotals.

(** ** Number formatting *)

(** The character of a decimal digit. *)
Definition digit_char (d : nat) : ascii := ascii_of_nat (48 + d).

(** The value of a decimal digit character. *)
Definition digit_of (c : ascii) : option nat :=
  let n := nat_of_ascii c in
  if (48 <=? n) && (n <=? 57) then Some (n - 48) else None.

(** The decimal digits of a natural number, with no leading zero ([0]
    is ["0"]). *)
Definition string_of_nat (n : nat) : string := NilZero.string_of_uint (Nat.to_uint n).

(** [Number.prototype.toString] on an integer. *)
Definition number_toString (z : Z) : string := NilZero.string_of_int (Z.to_int z).

(** [Number.prototype.toString] on [t / 10]: the shortest decimal, so no
    fraction when [t] is a multiple of 10. *)
Definition tenths_toString (t : nat) : string :=
  if t mod 10 =? 0 then string_of_nat (t / 10)
  else append (string_of_nat (t / 10)) (String "." (String (digit_char (t mod 10)) EmptyString)).

(** [(0.001 * ms).toFixed(1)]: the integer [n] nearest [ms / 100]
    (the larger on a tie), printed with one decimal. *)
Definition toFixed1 (ms : nat) : string :=
  let n := (ms + 50) / 100 in
  append (string_of_nat (n / 10)) (String "." (String (digit_char (n mod 10)) EmptyString)).

(** The digits at the start of [s], accumulated onto [m]: their value,
    how many there are, and the rest of the string. *)
Fixpoint digits (s : string) (m e : nat) : nat * nat * string :=
  match s with
  | String c s' =>
      match digit_of c with
      | Some d => digits s' (10 * m + d) (S e)
      | None => (m, e, s)
      end
  | EmptyString => (m, e, s)
  end.

(** [parseFloat] on an unsigned decimal literal [digits ['.' digits]]:
    [Some (m, f)] is the value [m / 10^f]; [None] is [NaN], when the
    string does not start with a digit.  What follows the literal is
    ignored, as [parseFloat] reads the longest prefix that is a number.
    Signs, exponents, [Infinity] and leading blanks, which [toFixed]
    does not print for these values, are not modelled. *)
Definition parseFloat (s : string) : option (nat * nat) :=
  let '(m, n, r) := digits s 0 0 in
  if n =? 0 then None
  else match r with
       | String c r' =>
           if Ascii.eqb c "." then let '(m', f, _) := digits r' m 0 in Some (m', f)
           else Some (m, 0)
       | EmptyString => Some (m, 0)
       end.

(** ** The getters (lines 60-90) *)

Local Open Scope string_scope.

Definition Clock (a : App) : string := toFixed1 (elapsedTime a).

Definition RunningTotal (a : App) : string := number_toString (runningTotal a).

Definition QueueIsClosed (a : App) : bool := Gate.IsClosed (asyncChainQueue a).

Definition WaitingToFinish (a : App) : bool := waitingToFinish a.

Definition ShowFinalMessage (a : App) : bool := finalMessageVisible a.

(** [lastTimeCheck] is kept in tenths of a second ([App.Clock]). *)
Definition FinalMessage (a : App) : string :=
  if ShowFinalMessage a then
    "All tasks processed in " ++ Clock a ++ " seconds. Final total is " ++ RunningTotal a ++ "."
  else if isInInitialState a then
    "Add Tasks to Queue, then click one of the two Stop buttons to halt the Queue."
  else
    "Queue has been re-opened. The last update was " ++ number_toString (lastTotal a) ++
    " after " ++ tenths_toString (lastTimeCheck a) ++ " seconds.".

Definition OpenOrClosedStatus (a : App) : string :=
  if QueueIsClosed a then
    "Queue is CLOSED. New Tasks submitted will not start until Queue re-opens. Click to re-open."
  else if WaitingToFinish a then "Queue is OPEN until it finishes. Tasks can still be added."
  else "Queue is currently OPEN.".

Local Close Scope string_scope.

(** ** Reading back a printed number *)

(** A string that does not continue a run of digits. *)
Definition stops (r : string) : Prop :=
  match r with String c _ => digit_of c = None | EmptyString => True end.

Lemma digit_of_char d : d < 10 -> digit_of (digit_char d) = Some d.
Proof.
  intros Hd. unfold digit_of, digit_char. rewrite nat_ascii_embedding by lia.
  replace ((48 <=? 48 + d) && (48 + d <=? 57)) with true; [f_equal; lia |].
  symmetry. apply andb_true_intro. split; apply Nat.leb_le; lia.
Qed.

Lemma digits_digit c d s m e : digit_of c = Some d -> digits (String c s) m e = digits s (10 * m + d) (S e).
Proof. intros H. simpl. by rewrite H. Qed.

Lemma digits_uint d m e r :
  stops r ->
  digits (append (NilEmpty.string_of_uint d) r) m e = (Nat.of_uint_acc d m, e + Unsigned.usize d, r).
Proof.
  intros Hr. revert m e. induction d as [|d IH|d IH|d IH|d IH|d IH|d IH|d IH|d IH|d IH|d IH];
    intros m e; cbn [NilEmpty.string_of_uint append Nat.of_uint_acc Unsigned.usize].
  1: rewrite Nat.add_0_r; destruct r; simpl in *; [done | by rewrite Hr].
  all: cbn [digits]; rewrite Nat.tail_mul_spec.
  all: lazymatch goal with |- context [digit_of ?c] =>
         let v := eval vm_compute in (digit_of c) in change (digit_of c) with v end; cbv iota beta.
  all: rewrite IH; do 2 f_equal; [f_equal; lia | lia].
Qed.

(** The digits of [n], followed by a string that does not continue
    them, read back as [n]. *)
Lemma digits_nat n r :
  stops r -> exists k, k <> 0 /\ digits (append (string_of_nat n) r) 0 0 = (n, k, r).
Proof.
  intros Hr. unfold string_of_nat. pose proof (Unsigned.of_to n) as Hn.
  destruct (Nat.to_uint n) as [| d | d | d | d | d | d | d | d | d | d] eqn:E.
  1: { exists 1. split; [done |]. cbn in Hn |- *. subst n.
        destruct r; simpl in *; [done | by rewrite Hr]. }
  all: rewrite <- Hn; unfold Nat.of_uint; cbn [NilZero.string_of_uint]; rewrite (digits_uint _ _ _ _ Hr).
  all: eexists; split; [| reflexivity]; cbn; lia.
Qed.

(** A number of tenths printed with one decimal reads back as itself. *)
Lemma parseFloat_tenths t :
  parseFloat (append (string_of_nat (t / 10)) (String "." (String (digit_char (t mod 10)) EmptyString))) =
  Some (t, 1).
Proof.
  unfold parseFloat. destruct (digits_nat (t / 10) (String "." (String (digit_char (t mod 10)) EmptyString)))
    as (k & Hk & ->); [done |].
  rewrite (proj2 (Nat.eqb_neq k 0) Hk). cbn [Ascii.eqb Bool.eqb digits].
  rewrite digit_of_char by (apply Nat.mod_upper_bound; lia). cbn [digits].
  do 2 f_equal. pose proof (Nat.div_mod t 10). lia.
Qed.

Lemma parseFloat_toFixed1 ms : parseFloat (toFixed1 ms) = Some ((ms + 50) / 100, 1).
Proof. apply parseFloat_tenths. Qed.

(** ** The clock between two macrotasks *)

Lemma run_micro_elapsed m a : elapsedTime (run_micro m a) = elapsedTime a.
Proof.
  destruct m as [g i | k]; simpl.
  - unfold start_task, promiseToPushToQueue, update_queue. by repeat case_match.
  - case_match; [| done]. by destruct (obs_kind _).
Qed.

Lemma exec_elapsed e a a1 :
  exec e a = Some a1 -> elapsedTime a mod tickPeriod = 0 -> elapsedTime a1 mod tickPeriod = 0.
Proof.
  intros He Ha. destruct e; simpl in He.
  - by injection He as <-.
  - by injection He as <-.
  - unfold halt_closeThenFinish in He. case_match. by injection He as <-.
  - unfold halt_finishThenClose in He. case_match. by injection He as <-.
  - by injection He as <-.
  - by injection He as <-.
  - unfold timer_fires, update_queue in He. repeat case_match; simplify_eq; done.
  - injection He as <-. unfold tick. case_match; cbn [elapsedTime set_elapsedTime set_clock]; [| done].
    clear H. rewrite Nat.Div0.add_mod, Ha, Nat.Div0.mod_same. done.
Qed.

Lemma quiesce_elapsed fuel a :
  elapsedTime a mod tickPeriod = 0 -> elapsedTime (quiesce fuel a) mod tickPeriod = 0.
Proof.
  apply (quiesce_ind (fun x => elapsedTime x mod tickPeriod = 0)). intros x m Hx _. by rewrite run_micro_elapsed.
Qed.

(** Between two macrotasks [elapsedTime] is a multiple of [tickPeriod]. *)
Lemma reachable_elapsed a : reachable a -> elapsedTime a mod tickPeriod = 0.
Proof.
  intros Hr. eapply (star_inv step (fun a => elapsedTime a mod tickPeriod = 0)); [| exact Hr | done].
  intros b b' Hb Hs. inversion Hs as [e b0 b1 He]; subst. unfold app_step in He.
  destruct (exec e b) as [b2|] eqn:E; simpl in He; [| done]. injection He as <-.
  exact (quiesce_elapsed _ _ (exec_elapsed e b b2 E Hb)).
Qed.

(** So is it while the microtasks of a macrotask run. *)
Lemma checkpoint_elapsed b : in_checkpoint b -> elapsedTime b mod tickPeriod = 0.
Proof.
  intros (a & e & a1 & n & Hr & He & ->).
  exact (quiesce_elapsed _ _ (exec_elapsed e a a1 He (reachable_elapsed a Hr))).
Qed.

(** On such a state, the clock the page shows reads back as [App.Clock]. *)
Lemma parseFloat_Clock a : elapsedTime a mod tickPeriod = 0 -> parseFloat (Clock a) = Some (App.Clock a, 1).
Proof.
  intros Ha. unfold Clock, App.Clock. rewrite parseFloat_toFixed1. do 2 f_equal.
  pose proof (Nat.div_mod (elapsedTime a) tickPeriod) as Hd. unfold tickPeriod in *.
  rewrite Ha, Nat.add_0_r in Hd. rewrite Hd at 1 by lia.
  rewrite (Nat.mul_comm 100), Nat.div_add_l by lia. change (50 / 100) with 0. lia.
Qed.

End AppView.
