(* ===== verification/Scheduler.v ===== *)
(** * An executable scheduler for the chain's callbacks

    [next_event q] is the callback the JavaScript event loop would run
    next when no user event intervenes: the first promise of the chain
    that has not settled decides it.  Its [then] callback runs when its
    predecessor has settled; a due timer fires; a timer not yet due lets
    the clock advance one millisecond; an asynchronous task that will
    settle settles.  Nothing runs when that promise waits on the open
    signal, on a task that never settles, or behind a promise that never
    settles.  [run fuel q] runs at most [fuel] such callbacks; every run
    is a sequence of steps of [Chain.step] ([run_star]). *)

From stdpp Require Import base list.
From S2P Require Import Prelude Types Gate Tracker Chain.

Module Scheduler.
Section Scheduler.
Context {TInput SOutput RArgs : Type}.
Abbreviation Cell := (Cell TInput SOutput RArgs).
Abbreviation Queue := (Queue TInput SOutput RArgs).

(** The index of the first promise of [p] that has not settled, counting
    from [i]. *)
Fixpoint first_unsettled (p : list Cell) (i : nat) : option nat :=
  match p with
  | [] => None
  | c :: p' => if is_settled (status c) then first_unsettled p' (S i) else Some i
  end.

Definition next_event (q : Queue) : option (Chain.Event (TInput := TInput) (SOutput := SOutput) (RArgs := RArgs)) :=
  match first_unsettled (pipe q) 0 with
  | None | Some 0 => None
  | Some (S j as i) =>
      match status_at q i, status_at q j with
      | Some Pending, Some prev => if is_settled prev then Some (Chain.EvStart i) else None
      | Some (TimerSet due _), _ =>
          if due <=? now q then Some (Chain.EvTimer i) else Some Chain.EvTick
      | Some (Awaiting (Fulfils _)), _ | Some (Awaiting Rejects), _ => Some (Chain.EvSettle i)
      | _, _ => None
      end
  end.

Fixpoint run (fuel : nat) (q : Queue) : Queue :=
  match fuel with
  | 0 => q
  | S fuel' =>
      match next_event q with
      | Some e =>
          match Chain.exec e q with
          | Some q' => run fuel' q'
          | None => q
          end
      | None => q
      end
  end.

Lemma run_star fuel q : star Chain.step q (run fuel q).
Proof.
  revert q. induction fuel as [|fuel IH]; intros q; simpl; [constructor |].
  destruct (next_event q) as [e|]; [| constructor].
  destruct (Chain.exec e q) as [q'|] eqn:He; [| constructor].
  eapply star_step; [by econstructor | apply IH].
Qed.

Lemma run_reachable fuel q : Chain.reachable q -> Chain.reachable (run fuel q).
Proof. intros (v & b & Hs). exists v, b. eapply star_trans; [exact Hs | apply run_star]. Qed.
End Scheduler.
End Scheduler.
