(* ===== verification/Liveness.v ===== *)
(** * Liveness: enough fuel runs the chain to its end

    When every task of a queue succeeds ([task_total]), every barrier of
    its chain has been opened and no drain waiter is subscribed
    ([runnable]), the scheduler of [Scheduler.v] fulfils every promise of
    the chain within [run_bound] callbacks: each step still needs one
    [then] callback, a deferred task its delay in clock ticks and its
    [setTimeout] callback, an asynchronous task its settlement
    ([cell_cost]), and every callback the scheduler runs lowers that
    count.  This is the termination of the chain, with a bound, and the
    completeness of the scheduler: it stops only when the chain is done. *)

From stdpp Require Import base list.
From S2P Require Import Prelude Types Gate Tracker Chain Invariants Reachable Monotone Scheduler.

Module Liveness.
Section Liveness.
Context {TInput SOutput RArgs : Type}.
Abbreviation Node := (Node TInput SOutput RArgs).
Abbreviation Cell := (Cell TInput SOutput RArgs).
Abbreviation Queue := (Queue TInput SOutput RArgs).
Implicit Types (q : Queue).

(** A task that never fails: the callback of a deferred task returns on
    every input, the promise of an asynchronous task fulfils. *)
Definition task_total (n : Node) : Prop :=
  match n with
  | NFn a ci cb _ => forall s, is_Some (cb (ci s a))
  | NAsync a ci pr => forall s, exists v, pr (ci s a) = Fulfils v
  | _ => True
  end.

(** A queue whose tasks succeed, whose barriers have all been opened,
    and with no drain waiter (which would close the queue again). *)
Definition runnable q : Prop :=
  (forall n, n ∈ nodes q -> task_total n) /\
  (forall k, NBarrier k ∈ nodes q -> k <= numberOfOpenings q) /\
  drainSubs q = [].

(** The initial value is only at the head of the chain. *)
Definition no_late_init q : Prop := forall i v, nodes q !! S i <> Some (NInit v).

(** The callbacks a cell still needs when the clock shows [t]. *)
Definition cell_cost (t : nat) (c : Cell) : nat :=
  match status c with
  | Pending =>
      match node c with
      | NFn _ _ _ timeoutInMS => timeoutInMS + 2
      | NAsync _ _ _ => 2
      | _ => 1
      end
  | TimerSet due _ => due - t + 1
  | Awaiting _ => 1
  | _ => 0
  end.

Definition run_bound q : nat := sum_list_with (cell_cost (now q)) (pipe q).

Definition not_init (n : Node) : bool := match n with NInit _ => false | _ => true end.

(** ** The first promise that has not settled *)

Lemma first_unsettled_Some (p : list Cell) k i :
  Scheduler.first_unsettled p k = Some i ->
  k <= i /\ (exists c, p !! (i - k) = Some c /\ is_settled (status c) = false) /\
  forall m c, m < i - k -> p !! m = Some c -> is_settled (status c) = true.
Proof.
  revert k. induction p as [|c p IH]; intros k H; simpl in H; [done |].
  destruct (is_settled (status c)) eqn:Hs.
  - destruct (IH _ H) as (Hle & (c' & Hc' & Hns) & Hall). split; [lia |]. split.
    + exists c'. replace (i - k) with (S (i - S k)) by lia. done.
    + intros [|m] d Hm Hd; simpl in Hd; [by injection Hd as <- |]. apply (Hall m); [lia | done].
  - injection H as <-. rewrite Nat.sub_diag. split; [lia |]. split; [eauto | intros; lia].
Qed.

Lemma first_unsettled_None (p : list Cell) k :
  Scheduler.first_unsettled p k = None -> forall m c, p !! m = Some c -> is_settled (status c) = true.
Proof.
  revert k. induction p as [|c p IH]; intros k H m d Hd; simpl in *; [done |].
  destruct (is_settled (status c)) eqn:Hs; [| done].
  destruct m as [|m]; simpl in Hd; [by injection Hd as <- | by apply (IH (S k) H m)].
Qed.

(** ** Nothing fails in a runnable queue *)

Lemma runnable_no_failure q :
  inv q -> runnable q -> forall i c, pipe q !! i = Some c ->
  status c <> Rejected /\ status c <> Hung /\
  (forall o, status c = Awaiting o -> exists v, o = Fulfils v) /\ (forall s, status c <> Subscribed s).
Proof.
  intros HI (Htot & Hbar & _) i. induction i as [|j IH]; intros c Hc.
  - destruct (inv_init q HI) as [v Hv]. rewrite Hv in Hc. injection Hc as <-. done.
  - assert (Hlt : j < length (pipe q)) by (apply lookup_lt_Some in Hc; lia).
    destruct (lookup_lt_is_Some_2 _ _ Hlt) as [c' Hc'].
    destruct (IH c' Hc') as (Hr' & _). pose proof (inv_chain q HI j c c' Hc Hc') as Hok.
    assert (Hn : node c ∈ nodes q) by (apply list_elem_of_lookup_2 with (S j); unfold nodes; by rewrite list_lookup_fmap, Hc).
    pose proof (Htot _ Hn) as Ht. split_and!.
    + intros E. rewrite E in Hok. destruct (node c); simpl in *; try done.
      destruct Hok as [? | (s & _ & Hpr)]; [done |]. destruct (Ht s) as [v Hv]. congruence.
    + intros E. rewrite E in Hok. destruct (node c); simpl in *; try done.
      destruct Hok as [? | (s & _ & Hcb)]; [done |]. destruct (Ht s) as [v Hv]. congruence.
    + intros o E. rewrite E in Hok. destruct (node c); simpl in *; try done.
      destruct Hok as (s & _ & ->). apply Ht.
    + intros s E. destruct (inv_subscribed q HI (S j) c s Hc E) as [(k & Hk & Hlt') _].
      rewrite Hk in Hn. specialize (Hbar k Hn). lia.
Qed.

(** A settled promise of a runnable queue is fulfilled. *)
Lemma runnable_settled_fulfilled q i c :
  inv q -> runnable q -> pipe q !! i = Some c -> is_settled (status c) = true ->
  exists s, status c = Fulfilled s.
Proof.
  intros HI Hr Hc Hs. destruct (runnable_no_failure q HI Hr i c Hc) as (Hrej & _).
  destruct (status c); try done; eauto.
Qed.

(** ** The head of the chain stays the only initial value *)

Lemma grows_by_barriers_appends q q' :
  grows_by_barriers q q' -> exists l, nodes q' = nodes q ++ l /\ Forall (fun n => not_init n = true) l.
Proof.
  intros (l & Hl & Hb). exists l. split; [done |]. eapply Forall_impl; [exact Hb |]. by intros [] ?.
Qed.

Lemma exec_appends e q q' :
  Chain.exec e q = Some q' -> exists l, nodes q' = nodes q ++ l /\ Forall (fun n => not_init n = true) l.
Proof.
  intros He. destruct e; simpl in He.
  - injection He as <-. eexists [_]. unfold nodes. simpl. rewrite fmap_app. split; [reflexivity | by repeat constructor].
  - injection He as <-. eexists [_]. unfold nodes. simpl. rewrite fmap_app. split; [reflexivity | by repeat constructor].
  - injection He as <-. apply grows_by_barriers_appends. simpl.
    eapply grows_by_barriers_trans; [apply grows_by_barriers_closeQueue | by apply grows_by_barriers_same].
  - injection He as <-. apply grows_by_barriers_appends.
    unfold Tracker.getFinalResultAndCloseWhenAllTasksComplete. case_match; simpl; [| by apply grows_by_barriers_same].
    eapply grows_by_barriers_trans; [apply grows_by_barriers_closeQueue | by apply grows_by_barriers_same].
  - injection He as <-. apply grows_by_barriers_appends, grows_by_barriers_same.
    unfold nodes. rewrite Gate.pipe_openQueue. apply nodes_release_all.
  - apply grows_by_barriers_appends. unfold Chain.start_step in He.
    repeat case_match; simplify_eq; unfold Gate.barrier_reached; apply grows_by_barriers_same, nodes_set_status.
  - apply grows_by_barriers_appends. unfold Chain.timer_step in He.
    repeat case_match; simplify_eq; [| apply grows_by_barriers_same, nodes_set_status].
    eapply grows_by_barriers_trans; [| apply grows_by_barriers_register].
    apply grows_by_barriers_same, nodes_set_status.
  - apply grows_by_barriers_appends. unfold Chain.settle_step in He.
    repeat case_match; simplify_eq; [| apply grows_by_barriers_same, nodes_set_status].
    eapply grows_by_barriers_trans; [| apply grows_by_barriers_register].
    apply grows_by_barriers_same, nodes_set_status.
  - injection He as <-. apply grows_by_barriers_appends. by apply grows_by_barriers_same.
Qed.

Lemma reachable_no_late_init q : Chain.reachable q -> no_late_init q.
Proof.
  intros (v & b & Hs). eapply (star_inv Chain.step no_late_init); [| exact Hs |].
  - intros q1 q2 H1 Hst. inversion Hst as [e ? ? He]; subst. destruct (exec_appends _ _ _ He) as (l & Hl & Hni).
    intros i w. rewrite Hl. intros Hi. apply lookup_app_Some in Hi as [Hi | [_ Hi]]; [by apply (H1 i w) |].
    rewrite Forall_lookup in Hni. by specialize (Hni _ _ Hi).
  - intros i w. unfold Chain.new. destruct b; simpl; [| by destruct i].
    unfold Gate.closeQueue. simpl. destruct i as [|[|i]]; simpl; done.
Qed.

(** ** One callback of the scheduler *)

Lemma register_quiet q :
  drainSubs q = [] ->
  pipe (Tracker.registerTaskCompletion q) = pipe q /\ now (Tracker.registerTaskCompletion q) = now q /\
  drainSubs (Tracker.registerTaskCompletion q) = [] /\
  numberOfOpenings (Tracker.registerTaskCompletion q) = numberOfOpenings q.
Proof.
  intros H. unfold Tracker.registerTaskCompletion, Tracker.emit_taskComplete. simpl. rewrite H.
  by case_match.
Qed.

Lemma runnable_same q q' :
  runnable q -> nodes q' = nodes q -> numberOfOpenings q <= numberOfOpenings q' ->
  drainSubs q' = [] -> runnable q'.
Proof.
  intros (Ht & Hb & _) Hn Ho Hd. split_and!; [by rewrite Hn | | done].
  intros k Hk. rewrite Hn in Hk. specialize (Hb k Hk). lia.
Qed.

(** Changing the state of one cell to a cheaper one lowers the bound. *)
Lemma run_bound_set_status q i c st :
  pipe q !! i = Some c -> cell_cost (now q) (mkCell (node c) st) < cell_cost (now q) c ->
  run_bound (set_status i st q) < run_bound q.
Proof.
  intros Hc Hlt. unfold run_bound. rewrite (set_status_some q i c st Hc). simpl.
  pose proof (sum_list_with_insert (cell_cost (now q)) (pipe q) i (mkCell (node c) st) c Hc). lia.
Qed.

Lemma set_status_other q i st :
  now (set_status i st q) = now q /\ numberOfOpenings (set_status i st q) = numberOfOpenings q /\
  drainSubs (set_status i st q) = drainSubs q.
Proof. unfold set_status. by case_match. Qed.

(** After a callback that changes one cell and runs [registerTaskCompletion]. *)
Lemma completion_progress q i c v :
  runnable q -> pipe q !! i = Some c -> 0 < cell_cost (now q) c ->
  run_bound (Tracker.registerTaskCompletion (set_status i (Fulfilled v) q)) < run_bound q /\
  runnable (Tracker.registerTaskCompletion (set_status i (Fulfilled v) q)).
Proof.
  intros Hr Hc Hpos. destruct (set_status_other q i (Fulfilled v)) as (Hnow & Ho & Hd).
  destruct (register_quiet (set_status i (Fulfilled v) q)) as (Hp & Hn & Hd' & Ho');
    [rewrite Hd; apply Hr |].
  split.
  - unfold run_bound in *. rewrite Hp, Hn. fold (run_bound (set_status i (Fulfilled v) q)).
    apply (run_bound_set_status q i c); [done | exact Hpos].
  - apply (runnable_same q); [done | | | done].
    + unfold nodes. rewrite Hp. fold (nodes (set_status i (Fulfilled v) q)). apply nodes_set_status.
    + rewrite Ho', Ho. done.
Qed.

Lemma cell_cost_tick t c : cell_cost (S t) c <= cell_cost t c.
Proof. unfold cell_cost. destruct (status c); [destruct (node c) | | ..]; lia. Qed.

(** The first promise that has not settled, in a runnable queue: its
    predecessor is fulfilled, and it has not started, waits on its
    timer, or waits on a promise that will fulfil. *)
Lemma first_unsettled_cases q i :
  inv q -> runnable q -> Scheduler.first_unsettled (pipe q) 0 = Some i ->
  exists j c c' s', i = S j /\ pipe q !! S j = Some c /\ pipe q !! j = Some c' /\
    status c' = Fulfilled s' /\
    (status c = Pending \/ (exists due s, status c = TimerSet due s) \/
     exists v, status c = Awaiting (Fulfils v)).
Proof.
  intros HI Hr Hf. destruct (first_unsettled_Some _ _ _ Hf) as (_ & (c & Hc & Hns) & Hall).
  rewrite Nat.sub_0_r in *. destruct i as [|j].
  { destruct (inv_init q HI) as [v Hv]. rewrite Hv in Hc. injection Hc as <-. discriminate. }
  assert (Hlt : j < length (pipe q)) by (apply lookup_lt_Some in Hc; lia).
  destruct (lookup_lt_is_Some_2 _ _ Hlt) as [c' Hc'].
  destruct (runnable_settled_fulfilled q j c' HI Hr Hc' (Hall j c' ltac:(lia) Hc')) as [s' Hs'].
  destruct (runnable_no_failure q HI Hr (S j) c Hc) as (Hrej & Hhung & Hawait & Hsub).
  exists j, c, c', s'. split_and!; try done.
  destruct (status c) eqn:E; try done; eauto.
  - destruct (Hawait o eq_refl) as [v ->]. eauto.
  - by destruct (Hsub s).
Qed.

Lemma scheduler_progress q e :
  inv q -> runnable q -> no_late_init q -> Scheduler.next_event q = Some e ->
  exists q', Chain.exec e q = Some q' /\ run_bound q' < run_bound q /\ runnable q'.
Proof.
  intros HI Hr Hni Hn. unfold Scheduler.next_event in Hn.
  destruct (Scheduler.first_unsettled (pipe q) 0) as [i|] eqn:Hf; [| done].
  destruct (first_unsettled_cases q i HI Hr Hf) as (j & c & c' & s' & -> & Hc & Hc' & Hs' & Hcase).
  unfold status_at in Hn. rewrite Hc, Hc' in Hn. simpl in Hn. rewrite Hs' in Hn.
  pose proof (inv_chain q HI j c c' Hc Hc') as Hok. rewrite Hs' in Hok.
  assert (Hnode : node c ∈ nodes q).
  { apply list_elem_of_lookup_2 with (S j). unfold nodes. by rewrite list_lookup_fmap, Hc. }
  pose proof (proj1 Hr _ Hnode) as Htot. pose proof (proj1 (proj2 Hr)) as Hbar.
  destruct c as [n st]; simpl in *.
  destruct Hcase as [-> | [(due & s & ->) | (v & ->)]].
  - (* the [then] callback of a step that has not started *)
    injection Hn as <-. simpl. unfold Chain.start_step. rewrite Hc. unfold fmap, option_fmap, option_map.
    rewrite Hc', Hs'.
    assert (Hstep : forall st, st <> Pending -> cell_cost (now q) (mkCell n st) < cell_cost (now q) (mkCell n Pending) ->
              run_bound (set_status (S j) st q) < run_bound q /\ runnable (set_status (S j) st q)).
    { intros st Hst Hlt. split; [by apply (run_bound_set_status q (S j) (mkCell n Pending)) |].
      destruct (set_status_other q (S j) st) as (_ & Ho & Hd).
      apply (runnable_same q); [done | apply nodes_set_status | by rewrite Ho | rewrite Hd; apply Hr]. }
    destruct n as [v | a ci cb t | a ci pr | k].
    + by destruct (Hni j v); unfold nodes; rewrite list_lookup_fmap, Hc.
    + eexists. split; [reflexivity |]. apply Hstep; [done | unfold cell_cost; simpl; lia].
    + eexists. split; [reflexivity |]. apply Hstep; [done | unfold cell_cost; simpl; lia].
    + eexists. split; [reflexivity |]. unfold Gate.barrier_reached.
      rewrite (proj2 (Nat.leb_le k (numberOfOpenings q)) (Hbar k Hnode)).
      destruct (Hstep (Fulfilled s')) as [Hlt Hrun]; [done | unfold cell_cost; simpl; lia |]. split; [exact Hlt |].
      apply (runnable_same (set_status (S j) (Fulfilled s') q)); [done | done | done | apply Hrun].
  - (* a timer: it fires when due, otherwise the clock advances *)
    destruct n as [| a ci cb t | |]; simpl in Hok; try done. injection Hok as ->.
    destruct (Nat.leb_spec due (now q)) as [Hdue|Hdue]; injection Hn as <-; simpl.
    + unfold Chain.timer_step. rewrite Hc. rewrite (proj2 (Nat.leb_le _ _) Hdue).
      destruct (Htot s) as [out Hout]. rewrite Hout. eexists. split; [reflexivity |].
      apply (completion_progress q (S j) (mkCell (NFn a ci cb t) (TimerSet due s))); [done | done | unfold cell_cost; simpl; lia].
    + eexists. split; [reflexivity |]. split.
      * unfold run_bound. simpl. apply (sum_list_with_lt _ _ _ (S j) (mkCell (NFn a ci cb t) (TimerSet due s))); [| exact Hc | unfold cell_cost; simpl; lia].
        intros y _. apply cell_cost_tick.
      * apply (runnable_same q); [done | done | simpl; lia | apply Hr].
  - (* an asynchronous task settles *)
    destruct n as [| | a ci pr |]; simpl in Hok; try done. injection Hn as <-. simpl.
    unfold Chain.settle_step. rewrite Hc. eexists. split; [reflexivity |].
    apply (completion_progress q (S j) (mkCell (NAsync a ci pr) (Awaiting (Fulfils v)))); [done | done | unfold cell_cost; simpl; lia].
Qed.

(** When the scheduler has nothing to run, the chain is done. *)
Lemma next_event_none q :
  inv q -> runnable q -> Scheduler.next_event q = None ->
  forall i c, pipe q !! i = Some c -> exists s, status c = Fulfilled s.
Proof.
  intros HI Hr Hn i c Hc. unfold Scheduler.next_event in Hn.
  destruct (Scheduler.first_unsettled (pipe q) 0) as [k|] eqn:Hf.
  - exfalso. destruct (first_unsettled_cases q k HI Hr Hf) as (j & d & d' & s' & -> & Hd & Hd' & Hs' & Hcase).
    unfold status_at in Hn. rewrite Hd, Hd' in Hn. simpl in Hn. rewrite Hs' in Hn.
    destruct Hcase as [E | [(due & s & E) | (v & E)]]; rewrite E in Hn; simpl in Hn; [done | by case_match | done].
  - apply (runnable_settled_fulfilled q i c HI Hr Hc). exact (first_unsettled_None _ _ Hf i c Hc).
Qed.

(** With fuel [run_bound q], the scheduler fulfils every promise. *)
Lemma run_fulfils q fuel :
  Chain.reachable q -> runnable q -> run_bound q <= fuel ->
  forall i c, pipe (Scheduler.run fuel q) !! i = Some c -> exists s, status c = Fulfilled s.
Proof.
  revert q. induction fuel as [|fuel IH]; intros q Hreach Hr Hb; simpl;
    destruct (Scheduler.next_event q) as [e|] eqn:Hn;
    try (apply next_event_none; [by apply reachable_inv | done | done]).
  - destruct (scheduler_progress q e (reachable_inv q Hreach) Hr (reachable_no_late_init q Hreach) Hn)
      as (q' & _ & Hlt & _). lia.
  - destruct (scheduler_progress q e (reachable_inv q Hreach) Hr (reachable_no_late_init q Hreach) Hn)
      as (q' & He & Hlt & Hr'). rewrite He. apply IH; [by eapply reachable_exec | done | lia].
Qed.
End Liveness.
End Liveness.
