(* ===== verification/Scenarios.v ===== *)
(** * Concrete queues: the spec's scenarios and the states used as witnesses

    The queue at [TInput = SOutput = RArgs = nat], with the Task Producer
    of [src/src/app/app.component.ts] simplified to the spec's "task(+k)":
    [add_args] builds the input (the previous total plus the increment)
    and the task returns it, synchronously ([run_sync], for
    [pushFunctionToQueue]) or as a promise that fulfils ([run_async], for
    [pushPromiseToQueue]) or rejects ([run_reject]).  The last section
    holds runs of the component itself ([App.v]) from its constructor. *)

From Stdlib Require Import ZArith.
From stdpp Require Import base list.
From S2P Require Import Prelude Types Gate Tracker Chain Scheduler App.

Module Scenarios.
Abbreviation Q := (Queue nat nat nat).

Definition add_args (s a : nat) : nat := s + a.
Definition run_sync (t : nat) : option nat := Some t.
Definition run_async (t : nat) : Outcome nat := Fulfils t.
Definition run_reject (t : nat) : Outcome nat := Rejects.

(** [pushFunctionToQueue(k, add_args, run_sync, delay)]. *)
Definition push_fn (k delay : nat) (q : Q) : Q :=
  Chain.pushFunctionToQueue k add_args run_sync delay q.

(** [pushPromiseToQueue(k, add_args, run_async)]. *)
Definition push_async (k : nat) (q : Q) : Q :=
  Chain.pushPromiseToQueue k add_args run_async q.

(** [New(0)] and three deferred tasks (+5, delay 0), run to the end. *)
Definition three_fives : Q :=
  Scheduler.run 20 (push_fn 5 0 (push_fn 5 0 (push_fn 5 0 (Chain.new 0 false)))).

(** Three deferred tasks (+5) with delays 1, 2 and 3 milliseconds,
    submitted, and run to the end. *)
Definition delayed_three_submitted : Q :=
  push_fn 5 3 (push_fn 5 2 (push_fn 5 1 (Chain.new 0 false))).

Definition delayed_three : Q := Scheduler.run 40 delayed_three_submitted.

(** [New(0)] then [closeQueueAndGetFinalResult()]. *)
Definition close_fresh : Q * nat := Tracker.closeQueueAndGetFinalResult (Chain.new 0 false).

(** [New(0, startClosed = true)], one task (+1), and the final result
    requested. *)
Definition start_closed : Q * nat :=
  Tracker.closeQueueAndGetFinalResult (Scheduler.run 10 (push_async 1 (Chain.new 0 true))).

(** Five asynchronous tasks (+1) submitted at once; the first one
    completes; then [getFinalResultAndCloseWhenAllTasksComplete()]. *)
Definition five_then_drain : Q * nat :=
  Tracker.getFinalResultAndCloseWhenAllTasksComplete
    (Scheduler.run 2 (push_async 1 (push_async 1 (push_async 1 (push_async 1
       (push_async 1 (Chain.new 0 false))))))).

(** One asynchronous task (+1) and two calls of
    [getFinalResultAndCloseWhenAllTasksComplete()] while it runs; then
    the chain runs to its end. *)
Definition two_drains_first : Q * nat :=
  Tracker.getFinalResultAndCloseWhenAllTasksComplete (push_async 1 (Chain.new 0 false)).

Definition two_drains_second : Q * nat :=
  Tracker.getFinalResultAndCloseWhenAllTasksComplete two_drains_first.1.

Definition two_drains_run : Q := Scheduler.run 10 two_drains_second.1.

(** [open()] on a fresh open queue, then [closeQueueAndGetFinalResult()],
    and the barrier's callback. *)
Definition open_then_close_events : list (Chain.Event (TInput := nat) (SOutput := nat) (RArgs := nat)) :=
  [Chain.EvOpen; Chain.EvCloseAndGetResult; Chain.EvStart 1].

(** A task that rejects, followed by an asynchronous and a deferred
    task, run to the end. *)
Definition rejected_chain : Q :=
  Scheduler.run 20 (push_fn 1 0 (push_async 1
    (Chain.pushPromiseToQueue 1 add_args run_reject (Chain.new 0 false)))).

(** One deferred task (+5, delay 1) whose timer has been set. *)
Definition timer_pending : Q := Scheduler.run 1 (push_fn 5 1 (Chain.new 0 false)).

(** [New(0, startClosed = true)] and one task: the barrier waits. *)
Definition barrier_waiting : Q := Scheduler.run 5 (push_async 1 (Chain.new 0 true)).

(** ** The application component

    Runs of [App.run_events] from the component's constructor; the form
    is set first ([form value seconds]), each [ETimer 0] fires the oldest
    pending timer (the chain has at most one task running). *)

Definition form (value seconds : Z) : App.DataFromForm.t := App.DataFromForm.mk value seconds.

(** The queue after [openQueue()], [closeQueueAndGetFinalResult()] and
    the barrier's [then] callback: the barrier passed at once. *)
Definition passed_barrier : Q :=
  default (Chain.new 0 false)
    (Chain.run_events [Chain.EvOpen; Chain.EvCloseAndGetResult; Chain.EvStart 1] (Chain.new 0 false)).

Definition app_run (es : list App.Event) : App.App := default App.init (App.run_events es App.init).

(** Three tasks of +5 without delay, each timer fired in turn. *)
Definition app_three_fives : App.App :=
  app_run [App.EForm (form 5 0); App.ESubmit; App.ESubmit; App.ESubmit;
           App.ETimer 0; App.ETimer 0; App.ETimer 0].

(** One task of +5 has started when [reset()] is called. *)
Definition app_reset_pending : App.App :=
  app_run [App.EForm (form 5 0); App.ESubmit; App.EReset].

(** Then the old task's timer fires, and a new task of +5 runs. *)
Definition app_reset_stale : App.App :=
  app_run [App.EForm (form 5 0); App.ESubmit; App.EReset; App.ETimer 0; App.ESubmit; App.ETimer 0].

(** Two tasks, [halt_closeThenFinish()], then the timers fire. *)
Definition app_close_then_finish : App.App :=
  app_run [App.EForm (form 5 0); App.ESubmit; App.ESubmit; App.EHaltCloseThenFinish;
           App.ETimer 0; App.ETimer 0].

(** One task, [halt_finishThenClose()], a second task, then the timers
    fire. *)
Definition app_finish_then_close : App.App :=
  app_run [App.EForm (form 5 0); App.ESubmit; App.EHaltFinishThenClose; App.ESubmit;
           App.ETimer 0; App.ETimer 0].

(** One task, [halt_closeThenFinish()], then [reset()] while the task
    runs. *)
Definition app_halt_reset : App.App :=
  app_run [App.EForm (form 5 0); App.ESubmit; App.EHaltCloseThenFinish; App.EReset].

(** Two tasks, [halt_closeThenFinish()], the first timer fires; then
    the second timer fires, and its checkpoint has run the barrier's
    [then] callback but not yet the observer's. *)
Definition app_close_pending : App.App :=
  app_run [App.EForm (form 5 0); App.ESubmit; App.ESubmit; App.EHaltCloseThenFinish; App.ETimer 0].

Definition app_close_observe : App.App :=
  App.quiesce 1 (default app_close_pending (App.exec (App.ETimer 0) app_close_pending)).

(** A task of +5 taking one second, [halt_closeThenFinish()], one
    second of clock ticks, and the state inside the checkpoint of the
    task's timer where the halting callback is about to run. *)
Definition app_timed_pending : App.App :=
  app_run ([App.EForm (form 5 1); App.ESubmit; App.EHaltCloseThenFinish] ++ replicate 1000 App.ETick).

Definition app_timed_observe : App.App :=
  App.quiesce 1 (default app_timed_pending (App.exec (App.ETimer 0) app_timed_pending)).

(** One task, [halt_finishThenClose()], then [openQueue()]. *)
Definition app_reopen_waiting : App.App :=
  app_run [App.EForm (form 5 0); App.ESubmit; App.EHaltFinishThenClose; App.EOpenQueue].

(** Then a second task, and both timers fire. *)
Definition app_reopen_drained : App.App :=
  app_run [App.EForm (form 5 0); App.ESubmit; App.EHaltFinishThenClose; App.EOpenQueue;
           App.ESubmit; App.ETimer 0; App.ETimer 0].

(** Then a third task, and its timer fires. *)
Definition app_reopen_late_task : App.App :=
  app_run [App.EForm (form 5 0); App.ESubmit; App.EHaltFinishThenClose; App.EOpenQueue;
           App.ESubmit; App.ETimer 0; App.ETimer 0; App.ESubmit; App.ETimer 0].

(** One task and [halt_finishThenClose()], the task still running. *)
Definition app_finish_waiting : App.App :=
  app_run [App.EForm (form 5 0); App.ESubmit; App.EHaltFinishThenClose].

(** Two tasks of +5 taking one second each, submitted; the first runs. *)
Definition app_two_slow : App.App :=
  app_run [App.EForm (form 5 1); App.ESubmit; App.ESubmit].

(** Two submitted tasks before the microtasks have run. *)
Definition app_two_submitted : App.App := App.onSubmit (App.onSubmit (App.set_form (form 5 0) App.init)).
End Scenarios.
