(* ===== verification/Properties.v ===== *)
(** * The properties of [AsyncChainQueue]

    The theorems the development establishes about the queue, each about
    every reachable state (every interleaving of API calls and promise
    callbacks from a constructed queue), with a witness at a concrete
    queue of [Scenarios.v] for each.  The example
    [second_drain_waiter_waits] documents the behaviour of two drain
    waiters that [drain_subscribers_closed_form] states in general. *)

From stdpp Require Import base list.
From S2P Require Import Prelude Types Gate Tracker Chain Invariants Reachable Monotone Banked Spec.
From S2P Require Import Refinement Returns Scheduler Liveness Scenarios.

(** ** Automation for the concrete queues *)

#[export] Hint Resolve reachable_close reachable_drain reachable_open reachable_pushFunction
  reachable_pushPromise Scheduler.run_reachable Chain.reachable_new : queue.

(** Reachability of the concrete queues. *)
Ltac solve_reachable :=
  unfold Scenarios.three_fives, Scenarios.delayed_three, Scenarios.close_fresh,
    Scenarios.start_closed, Scenarios.five_then_drain, Scenarios.rejected_chain,
    Scenarios.delayed_three_submitted,
    Scenarios.timer_pending, Scenarios.barrier_waiting, Scenarios.push_fn, Scenarios.push_async;
  repeat match goal with
  | |- Chain.reachable (Scheduler.run _ _) => apply Scheduler.run_reachable
  | |- Chain.reachable (Chain.pushFunctionToQueue _ _ _ _ _) => apply reachable_pushFunction
  | |- Chain.reachable (Chain.pushPromiseToQueue _ _ _ _) => apply reachable_pushPromise
  | |- Chain.reachable (Tracker.closeQueueAndGetFinalResult _).1 => apply reachable_close
  | |- Chain.reachable (Tracker.getFinalResultAndCloseWhenAllTasksComplete _).1 => apply reachable_drain
  | |- Chain.reachable (Gate.openQueue _) => apply reachable_open
  | |- Chain.reachable (Chain.new _ _) => apply Chain.reachable_new
  end.

(** ** The properties *)

Section Properties.
Context {TInput SOutput RArgs : Type}.
Implicit Types (q : Queue TInput SOutput RArgs).

(** C1: Refinement.  In every reachable queue, every promise of the
    chain agrees with the synchronous fold of the steps up to it: a
    fulfilled promise holds the value obtained by running the tasks
    one after another from the initial value (barriers passing values
    through), a rejected one corresponds to a rejection of the fold,
    and a promise that can never settle to a fold that never ends. *)
Theorem chain_refines_fold q i c :
  Chain.reachable q -> pipe q !! i = Some c ->
  Refinement.agrees (status c) (Spec.chain_result (take (S i) (nodes q))).
Proof. intros Hr. exact (Refinement.chain_refines_fold_inv q (reachable_inv q Hr) i c). Qed.

(** C2: FIFO order.  A step of the chain starts only after every step
    submitted before it has settled: no task runs before all earlier
    tasks and barriers are done. *)
Theorem started_step_after_settled_prefix q j c :
  Chain.reachable q -> pipe q !! j = Some c -> status c <> Pending ->
  forall i, i < j -> exists c', pipe q !! i = Some c' /\ is_settled (status c') = true.
Proof. intros Hr. exact (settled_before_started_inv q (reachable_inv q Hr) j c). Qed.

(** C3: No parallel execution.  At most one step of the chain is in
    flight (started but not settled: a timer pending, a task running, a
    barrier waiting, or a step that will never settle). *)
Theorem single_step_in_flight q i j ci cj :
  Chain.reachable q -> pipe q !! i = Some ci -> pipe q !! j = Some cj ->
  status ci <> Pending -> is_settled (status ci) = false ->
  status cj <> Pending -> is_settled (status cj) = false -> i = j.
Proof.
  intros Hr Hi Hj Hpi Hsi Hpj Hsj. pose proof (reachable_inv q Hr) as HI.
  destruct (Nat.lt_total i j) as [Hlt | [-> | Hlt]]; [| done |].
  - destruct (settled_before_started_inv q HI j cj Hj Hpj i Hlt) as (c' & Hc' & Hs).
    rewrite Hi in Hc'. injection Hc' as <-. congruence.
  - destruct (settled_before_started_inv q HI i ci Hi Hpi j Hlt) as (c' & Hc' & Hs).
    rewrite Hj in Hc'. injection Hc' as <-. congruence.
Qed.

(** C4: Each step sees the previous step's output.  A deferred task
    whose timer is set, or a barrier that waits, was started with the
    fold of all the steps before it, i.e. with the output of the task
    before it (passed through any barriers). *)
Theorem waiting_step_started_with_fold q i c s :
  Chain.reachable q -> pipe q !! S i = Some c -> Refinement.started_with (status c) = Some s ->
  Spec.chain_result (take (S i) (nodes q)) = Spec.FVal s.
Proof. intros Hr. exact (Refinement.started_with_fold_inv q (reachable_inv q Hr) i c s). Qed.

(** C5: Close-then-open.  After [openQueue()], no barrier of the chain
    is still waiting on the open signal. *)
Theorem openQueue_releases_waiting q i c s :
  Chain.reachable q -> pipe (Gate.openQueue q) !! i = Some c -> status c <> Subscribed s.
Proof.
  intros Hr Hi. pose proof (reachable_inv q Hr) as HI. rewrite Gate.pipe_openQueue in Hi.
  refine (release_all_no_subscribed _ _ _ i c s Hi).
  intros j d t Hj Ht. exact (proj2 (inv_subscribed q HI j d t Hj Ht)).
Qed.

(** C6: No lost opening.  A barrier waits on the signal only while no
    opening with its closure number has happened, and only while it is
    subscribed to the signal, so the next [openQueue()] releases it. *)
Theorem waiting_barrier_not_opened q i c s :
  Chain.reachable q -> pipe q !! i = Some c -> status c = Subscribed s ->
  (exists k, node c = NBarrier k /\ numberOfOpenings q < k) /\ i ∈ openSubs q.
Proof. intros Hr. exact (inv_subscribed q (reachable_inv q Hr) i c s). Qed.

(** C7: Open before close.  If an opening is banked ahead of the
    closures when [closeQueue()] runs on an open queue, the barrier it
    appends passes at once whenever the chain reaches it, whatever
    happens in between: the closure number is compared with
    [numberOfOpenings] when the barrier is reached, and the openings
    never decrease. *)
Theorem closure_after_banked_opening_passes q q2 s :
  Chain.reachable q -> queueIsClosed q = false -> numberOfClosures q < numberOfOpenings q ->
  star Chain.step (Gate.closeQueue q) q2 ->
  status_at q2 (pipeline q) = Some (Fulfilled s) -> status_at q2 (length (pipe q)) = Some Pending ->
  exists q3, Chain.start_step (length (pipe q)) q2 = Some q3 /\
    status_at q3 (length (pipe q)) = Some (Fulfilled s).
Proof. apply Banked.banked_barrier_passes. Qed.

(** C8: Bounds of the opening counter.  [numberOfOpenings] is at most
    one more than [numberOfClosures]: the guard of [openQueue()] lets a
    single opening be banked ahead of the closures, and no more. *)
Theorem openings_at_most_one_ahead q :
  Chain.reachable q -> numberOfOpenings q <= S (numberOfClosures q).
Proof. intros Hr. exact (inv_openings q (reachable_inv q Hr)). Qed.

(** C11: Idempotent close.  Closing an open queue appends exactly one
    barrier, numbered one more than the closures so far, and sets the
    closed flag; a second [closeQueue()] finds the flag set and changes
    nothing, so closing twice is closing once. *)
Theorem closeQueue_idempotent q :
  Gate.closeQueue (Gate.closeQueue q) = Gate.closeQueue q /\
  (queueIsClosed q = false ->
   nodes (Gate.closeQueue q) = nodes q ++ [NBarrier (S (numberOfClosures q))] /\
   numberOfClosures (Gate.closeQueue q) = S (numberOfClosures q) /\
   Gate.IsClosed (Gate.closeQueue q) = true).
Proof.
  destruct (queueIsClosed q) eqn:E; split; try done.
  - by rewrite !(Gate.closeQueue_closed q E).
  - rewrite (Gate.closeQueue_open q E). by apply Gate.closeQueue_closed.
  - intros _. rewrite (Gate.closeQueue_open q E). unfold nodes. simpl. by rewrite fmap_app.
Qed.

(** C12: The completion counters.  [queueLength] is the number of tasks
    submitted, [tasksComplete] the number of tasks whose promise is
    fulfilled, and so [tasksComplete <= queueLength]. *)
Theorem completion_counters q :
  Chain.reachable q ->
  queueLength q = countb is_task (nodes q) /\ tasksComplete q = countb task_done (pipe q) /\
  tasksComplete q <= queueLength q.
Proof.
  intros Hr. pose proof (reachable_inv q Hr) as HI.
  split; [apply HI | split; [apply HI | by apply completed_le_submitted_inv]].
Qed.

(** C13: Drain waiters.  A caller of
    [getFinalResultAndCloseWhenAllTasksComplete()] is still waiting only
    while some submitted task has not completed: the waiters fire at the
    first completion that drains the queue. *)
Theorem drain_waiter_only_with_backlog q :
  Chain.reachable q -> drainSubs q <> [] -> tasksComplete q < queueLength q.
Proof. intros Hr. exact (reachable_drain_ok q Hr). Qed.

(** C14: Completion in order.  A promise of the chain is fulfilled only
    when every promise before it is fulfilled. *)
Theorem fulfilled_prefix q j c :
  Chain.reachable q -> pipe q !! j = Some c -> is_fulfilled (status c) = true ->
  forall i, i <= j -> exists c', pipe q !! i = Some c' /\ is_fulfilled (status c') = true.
Proof. intros Hr. exact (fulfilled_before_fulfilled_inv q (reachable_inv q Hr) j c). Qed.

(** C15: A rejection is final for the chain.  Once a task's promise has
    rejected, no later promise of the chain is ever fulfilled: later
    asynchronous tasks are skipped, and the first later deferred task
    or barrier never settles. *)
Theorem rejection_blocks_later_steps q j i v :
  Chain.reachable q -> status_at q j = Some Rejected -> j < i -> status_at q i <> Some (Fulfilled v).
Proof.
  intros Hr Hj Hlt Hi. destruct (status_at_lookup _ _ _ Hi) as (c & Hc & Hs).
  destruct (fulfilled_before_fulfilled_inv q (reachable_inv q Hr) i c Hc ltac:(by rewrite Hs) j ltac:(lia))
    as (c' & Hc' & Hf).
  destruct (status_at_lookup _ _ _ Hj) as (c'' & Hc'' & Hs'). rewrite Hc' in Hc''.
  injection Hc'' as ->. by rewrite Hs' in Hf.
Qed.

(** C9: A redundant [openQueue()] voids the next close.  On every
    reachable queue that is open, [openQueue()] banks an opening, since
    its guard [numberOfOpenings <= numberOfClosures] (line 83) does not
    look at [queueIsClosed]; a following [closeQueue()] (run by both
    halting methods) sets the flag, so the queue reports closed, yet the
    barrier it appends passes at once whenever the chain reaches it,
    after any interleaving: the tasks pushed after the close still run. *)
Theorem reopen_voids_next_close q q2 s :
  Chain.reachable q -> queueIsClosed q = false ->
  Gate.IsClosed (Gate.closeQueue (Gate.openQueue q)) = true /\
  (star Chain.step (Gate.closeQueue (Gate.openQueue q)) q2 ->
   status_at q2 (pipeline q) = Some (Fulfilled s) -> status_at q2 (length (pipe q)) = Some Pending ->
   exists q3, Chain.start_step (length (pipe q)) q2 = Some q3 /\
     status_at q3 (length (pipe q)) = Some (Fulfilled s)).
Proof.
  intros Hr Hc. pose proof (Banked.openQueue_open_banks q Hr Hc) as Hb.
  assert (Ho : queueIsClosed (Gate.openQueue q) = false) by (unfold Gate.openQueue; by case_match).
  split; [unfold Gate.IsClosed, Gate.closeQueue; rewrite Ho; done |].
  unfold pipeline. rewrite <- (Gate.length_openQueue q).
  apply Banked.banked_barrier_passes; [by apply reachable_open | done | done].
Qed.

(** C10: Barriers never unsubscribe (line 105).  In every reachable
    queue, a barrier the chain has reached, that passed at once
    ([Fulfilled]) or waits ([Subscribed]), is subscribed to
    [openQueueSignal], and stays subscribed in every later state: the
    subscriber list only grows, by one per barrier reached. *)
Theorem reached_barriers_stay_subscribed q q' i k st :
  Chain.reachable q -> star Chain.step q q' ->
  pipe q !! i = Some (mkCell (NBarrier k) st) -> (exists s, st = Fulfilled s \/ st = Subscribed s) ->
  i ∈ openSubs q' /\ openSubs q `prefix_of` openSubs q'.
Proof.
  intros Hr Hs Hi (s & Hst). destruct (Banked.subs_ok_star q q' Hs (Banked.reachable_subs_ok q Hr)) as [_ Hp].
  split; [| done]. eapply elem_of_prefix; [| exact Hp].
  apply (Banked.reachable_subs_ok q Hr i _ Hi). by destruct Hst as [-> | ->].
Qed.
End Properties.


(** C16: Liveness.  In a reachable queue whose tasks all succeed, whose
    barriers have all been opened and with no drain waiter, the
    scheduler fulfils every promise of the chain within [run_bound]
    callbacks (a [then] callback for each step not started, a deferred
    task's delay in clock ticks and its timer, an asynchronous task's
    settlement), and every submitted task is then counted complete. *)
Theorem run_completes {TInput SOutput RArgs : Type} (q : Queue TInput SOutput RArgs) fuel :
  Chain.reachable q -> Liveness.runnable q -> Liveness.run_bound q <= fuel ->
  (forall i c, pipe (Scheduler.run fuel q) !! i = Some c -> is_fulfilled (status c) = true) /\
  tasksComplete (Scheduler.run fuel q) = queueLength (Scheduler.run fuel q).
Proof.
  intros Hr Hrun Hb. pose proof (Liveness.run_fulfils q fuel Hr Hrun Hb) as Hf.
  split; [intros i c Hc; destruct (Hf i c Hc) as [s ->]; done |].
  pose proof (reachable_inv _ (Scheduler.run_reachable fuel q Hr)) as HI.
  rewrite (inv_tasksComplete _ HI), (inv_queueLength _ HI). unfold nodes. rewrite countb_fmap.
  apply countb_ext_in. intros c Hc. apply list_elem_of_lookup in Hc as [i Hi].
  destruct (Hf i c Hi) as [s Hs]. unfold task_done. rewrite Hs. simpl. by rewrite andb_true_r.
Qed.

(** C17: The result of [closeQueueAndGetFinalResult].  The promise it
    returns, once fulfilled (at any later state, whatever happened in
    between), holds the synchronous fold of exactly the steps of the chain
    at the call: the tasks submitted before the call, and none after. *)
Theorem close_result_is_fold {TInput SOutput RArgs : Type} (q q2 : Queue TInput SOutput RArgs) v :
  Chain.reachable q -> star Chain.step (Tracker.closeQueueAndGetFinalResult q).1 q2 ->
  Tracker.ret_status q2 (Tracker.closeQueueAndGetFinalResult q).2 = Fulfilled v ->
  Spec.chain_result (nodes q) = Spec.FVal v.
Proof.
  intros Hr Hs Hv. pose proof (reachable_close q Hr) as Hr1.
  assert (Hret : rets (Tracker.closeQueueAndGetFinalResult q).1 !! (Tracker.closeQueueAndGetFinalResult q).2
                 = Some (RAdopt (pipeline q))) by (simpl; apply lookup_snoc_eq).
  pose proof (Returns.rets_stable _ _ _ _ Hr1 Hs Hret ltac:(done)) as Hret2.
  pose proof (Returns.ret_status_fold q2 _ _ (pipeline q) v (Returns.reachable_star _ _ Hr1 Hs) Hret2 eq_refl Hv)
    as Hf.
  destruct (Returns.nodes_later q q2) as [l Hl].
  { eapply star_step; [apply (Chain.step_exec Chain.EvCloseAndGetResult); reflexivity | exact Hs]. }
  rewrite Hl, take_app_length' in Hf; [done |].
  symmetry. apply Returns.length_nodes_pipeline, reachable_inv, Hr.
Qed.

(** C18: The result of [getFinalResultAndCloseWhenAllTasksComplete].
    The promise it returns, once fulfilled, holds the synchronous fold of
    a prefix of the chain that contains every step submitted before the
    call: the caller never receives a total that misses a task it had
    added, whether the queue was already drained at the call or the
    promise waited for a later [queueComplete]. *)
Theorem drain_result_includes_submitted {TInput SOutput RArgs : Type} (q q2 : Queue TInput SOutput RArgs) v :
  Chain.reachable q -> star Chain.step (Tracker.getFinalResultAndCloseWhenAllTasksComplete q).1 q2 ->
  Tracker.ret_status q2 (Tracker.getFinalResultAndCloseWhenAllTasksComplete q).2 = Fulfilled v ->
  exists ns, nodes q `prefix_of` ns /\ ns `prefix_of` nodes q2 /\ Spec.chain_result ns = Spec.FVal v.
Proof.
  intros Hr Hs Hv. pose proof (reachable_drain q Hr) as Hr1.
  assert (Ht : Returns.ret_tracks (pipeline q) (Tracker.getFinalResultAndCloseWhenAllTasksComplete q).2
                 (Tracker.getFinalResultAndCloseWhenAllTasksComplete q).1).
  { unfold Tracker.getFinalResultAndCloseWhenAllTasksComplete. case_match; simpl.
    - right. exists (pipeline q), (RAdopt (pipeline q)). split_and!; [apply lookup_snoc_eq | done | done].
    - left. split; [apply lookup_snoc_eq |]. apply elem_of_app. right. by constructor. }
  assert (Hp : pipeline q <= pipeline (Tracker.getFinalResultAndCloseWhenAllTasksComplete q).1).
  { apply Returns.pipeline_grows, (grows_exec Chain.EvDrainThenClose). reflexivity. }
  destruct (Returns.ret_tracks_star _ _ _ _ Hr1 Hs Hp Ht) as [[Hw _] | (i & x & Hx & Hc & Hi)].
  { by rewrite (Returns.ret_status_waiting _ _ Hw) in Hv. }
  pose proof (Returns.ret_status_fold q2 _ _ _ v (Returns.reachable_star _ _ Hr1 Hs) Hx Hc Hv) as Hf.
  exists (take (S i) (nodes q2)). split_and!; [| apply prefix_take | done].
  destruct (Returns.nodes_later q q2) as [l Hl].
  { eapply star_step; [apply (Chain.step_exec Chain.EvDrainThenClose); reflexivity | exact Hs]. }
  pose proof (Returns.length_nodes_pipeline q (reachable_inv q Hr)).
  rewrite Hl, take_app, (take_ge (nodes q)) by lia. apply prefix_app_r. done.
Qed.

(** C19: The drain subscribers in closed form.  When a completion
    drains the queue, [emit_taskComplete] runs the [queueComplete]
    subscribers one after the other (lines 72-76).  The loop equals the
    closed form [Tracker.drain_all]: the queue is closed once, the first
    waiter follows the tail before the close, and every later waiter the
    tail after it, i.e. the closing barrier, which waits for an opening
    ([second_drain_waiter_waits]). *)
Theorem drain_subscribers_closed_form {TInput SOutput RArgs : Type}
    (q : Queue TInput SOutput RArgs) (l : list nat) :
  fold_left Tracker.drain_fire l q = Tracker.drain_all q l.
Proof.
  destruct l as [|r l]; [done |]. cbn [fold_left Tracker.drain_all].
  rewrite Tracker.fold_drain_fire_on_closed.
  - change (Tracker.drain_fire q r) with
      (set_rets (<[r := RThen (pipeline q)]> (rets (Gate.closeQueue q))) (Gate.closeQueue q)).
    by rewrite Tracker.set_rets_set_rets.
  - exact (proj2 (proj2 (proj2 (proj2 (proj2 (proj2 (proj2 (proj2 (Tracker.drain_fire_fields q r))))))))).
Qed.

(** Two drain waiters on one running task: the first resolves with the
    result, the second follows the closing barrier and stays pending
    until [openQueue()]. *)
Example second_drain_waiter_waits :
  Tracker.ret_status Scenarios.two_drains_run Scenarios.two_drains_first.2 = Fulfilled 1 /\
  Tracker.ret_status Scenarios.two_drains_run Scenarios.two_drains_second.2 = Pending /\
  Tracker.ret_status (Scheduler.run 10 (Gate.openQueue Scenarios.two_drains_run))
    Scenarios.two_drains_second.2 = Fulfilled 1.
Proof. vm_compute. split_and!; reflexivity. Qed.

(** ** Witnesses: each property with hypotheses, at a concrete queue *)

Lemma chain_refines_fold_witness :
  exists c, pipe Scenarios.three_fives !! 3 = Some c /\
    Refinement.agrees (status c) (Spec.chain_result (take 4 (nodes Scenarios.three_fives))).
Proof.
  destruct (pipe Scenarios.three_fives !! 3) as [c|] eqn:Hc; [| vm_compute in Hc; discriminate].
  exists c. split; [reflexivity |]. apply (chain_refines_fold Scenarios.three_fives 3 c); [solve_reachable | exact Hc].
Defined.

Lemma started_step_after_settled_prefix_witness :
  exists c', pipe Scenarios.three_fives !! 1 = Some c' /\ is_settled (status c') = true.
Proof.
  destruct (pipe Scenarios.three_fives !! 3) as [c|] eqn:Hc; [| vm_compute in Hc; discriminate].
  apply (started_step_after_settled_prefix Scenarios.three_fives 3 c); [solve_reachable | exact Hc | | lia].
  pose proof Hc as H. vm_compute in H. injection H as <-. discriminate.
Defined.

Lemma single_step_in_flight_witness :
  exists c, pipe Scenarios.timer_pending !! 1 = Some c /\ status c <> Pending /\
    is_settled (status c) = false /\ 1 = 1.
Proof.
  destruct (pipe Scenarios.timer_pending !! 1) as [c|] eqn:Hc; [| vm_compute in Hc; discriminate].
  assert (Hp : status c <> Pending /\ is_settled (status c) = false).
  { pose proof Hc as H. vm_compute in H. injection H as <-. split; [discriminate | reflexivity]. }
  exists c. split; [reflexivity |]. split; [apply Hp |]. split; [apply Hp |].
  assert (Hr : Chain.reachable Scenarios.timer_pending) by solve_reachable.
  exact (single_step_in_flight Scenarios.timer_pending 1 1 c c Hr Hc Hc (proj1 Hp) (proj2 Hp) (proj1 Hp) (proj2 Hp)).
Defined.

Lemma waiting_step_started_with_fold_witness :
  Spec.chain_result (take 1 (nodes Scenarios.timer_pending)) = Spec.FVal 0.
Proof.
  destruct (pipe Scenarios.timer_pending !! 1) as [c|] eqn:Hc; [| vm_compute in Hc; discriminate].
  apply (waiting_step_started_with_fold Scenarios.timer_pending 0 c 0); [solve_reachable | exact Hc |].
  pose proof Hc as H. vm_compute in H. injection H as <-. reflexivity.
Defined.

Lemma openQueue_releases_waiting_witness :
  exists c, pipe (Gate.openQueue Scenarios.barrier_waiting) !! 1 = Some c /\ status c <> Subscribed 0.
Proof.
  destruct (pipe (Gate.openQueue Scenarios.barrier_waiting) !! 1) as [c|] eqn:Hc;
    [| vm_compute in Hc; discriminate].
  exists c. split; [reflexivity |]. apply (openQueue_releases_waiting Scenarios.barrier_waiting 1 c 0); [solve_reachable | exact Hc].
Defined.

Lemma waiting_barrier_not_opened_witness :
  exists c, pipe Scenarios.barrier_waiting !! 1 = Some c /\ status c = Subscribed 0 /\
    (exists k, node c = NBarrier k /\ numberOfOpenings Scenarios.barrier_waiting < k) /\
    1 ∈ openSubs Scenarios.barrier_waiting.
Proof.
  destruct (pipe Scenarios.barrier_waiting !! 1) as [c|] eqn:Hc; [| vm_compute in Hc; discriminate].
  assert (Hs : status c = Subscribed 0) by (pose proof Hc as H; vm_compute in H; injection H as <-; reflexivity).
  exists c. split; [reflexivity |]. split; [exact Hs |].
  apply (waiting_barrier_not_opened Scenarios.barrier_waiting 1 c 0); [solve_reachable | exact Hc | exact Hs].
Defined.

Lemma closure_after_banked_opening_passes_witness :
  exists q3 : Scenarios.Q, Chain.start_step (length (pipe (Gate.openQueue (Chain.new 0 false : Scenarios.Q))))
               (Gate.closeQueue (Gate.openQueue (Chain.new 0 false))) = Some q3 /\
    status_at q3 (length (pipe (Gate.openQueue (Chain.new 0 false : Scenarios.Q)))) = Some (Fulfilled 0).
Proof.
  apply (closure_after_banked_opening_passes (Gate.openQueue (Chain.new 0 false))
           (Gate.closeQueue (Gate.openQueue (Chain.new 0 false))) 0);
    [solve_reachable | vm_compute; reflexivity | vm_compute; lia | constructor
    | vm_compute; reflexivity | vm_compute; reflexivity].
Defined.

Lemma openings_at_most_one_ahead_witness :
  numberOfOpenings Scenarios.three_fives <= S (numberOfClosures Scenarios.three_fives).
Proof. apply openings_at_most_one_ahead. solve_reachable. Defined.

Lemma closeQueue_idempotent_witness :
  nodes (Gate.closeQueue (Chain.new 0 false : Scenarios.Q)) = nodes (Chain.new 0 false : Scenarios.Q) ++ [NBarrier 1] /\
  numberOfClosures (Gate.closeQueue (Chain.new 0 false : Scenarios.Q)) = 1 /\
  Gate.IsClosed (Gate.closeQueue (Chain.new 0 false : Scenarios.Q)) = true.
Proof. apply (closeQueue_idempotent (Chain.new 0 false : Scenarios.Q)). vm_compute. reflexivity. Defined.

Lemma completion_counters_witness :
  queueLength Scenarios.three_fives = countb is_task (nodes Scenarios.three_fives) /\
  tasksComplete Scenarios.three_fives = countb task_done (pipe Scenarios.three_fives) /\
  tasksComplete Scenarios.three_fives <= queueLength Scenarios.three_fives.
Proof. apply completion_counters. solve_reachable. Defined.

Lemma drain_waiter_only_with_backlog_witness :
  tasksComplete Scenarios.five_then_drain.1 < queueLength Scenarios.five_then_drain.1.
Proof. apply drain_waiter_only_with_backlog; [solve_reachable | vm_compute; discriminate]. Defined.

Lemma fulfilled_prefix_witness :
  exists c', pipe Scenarios.three_fives !! 2 = Some c' /\ is_fulfilled (status c') = true.
Proof.
  destruct (pipe Scenarios.three_fives !! 3) as [c|] eqn:Hc; [| vm_compute in Hc; discriminate].
  apply (fulfilled_prefix Scenarios.three_fives 3 c); [solve_reachable | exact Hc | | lia].
  pose proof Hc as H. vm_compute in H. injection H as <-. reflexivity.
Defined.

Lemma rejection_blocks_later_steps_witness :
  status_at Scenarios.rejected_chain 2 <> Some (Fulfilled 0).
Proof. apply (rejection_blocks_later_steps Scenarios.rejected_chain 1 2 0); [solve_reachable | vm_compute; reflexivity | lia]. Defined.

Lemma run_completes_witness :
  Liveness.run_bound Scenarios.delayed_three_submitted = 12 /\
  (forall i c, pipe (Scheduler.run 12 Scenarios.delayed_three_submitted) !! i = Some c ->
     is_fulfilled (status c) = true) /\
  tasksComplete (Scheduler.run 12 Scenarios.delayed_three_submitted) =
    queueLength (Scheduler.run 12 Scenarios.delayed_three_submitted).
Proof.
  split; [vm_compute; reflexivity |]. apply run_completes; [solve_reachable | | vm_compute; lia].
  split_and!; [| | reflexivity].
  - intros n Hn. vm_compute in Hn.
    repeat (apply elem_of_cons in Hn as [-> | Hn]; [simpl; eauto |]). by apply not_elem_of_nil in Hn.
  - intros k Hk. vm_compute in Hk.
    repeat (apply elem_of_cons in Hk as [Hk | Hk]; [done |]). by apply not_elem_of_nil in Hk.
Defined.

Lemma close_result_is_fold_witness : Spec.chain_result (nodes Scenarios.three_fives) = Spec.FVal 15.
Proof.
  apply (close_result_is_fold Scenarios.three_fives (Tracker.closeQueueAndGetFinalResult Scenarios.three_fives).1);
    [solve_reachable | apply star_refl | vm_compute; reflexivity].
Defined.

Lemma drain_result_includes_submitted_witness :
  exists ns, nodes Scenarios.delayed_three_submitted `prefix_of` ns /\
    ns `prefix_of` nodes (Scheduler.run 40
      (Tracker.getFinalResultAndCloseWhenAllTasksComplete Scenarios.delayed_three_submitted).1) /\
    Spec.chain_result ns = Spec.FVal 15.
Proof.
  apply drain_result_includes_submitted;
    [solve_reachable | apply Scheduler.run_star | vm_compute; reflexivity].
Defined.

Lemma reopen_voids_next_close_witness :
  Gate.IsClosed (Gate.closeQueue (Gate.openQueue (Chain.new 0 false : Scenarios.Q))) = true /\
  exists q3 : Scenarios.Q,
    Chain.start_step (length (pipe (Chain.new 0 false : Scenarios.Q))) (Gate.closeQueue (Gate.openQueue (Chain.new 0 false))) = Some q3 /\
    status_at q3 (length (pipe (Chain.new 0 false : Scenarios.Q))) = Some (Fulfilled 0).
Proof.
  destruct (reopen_voids_next_close (Chain.new 0 false : Scenarios.Q)
              (Gate.closeQueue (Gate.openQueue (Chain.new 0 false))) 0) as [H1 H2];
    [solve_reachable | reflexivity |].
  split; [exact H1 |]. apply H2; [constructor | vm_compute; reflexivity | vm_compute; reflexivity].
Defined.

Lemma reached_barriers_stay_subscribed_witness :
  1 ∈ openSubs Scenarios.passed_barrier /\ openSubs Scenarios.passed_barrier `prefix_of` openSubs Scenarios.passed_barrier.
Proof.
  apply (reached_barriers_stay_subscribed Scenarios.passed_barrier Scenarios.passed_barrier 1 1 (Fulfilled 0)).
  - exists 0, false. apply Chain.run_events_star with (es := [Chain.EvOpen; Chain.EvCloseAndGetResult; Chain.EvStart 1]).
    vm_compute. reflexivity.
  - constructor.
  - vm_compute. reflexivity.
  - exists 0. by left.
Defined.

