(* ===== verification/AppProperties.v ===== *)
(** * The properties of the application component

    The theorems about [AppComponent] ([src/src/app/app.component.ts]) as
    a client of the queue, each about every reachable state of the
    component (every interleaving of user actions, timers and clock
    ticks, each followed by its microtasks), with a witness at a
    concrete run of [Scenarios.v] for each. *)

From Stdlib Require Import ZArith String.
From stdpp Require Import base list.
From S2P Require Import Prelude Types Gate Tracker Chain App Invariants Reachable Monotone.
From S2P Require Import AppProofs AppObservers AppDrain AppTotals AppLiveness AppView Scenarios.

Import App AppProofs.

(** C20: The displayed total.  In every reachable state of the
    component, [runningTotal] is the sum of the values ([taskValue]) of
    the tasks the live queue has completed, in submission order: each
    timer publishes [args.runningTotal + args.increment], where
    [args.runningTotal] is the previous task's output. *)
Theorem running_total_is_sum a :
  reachable a -> runningTotal a = completed_total (asyncChainQueue a).
Proof. intros Hr. exact (wf_total a (proj1 (reachable_app_inv a Hr))). Qed.

(** C21: Reset isolates the old queue.  No step of the component ever
    changes a queue that [reset()] has replaced: the discarded queues
    only grow by the queue being replaced.  Their pending callbacks
    never run again (a discarded chain has no queued [then] callback,
    and its tasks' timers fail the [resetCounter === signalValue] test). *)
Theorem reset_freezes_discarded a a' :
  reachable a -> step a a' -> discarded a `prefix_of` discarded a'.
Proof. intros Hr Hs. exact (step_discarded a a' (reachable_app_inv a Hr) Hs). Qed.

(** C22: A stale timer has no effect.  When a timer of a task started
    before the last [reset()] fires, it neither publishes its total nor
    resolves its task's promise. *)
Theorem stale_timer_no_effect a k t a' :
  reachable a -> timers a !! k = Some t -> timer_gen t < live_gen a ->
  timer_fires k a = Some a' ->
  runningTotal a' = runningTotal a /\ all_queues a' = all_queues a.
Proof.
  intros Hr Hk Hlt H.
  pose proof (stale_timer_mismatch a k t (proj1 (reachable_app_inv a Hr)) Hk Hlt) as Hne.
  unfold timer_fires in H. rewrite Hk in H. destruct (timer_due t <=? clock a); [| done].
  destruct (Nat.eqb_spec (resetCounter a) (signalValue t)); [done |]. by injection H as <-.
Qed.

(** C23: The reset token identifies the live queue.  A pending timer
    whose [signalValue] is the current [resetCounter] belongs to the live
    queue, and the task it will resolve is running there, waiting for
    exactly the total the timer will publish. *)
Theorem live_timer_targets_running_task a t :
  reachable a -> t ∈ timers a -> signalValue t = resetCounter a ->
  timer_gen t = live_gen a /\
  status_at (asyncChainQueue a) (timer_cell t) = Some (Awaiting (Fulfils (timer_newRunningTotal t))).
Proof.
  intros Hr Hin Hs. destruct (reachable_app_inv a Hr) as [Hwf _].
  pose proof (wf_timers a Hwf) as Ht. rewrite Forall_forall in Ht.
  destruct (Ht t Hin) as [Hsig (q & Hq & Hst)].
  assert (Hg : timer_gen t = live_gen a) by (rewrite <- Hsig, Hs; apply (wf_gen a Hwf)).
  split; [done |]. rewrite Hg, queue_of_live in Hq. by injection Hq as <-.
Qed.

(** C24: Halting callbacks of a replaced queue never run.  The callback
    that [halt_closeThenFinish] or [halt_finishThenClose] attached to the
    promise of a queue that [reset()] has since replaced stays pending in
    every later state: it never overwrites [lastTotal],
    [finalMessageVisible] or [waitingToFinish] of the new queue, although
    it does not check the reset token. *)
Theorem stale_observer_never_runs a a' o :
  reachable a -> o ∈ observers a -> obs_gen o < live_gen a -> star step a a' -> o ∈ observers a'.
Proof.
  intros Hr Ho Hg Hs. pose proof (reachable_app_inv a Hr) as Hinv. clear Hr. revert Hinv Ho Hg.
  induction Hs as [|a a1 a2 H1 _ IH]; intros Hinv Ho Hg; [done |].
  pose proof (AppObservers.live_gen_step a a1 Hinv H1).
  apply IH; [by apply (app_inv_step a) | | lia].
  apply (AppObservers.step_keeps_stale_observer a); [done | done | done |]. unfold AppObservers.stale. lia.
Qed.

(** C25: The final message shows the queue's result.  The callbacks of
    the halting handlers copy [this.runningTotal] into [lastTotal]
    instead of the value [res] their promise resolved with.  Whenever one
    runs, at any point of the microtasks that follow any macrotask of a
    reachable state, it belongs to the live queue, its promise has been
    fulfilled, and the total it displays is that value. *)
Theorem observer_displays_result b k o :
  AppTotals.in_checkpoint b -> next_micro b = Some (MObserve k) -> observers b !! k = Some o ->
  obs_gen o = live_gen b /\
  exists v, Tracker.ret_status (asyncChainQueue b) (obs_ret o) = Fulfilled v /\
    lastTotal (run_micro (MObserve k) b) = v.
Proof. intros Hb. apply AppTotals.observer_total, AppTotals.in_checkpoint_wf, Hb. Qed.

(** C26: The "waiting to finish" indicator.  In every reachable state,
    [waitingToFinish] is set only while a callback that
    [halt_finishThenClose] registered on the live queue is pending: the
    callback clears it when it runs, and [reset()] and [openQueue()]
    clear it as well. *)
Theorem waiting_means_pending_drain a :
  reachable a -> waitingToFinish a = true ->
  exists o, o ∈ observers a /\ obs_kind o = FinishThenClose /\ obs_gen o = live_gen a.
Proof. intros Hr. exact (AppObservers.reachable_waiting_ok a Hr). Qed.

(** C28: Every submitted task completes.  From every reachable state of
    the component whose live queue waits at no unopened closure, some run
    of clock ticks and timer callbacks alone (no user action, so no
    reset) completes every task submitted to the live queue; the total
    displayed is then the sum of the values of all of them. *)
Theorem tasks_complete_eventually a :
  reachable a -> AppLiveness.closures_opened (asyncChainQueue a) ->
  exists es a', Forall (fun e => AppLiveness.is_drive e = true) es /\ run_events es a = Some a' /\
    live_gen a' = live_gen a /\
    queueLength (asyncChainQueue a') = queueLength (asyncChainQueue a) /\
    tasksComplete (asyncChainQueue a') = queueLength (asyncChainQueue a') /\
    runningTotal a' = sumZ (task_values (nodes (asyncChainQueue a'))).
Proof.
  intros Hr Hcl. destruct (AppLiveness.drive_completes a Hr Hcl) as (es & a' & Hes & Hrun & Hl & Hql & Htc).
  exists es, a'. split_and!; try done.
  assert (Hr' : reachable a') by (eapply star_trans; [exact Hr | by apply (app_run_events_star es)]).
  destruct (reachable_app_inv a' Hr') as [Hwf _]. rewrite (wf_total a' Hwf). unfold completed_total.
  rewrite take_ge; [done |]. rewrite length_task_values, Htc.
  by rewrite (inv_queueLength _ (reachable_inv _ (proj1 (live_wf a' Hwf)))).
Qed.

(** C27: [openQueue()] does not cancel a pending drain (lines 135-139).
    In every reachable state where a drain waiter of
    [halt_finishThenClose()] is subscribed to the live queue, the
    user's [openQueue()] (with the microtasks it queues) makes the page
    report "Queue is currently OPEN.", the yellow state cleared, while
    the waiter stays subscribed and its callback stays registered: when
    the backlog drains, the queue closes again and the final message is
    shown, although the user reopened it. *)
Theorem reopen_keeps_pending_drain a a' r :
  reachable a -> r ∈ drainSubs (asyncChainQueue a) -> app_step EOpenQueue a = Some a' ->
  AppView.OpenOrClosedStatus a' = "Queue is currently OPEN."%string /\
  r ∈ drainSubs (asyncChainQueue a') /\
  exists o, o ∈ observers a' /\ obs_kind o = FinishThenClose /\ obs_gen o = live_gen a' /\ obs_ret o = r.
Proof.
  intros Hr Hin Hs. destruct (AppDrain.openQueue_keeps_drain a a' Hr Hs) as (Hw & Hc & Hd & _ & Hok).
  rewrite <- Hd in Hin. split_and!; [| done | by apply Hok].
  unfold AppView.OpenOrClosedStatus, AppView.QueueIsClosed, AppView.WaitingToFinish, Gate.IsClosed. by rewrite Hc, Hw.
Qed.

(** ** Witnesses *)

(** The state in which the callback of [halt_closeThenFinish] is about
    to run, inside the checkpoint of the timer that completes the task. *)
Lemma app_close_observe_checkpoint : AppTotals.in_checkpoint Scenarios.app_close_observe.
Proof.
  exists Scenarios.app_close_pending, (ETimer 0),
    (default Scenarios.app_close_pending (exec (ETimer 0) Scenarios.app_close_pending)), 1.
  split_and!; [unfold Scenarios.app_close_pending, Scenarios.app_run; apply reachable_run |
               vm_compute; reflexivity | reflexivity].
Qed.

Lemma running_total_is_sum_witness :
  runningTotal Scenarios.app_three_fives = 15%Z /\
  runningTotal Scenarios.app_three_fives = completed_total (asyncChainQueue Scenarios.app_three_fives).
Proof.
  split; [vm_compute; reflexivity |].
  apply running_total_is_sum. unfold Scenarios.app_three_fives, Scenarios.app_run. apply reachable_run.
Defined.

Lemma reset_freezes_discarded_witness :
  discarded Scenarios.app_reset_pending `prefix_of`
  discarded (default Scenarios.app_reset_pending (app_step (ETimer 0) Scenarios.app_reset_pending)).
Proof.
  apply reset_freezes_discarded.
  - unfold Scenarios.app_reset_pending, Scenarios.app_run. apply reachable_run.
  - apply (step_exec (ETimer 0)). vm_compute. reflexivity.
Defined.

Lemma stale_timer_no_effect_witness :
  runningTotal (default Scenarios.app_reset_pending (timer_fires 0 Scenarios.app_reset_pending)) =
    runningTotal Scenarios.app_reset_pending /\
  all_queues (default Scenarios.app_reset_pending (timer_fires 0 Scenarios.app_reset_pending)) =
    all_queues Scenarios.app_reset_pending.
Proof.
  apply (stale_timer_no_effect Scenarios.app_reset_pending 0 (mkTimer 0 0 5%Z 0 1)).
  - unfold Scenarios.app_reset_pending, Scenarios.app_run. apply reachable_run.
  - vm_compute. reflexivity.
  - vm_compute. lia.
  - vm_compute. reflexivity.
Defined.

Lemma live_timer_targets_running_task_witness :
  timer_gen (mkTimer 0 0 5%Z 0 1) = live_gen (Scenarios.app_run [EForm (Scenarios.form 5 0); ESubmit]) /\
  status_at (asyncChainQueue (Scenarios.app_run [EForm (Scenarios.form 5 0); ESubmit])) 1 =
    Some (Awaiting (Fulfils 5%Z)).
Proof.
  apply (live_timer_targets_running_task _ (mkTimer 0 0 5%Z 0 1)).
  - apply reachable_run.
  - vm_compute. constructor.
  - vm_compute. reflexivity.
Defined.

Lemma stale_observer_never_runs_witness :
  mkObserver CloseThenFinish 0 0 ∈
    observers (default Scenarios.app_halt_reset (run_events [ETimer 0; ESubmit; ETimer 0] Scenarios.app_halt_reset)).
Proof.
  apply (stale_observer_never_runs Scenarios.app_halt_reset).
  - unfold Scenarios.app_halt_reset, Scenarios.app_run. apply reachable_run.
  - vm_compute. constructor.
  - vm_compute. lia.
  - apply (app_run_events_star [ETimer 0; ESubmit; ETimer 0]). vm_compute. reflexivity.
Defined.

Lemma observer_displays_result_witness :
  obs_gen (mkObserver CloseThenFinish 0 0) = live_gen Scenarios.app_close_observe /\
  exists v, Tracker.ret_status (asyncChainQueue Scenarios.app_close_observe) 0 = Fulfilled v /\
    lastTotal (run_micro (MObserve 0) Scenarios.app_close_observe) = v.
Proof.
  apply (observer_displays_result Scenarios.app_close_observe 0 (mkObserver CloseThenFinish 0 0)).
  - exact app_close_observe_checkpoint.
  - vm_compute. reflexivity.
  - vm_compute. reflexivity.
Defined.

Lemma waiting_means_pending_drain_witness :
  exists o, o ∈ observers Scenarios.app_finish_waiting /\ obs_kind o = FinishThenClose /\
    obs_gen o = live_gen Scenarios.app_finish_waiting.
Proof.
  apply waiting_means_pending_drain.
  - unfold Scenarios.app_finish_waiting, Scenarios.app_run. apply reachable_run.
  - vm_compute. reflexivity.
Defined.

Lemma tasks_complete_eventually_witness :
  exists es a', Forall (fun e => AppLiveness.is_drive e = true) es /\
    run_events es Scenarios.app_two_slow = Some a' /\
    live_gen a' = live_gen Scenarios.app_two_slow /\
    queueLength (asyncChainQueue a') = queueLength (asyncChainQueue Scenarios.app_two_slow) /\
    tasksComplete (asyncChainQueue a') = queueLength (asyncChainQueue a') /\
    runningTotal a' = sumZ (task_values (nodes (asyncChainQueue a'))).
Proof.
  apply tasks_complete_eventually.
  - unfold Scenarios.app_two_slow, Scenarios.app_run. apply reachable_run.
  - intros i k Hi. vm_compute in Hi. destruct i as [|[|[|i]]]; simpl in Hi; discriminate.
Defined.

Lemma reopen_keeps_pending_drain_witness :
  AppView.OpenOrClosedStatus (default Scenarios.app_finish_waiting (app_step EOpenQueue Scenarios.app_finish_waiting)) =
    "Queue is currently OPEN."%string /\
  0 ∈ drainSubs (asyncChainQueue (default Scenarios.app_finish_waiting (app_step EOpenQueue Scenarios.app_finish_waiting))) /\
  exists o, o ∈ observers (default Scenarios.app_finish_waiting (app_step EOpenQueue Scenarios.app_finish_waiting)) /\
    obs_kind o = FinishThenClose /\
    obs_gen o = live_gen (default Scenarios.app_finish_waiting (app_step EOpenQueue Scenarios.app_finish_waiting)) /\
    obs_ret o = 0.
Proof.
  apply (reopen_keeps_pending_drain Scenarios.app_finish_waiting).
  - unfold Scenarios.app_finish_waiting, Scenarios.app_run. apply reachable_run.
  - assert (Hd : drainSubs (asyncChainQueue Scenarios.app_finish_waiting) = [0]) by (vm_compute; reflexivity).
    rewrite Hd. by left.
  - vm_compute. reflexivity.
Defined.

